(** * The xv6 buffer cache (kernel/bio.c) with per-bucket locks

    A shallow embedding of [kernel/bio.c]: the cache is the pair of arrays
    [bcache.buf] and [bcache.head], list nodes point at each other through
    [prev]/[next], and every function of the file is a computation in a small
    state-and-error monad whose state also carries the tick counter, the
    disk, and the sequence of lock and disk calls made so far. *)

From Stdlib Require Import ZArith Lia String.
From stdpp Require Import base decidable option list gmap strings.

(** ** Machine integers *)

(** [uint] values are kept as [Z] in [0, 2^32); the two conversions below
    are the ones C performs on assignment and on argument passing. *)
Definition to_uint (z : Z) : Z := (z mod 2 ^ 32)%Z.
Definition to_int (z : Z) : Z := ((z + 2 ^ 31) mod 2 ^ 32 - 2 ^ 31)%Z.

(** ** Data model *)

(** A [struct buf *]: null, the address of a bucket sentinel
    [&bcache.head[i]], or the address of a slot [&bcache.buf[j]]. *)
Inductive ptr : Type :=
| Null
| Head (i : nat)
| Buf (j : nat).

#[global] Instance ptr_eq_dec : EqDecision ptr.
Proof. solve_decision. Defined.

(** [struct buf].  The sleep-lock is kept as its holder, [None] when free.
    [lastuse] is the field this version of the file adds to the struct. *)
Record buf : Type := mkbuf {
  valid : Z;
  dev : Z;
  blockno : Z;
  lock : option Z;
  refcnt : Z;
  lastuse : Z;
  prev : ptr;
  next : ptr;
  data : list Z
}.

Definition set_valid (v : Z) (b : buf) : buf :=
  mkbuf v (dev b) (blockno b) (lock b) (refcnt b) (lastuse b) (prev b) (next b) (data b).
Definition set_dev (v : Z) (b : buf) : buf :=
  mkbuf (valid b) v (blockno b) (lock b) (refcnt b) (lastuse b) (prev b) (next b) (data b).
Definition set_blockno (v : Z) (b : buf) : buf :=
  mkbuf (valid b) (dev b) v (lock b) (refcnt b) (lastuse b) (prev b) (next b) (data b).
Definition set_lock (v : option Z) (b : buf) : buf :=
  mkbuf (valid b) (dev b) (blockno b) v (refcnt b) (lastuse b) (prev b) (next b) (data b).
Definition set_refcnt (v : Z) (b : buf) : buf :=
  mkbuf (valid b) (dev b) (blockno b) (lock b) v (lastuse b) (prev b) (next b) (data b).
Definition set_lastuse (v : Z) (b : buf) : buf :=
  mkbuf (valid b) (dev b) (blockno b) (lock b) (refcnt b) v (prev b) (next b) (data b).
Definition set_prev (v : ptr) (b : buf) : buf :=
  mkbuf (valid b) (dev b) (blockno b) (lock b) (refcnt b) (lastuse b) v (next b) (data b).
Definition set_next (v : ptr) (b : buf) : buf :=
  mkbuf (valid b) (dev b) (blockno b) (lock b) (refcnt b) (lastuse b) (prev b) v (data b).
Definition set_data (v : list Z) (b : buf) : buf :=
  mkbuf (valid b) (dev b) (blockno b) (lock b) (refcnt b) (lastuse b) (prev b) (next b) v.

(** The calls a thread makes on the two kinds of lock and on the disk. *)
Inductive event : Type :=
| EvAcquire (i : nat)
| EvRelease (i : nat)
| EvAcquireSleep (p : ptr)
| EvReleaseSleep (p : ptr)
| EvDiskRW (p : ptr) (write : bool).

#[global] Instance event_eq_dec : EqDecision event.
Proof. solve_decision. Defined.

(** The two arrays of [bcache]: the slots and the bucket sentinels. *)
Record bcache : Type := mkbcache {
  bufs : list buf;
  heads : list buf
}.

(** The machine state: [bcache], the global [ticks], the disk behind
    [virtio_disk_rw], and the calls made so far, oldest first. *)
Record state : Type := mkstate {
  cache : bcache;
  ticks : Z;
  disk : gmap (Z * Z) (list Z);
  trace : list event
}.

Definition set_cache (c : bcache) (s : state) : state :=
  mkstate c (ticks s) (disk s) (trace s).
Definition set_disk (d : gmap (Z * Z) (list Z)) (s : state) : state :=
  mkstate (cache s) (ticks s) d (trace s).
Definition set_trace (t : list event) (s : state) : state :=
  mkstate (cache s) (ticks s) (disk s) t.

(** What [p] points at, and the cache after [*p = b]. *)
Definition deref (c : bcache) (p : ptr) : option buf :=
  match p with
  | Null => None
  | Head i => heads c !! i
  | Buf j => bufs c !! j
  end.

Definition upd (c : bcache) (p : ptr) (b : buf) : bcache :=
  match p with
  | Null => c
  | Head i => mkbcache (bufs c) (<[i:=b]> (heads c))
  | Buf j => mkbcache (<[j:=b]> (bufs c)) (heads c)
  end.

(** ** The monad *)

(** The ways a computation stops without returning: a call of [panic]; a
    thread suspended inside [acquiresleep] on the lock of [p], held by
    somebody else; an access through a null pointer or outside an array; a
    list walk that never comes back to its sentinel. *)
Inductive stop : Type :=
| Panic (msg : string)
| Sleep (p : ptr)
| Fault
| Diverge.

(** A result carries the state in which the computation returned or
    stopped. *)
Inductive result (A : Type) : Type :=
| Ok (a : A) (s : state)
| Stop (e : stop) (s : state).

Arguments Ok {A} a s.
Arguments Stop {A} e s.

Definition M (A : Type) : Type := state -> result A.

Definition ret {A} (a : A) : M A := fun s => Ok a s.

Definition bind {A B} (m : M A) (k : A -> M B) : M B := fun s =>
  match m s with
  | Ok a s' => k a s'
  | Stop e s' => Stop e s'
  end.

Definition state_of {A} (r : result A) : state :=
  match r with
  | Ok _ s => s
  | Stop _ s => s
  end.

Declare Scope bio_scope.
Delimit Scope bio_scope with bio.
Notation "'let*' x ':=' m 'in' k" := (bind m (fun x => k))
  (at level 10, x name, m at level 100, k at level 200) : bio_scope.
Notation "'let*' ' x ':=' m 'in' k" := (bind m (fun x => k))
  (at level 10, x strict pattern, m at level 100, k at level 200) : bio_scope.
Notation "m1 ;; m2" := (bind m1 (fun _ => m2))
  (at level 100, m2 at level 200, right associativity) : bio_scope.
Open Scope bio_scope.

Definition panic {A} (msg : string) : M A := fun s => Stop (Panic msg) s.
Definition fault {A} : M A := fun s => Stop Fault s.
Definition diverge {A} : M A := fun s => Stop Diverge s.

Definition emit (e : event) : M unit := fun s =>
  Ok tt (set_trace (trace s ++ [e]) s).

(** [*p] as an rvalue and [*p = b]. *)
Definition load (p : ptr) : M buf := fun s =>
  match deref (cache s) p with
  | Some b => Ok b s
  | None => Stop Fault s
  end.

Definition store (p : ptr) (b : buf) : M unit := fun s =>
  match deref (cache s) p with
  | Some _ => Ok tt (set_cache (upd (cache s) p b) s)
  | None => Stop Fault s
  end.

(** [p->field = v] for the field written by [f]. *)
Definition modify (p : ptr) (f : buf -> buf) : M unit :=
  let* b := load p in store p (f b).

Definition get_ticks : M Z := fun s => Ok (ticks s) s.

(** [param.h] and [fs.h] are not part of the file: the number of buckets,
    the number of slots and the block size are parameters. *)
Class Params : Type := mkparams {
  NBUCKET : nat;
  NBUF : nat;
  BSIZE : nat
}.

Section Bio.

Context {params : Params}.

(** An index into [bcache.bktlock] or [bcache.head]. *)
Definition index (z : Z) : M nat :=
  if decide (0 <= z < Z.of_nat NBUCKET)%Z then ret (Z.to_nat z) else fault.

(** Spin-locks: the model records the calls; [i] has been bounds-checked
    by [index] or ranges over [0, NBUCKET). *)
Definition acquire (i : nat) : M unit := emit (EvAcquire i).
Definition release (i : nat) : M unit := emit (EvRelease i).

(** Modelled from the spec: the sleep-lock of [sleeplock.c], a blocking
    exclusion primitive with one holder.  [acquiresleep] takes the lock for
    [pid] when it is free and suspends the caller otherwise;
    [holdingsleep] tells whether [pid] is the holder. *)
Definition initsleeplock (p : ptr) : M unit := modify p (set_lock None).

Definition acquiresleep (pid : Z) (p : ptr) : M unit :=
  emit (EvAcquireSleep p) ;;
  let* b := load p in
  match lock b with
  | None => store p (set_lock (Some pid) b)
  | Some _ => fun s => Stop (Sleep p) s
  end.

Definition releasesleep (p : ptr) : M unit :=
  modify p (set_lock None) ;; emit (EvReleaseSleep p).

Definition holdingsleep (pid : Z) (p : ptr) : M bool :=
  let* b := load p in ret (bool_decide (lock b = Some pid)).

(** Modelled from the spec: the transfer routine of [virtio_disk.c], which
    moves one block between [b->data] and the device block
    [(b->dev, b->blockno)]; a block never written reads as zeroes. *)
Definition virtio_disk_rw (p : ptr) (write : bool) : M unit :=
  emit (EvDiskRW p write) ;;
  let* b := load p in
  if write
  then fun s => Ok tt (set_disk (<[(dev b, blockno b) := data b]> (disk s)) s)
  else fun s => store p (set_data (default (replicate BSIZE 0%Z)
                                     (disk s !! (dev b, blockno b))) b) s.

(** ** [hash] *)

(** [int hash(int blockno) { return blockno%NBUCKET; }]: C's [%] truncates
    towards zero, which is [Z.rem]. *)
Definition hash (blockno : Z) : Z := Z.rem blockno (Z.of_nat NBUCKET).

(** ** [binit] *)

Fixpoint for_each {A} (l : list A) (body : A -> M unit) : M unit :=
  match l with
  | [] => ret tt
  | x :: l' => body x ;; for_each l' body
  end.

(** The image of [bcache] at boot: static storage, all zero. *)
Definition buf0 : buf := mkbuf 0 0 0 None 0 0 Null Null (replicate BSIZE 0%Z).

Definition boot : state :=
  mkstate (mkbcache (replicate NBUF buf0) (replicate NBUCKET buf0)) 0 ∅ [].

Definition binit : M unit :=
  for_each (seq 0 NBUCKET) (fun i =>
    modify (Head i) (set_prev (Head i)) ;;
    modify (Head i) (set_next (Head i))) ;;
  for_each (seq 0 NBUF) (fun j =>
    let b := Buf j in
    let* h := load (Head 0) in
    modify b (set_next (next h)) ;;
    modify b (set_prev (Head 0)) ;;
    initsleeplock b ;;
    let* h := load (Head 0) in
    modify (next h) (set_prev b) ;;
    modify (Head 0) (set_next b)).

(** ** [bget] *)

(** The number of nodes other than the sentinel a walk can pass without
    repeating one: a walk that is still going after that many steps never
    ends. *)
Definition fuel : nat := NBUF + NBUCKET.

(** [for(b = ...; b != hd; b = b->next) if(b->dev == dev && b->blockno ==
    blockno) ...]: the walk stops at the first match, which the caller then
    takes; [None] when the walk is back at the sentinel. *)
Fixpoint lookup (n : nat) (hd b : ptr) (dv bn : Z) : M (option ptr) :=
  if decide (b = hd) then ret None else
  match n with
  | O => diverge
  | S n' =>
      let* bb := load b in
      if decide (dev bb = dv /\ blockno bb = bn) then ret (Some b)
      else lookup n' hd (next bb) dv bn
  end.

(** [for(b = ...; b != hd; b = b->prev) if(b->refcnt == 0) if
    (b->lastuse<maxtick) { maxtick = b->lastuse; cozybuf = b; ischanged = 1; }]:
    the loop of both scans, returning its three locals (the scan of the
    home bucket has no [ischanged]; its caller drops it). *)
Fixpoint lru_scan (n : nat) (hd b : ptr) (maxtick : Z) (cozybuf : ptr) (ischanged : bool)
  : M (Z * ptr * bool) :=
  if decide (b = hd) then ret (maxtick, cozybuf, ischanged) else
  match n with
  | O => diverge
  | S n' =>
      let* bb := load b in
      if decide (refcnt bb = 0 /\ lastuse bb < maxtick)%Z
      then lru_scan n' hd (prev bb) (lastuse bb) b true
      else lru_scan n' hd (prev bb) maxtick cozybuf ischanged
  end.

(** [memset(&maxtick, 1, sizeof maxtick)]: each of the four bytes is 1. *)
Definition maxtick0 : Z := 16843009.

(** [for (int i=0; i<NBUCKET; i++)] of the eviction block, over the
    remaining values [rest] of [i], with the locals it carries. *)
Fixpoint scan_buckets (rest : list nat) (lockid : nat) (maxtick : Z) (cozybuf : ptr) (bktid : nat)
  : M (Z * ptr * nat) :=
  match rest with
  | [] => ret (maxtick, cozybuf, bktid)
  | i :: rest' =>
      if decide (i = lockid) then scan_buckets rest' lockid maxtick cozybuf bktid else
      acquire i ;;
      let* h := load (Head i) in
      let* '(maxtick', cozybuf', ischanged) := lru_scan fuel (Head i) (prev h) maxtick cozybuf false in
      let* bktid' :=
        (if ischanged
         then (if decide (bktid <> lockid) then release bktid else ret tt) ;; ret i
         else release i ;; ret bktid) in
      scan_buckets rest' lockid maxtick' cozybuf' bktid'
  end.

(** [b->dev = dev; b->blockno = blockno; b->valid = 0; b->refcnt = 1;] *)
Definition rebind (b : ptr) (dv bn : Z) : M unit :=
  modify b (set_dev dv) ;;
  modify b (set_blockno bn) ;;
  modify b (set_valid 0) ;;
  modify b (set_refcnt 1).

(** [b->refcnt++] and [b->refcnt--] on an unsigned field. *)
Definition refcnt_incr (b : ptr) : M unit :=
  modify b (fun bb => set_refcnt (to_uint (refcnt bb + 1)) bb).
Definition refcnt_decr (b : ptr) : M unit :=
  modify b (fun bb => set_refcnt (to_uint (refcnt bb - 1)) bb).

(** The block labelled [eviction:], entered with the locals [maxtick] and
    [cozybuf] of the first half and no lock held. *)
Definition eviction (pid dv bn : Z) (lockid : nat) (maxtick : Z) (cozybuf : ptr) : M ptr :=
  let* '(maxtick, cozybuf, bktid) :=
    scan_buckets (seq 0 NBUCKET) lockid maxtick cozybuf lockid in
  acquire lockid ;;
  let* h := load (Head lockid) in
  let* r := lookup fuel (Head lockid) (next h) dv bn in
  match r with
  | Some bb =>
      refcnt_incr bb ;;
      release lockid ;;
      (if decide (bktid <> lockid) then release bktid else ret tt) ;;
      acquiresleep pid bb ;;
      ret bb
  | None =>
      (if decide (cozybuf = Null)
       then release lockid ;;
            (if decide (bktid <> lockid) then release bktid else ret tt) ;;
            panic "bget: no buffers"
       else ret tt) ;;
      let* c := load cozybuf in modify (prev c) (set_next (next c)) ;;
      let* c := load cozybuf in modify (next c) (set_prev (prev c)) ;;
      let* h := load (Head lockid) in modify cozybuf (set_next (next h)) ;;
      modify cozybuf (set_prev (Head lockid)) ;;
      let* h := load (Head lockid) in modify (next h) (set_prev cozybuf) ;;
      modify (Head lockid) (set_next cozybuf) ;;
      let b := cozybuf in
      rebind b dv bn ;;
      release lockid ;;
      release bktid ;;
      acquiresleep pid b ;;
      ret b
  end.

(** [static struct buf* bget(uint dev, uint blockno)], run by process
    [pid]. *)
Definition bget (pid dv bn : Z) : M ptr :=
  let* lockid := index (hash (to_int bn)) in
  acquire lockid ;;
  let* h := load (Head lockid) in
  let* r := lookup fuel (Head lockid) (next h) dv bn in
  match r with
  | Some b =>
      refcnt_incr b ;;
      release lockid ;;
      acquiresleep pid b ;;
      ret b
  | None =>
      let cozybuf := Null in
      let maxtick := maxtick0 in
      let* h := load (Head lockid) in
      let* '(maxtick, cozybuf, _) := lru_scan fuel (Head lockid) (prev h) maxtick cozybuf false in
      if decide (cozybuf = Null)
      then release lockid ;; eviction pid dv bn lockid maxtick cozybuf
      else
        let b := cozybuf in
        rebind b dv bn ;;
        release lockid ;;
        acquiresleep pid b ;;
        ret b
  end.

(** ** [bread], [bwrite], [brelse], [bpin], [bunpin] *)

Definition bread (pid dv bn : Z) : M ptr :=
  let* b := bget pid dv bn in
  let* bb := load b in
  (if decide (valid bb = 0%Z)
   then virtio_disk_rw b false ;; modify b (set_valid 1)
   else ret tt) ;;
  ret b.

Definition bwrite (pid : Z) (b : ptr) : M unit :=
  let* h := holdingsleep pid b in
  (if negb h then panic "bwrite" else ret tt) ;;
  virtio_disk_rw b true.

Definition brelse (pid : Z) (b : ptr) : M unit :=
  let* h := holdingsleep pid b in
  (if negb h then panic "brelse" else ret tt) ;;
  releasesleep b ;;
  let* bb := load b in
  let* lockid := index (hash (to_int (blockno bb))) in
  acquire lockid ;;
  refcnt_decr b ;;
  let* bb := load b in
  (if decide (refcnt bb = 0%Z)
   then let* t := get_ticks in modify b (set_lastuse t)
   else ret tt) ;;
  release lockid.

Definition bpin (b : ptr) : M unit :=
  let* bb := load b in
  let* lockid := index (hash (to_int (blockno bb))) in
  acquire lockid ;;
  refcnt_incr b ;;
  release lockid.

Definition bunpin (b : ptr) : M unit :=
  let* bb := load b in
  let* lockid := index (hash (to_int (blockno bb))) in
  acquire lockid ;;
  refcnt_decr b ;;
  release lockid.

(** The clock interrupt has brought [ticks] to [t]. *)
Definition tick (t : Z) (s : state) : state :=
  mkstate (cache s) t (disk s) (trace s).

(** Any one call of the interface, on a block or on the slot
    [&bcache.buf[j]], and its effect. *)
Inductive call : Type :=
| Bget (pid dv bn : Z)
| Bread (pid dv bn : Z)
| Bwrite (pid : Z) (j : nat)
| Brelse (pid : Z) (j : nat)
| Bpin (j : nat)
| Bunpin (j : nat).

Definition run (k : call) : M unit :=
  match k with
  | Bget pid dv bn => bget pid dv bn ;; ret tt
  | Bread pid dv bn => bread pid dv bn ;; ret tt
  | Bwrite pid j => bwrite pid (Buf j)
  | Brelse pid j => brelse pid (Buf j)
  | Bpin j => bpin (Buf j)
  | Bunpin j => bunpin (Buf j)
  end.

(** ** Reasoning about computations *)

(** [wp m Q E s]: run from [s], [m] returns [a] in a state satisfying
    [Q a], or stops with [e] in a state satisfying [E e]. *)
Definition wp {A} (m : M A) (Q : A -> state -> Prop) (E : stop -> state -> Prop)
  (s : state) : Prop :=
  match m s with
  | Ok a s' => Q a s'
  | Stop e s' => E e s'
  end.

(** [m] makes no call on a lock or on the disk, and stops only at a bad
    access or in an endless walk. *)
Definition quiet {A} (m : M A) : Prop :=
  forall s, match m s with
            | Ok _ s' => trace s' = trace s
            | Stop e s' => trace s' = trace s /\ (e = Fault \/ e = Diverge)
            end.

(** ** Bucket locks held along a trace *)

Definition held_step (h : list nat) (e : event) : list nat :=
  match e with
  | EvAcquire i => i :: h
  | EvRelease i => filter (fun j => j <> i) h
  | _ => h
  end.

(** The bucket locks held after the calls of [t], starting with none. *)
Definition held (t : list event) : list nat := fold_left held_step t [].

(** At every instant of [t] at most two bucket locks are held, no bucket
    lock is acquired while held or released while not held, and every
    [acquiresleep] is called with none held. *)
Definition calm (t : list event) : Prop :=
  (forall t1 t2, t = t1 ++ t2 -> (length (held t1) <= 2)%nat) /\
  (forall t1 i t2, t = t1 ++ EvAcquire i :: t2 -> i ∉ held t1) /\
  (forall t1 i t2, t = t1 ++ EvRelease i :: t2 -> i ∈ held t1) /\
  (forall t1 p t2, t = t1 ++ EvAcquireSleep p :: t2 -> held t1 = []).

(** [s'] is [s] after some more calls, themselves [calm], that leave the
    bucket locks [h] held. *)
Definition since (s s' : state) (h : list nat) : Prop :=
  exists t, trace s' = trace s ++ t /\ calm t /\ held t = h.

(** A computation started in [s] has stopped in [s']: a thread that
    panics or goes to sleep holds no bucket lock. *)
Definition stopped_calm (s : state) (e : stop) (s' : state) : Prop :=
  exists h, since s s' h /\
            match e with
            | Panic _ | Sleep _ => h = []
            | Fault | Diverge => True
            end.

(** ** The lists behind the pointers *)

Definition nx (c : bcache) (p : ptr) : ptr := from_option next Null (deref c p).
Definition pv (c : bcache) (p : ptr) : ptr := from_option prev Null (deref c p).

(** Each node of [l] is followed by the next one through [next], and is
    what the next one reaches through [prev]. *)
Fixpoint links (c : bcache) (l : list ptr) : Prop :=
  match l with
  | [] => True
  | a :: l' =>
      match l' with
      | [] => True
      | b :: _ => nx c a = b /\ pv c b = a /\ links c l'
      end
  end.

(** Everything in a [struct buf] but its two links. *)
Definition payload (b : buf) : Z * Z * Z * option Z * Z * Z * list Z :=
  (valid b, dev b, blockno b, lock b, refcnt b, lastuse b, data b).

(** What a slot is bound to and holds, and where it is on its list. *)
Definition identity (b : buf) : Z * Z * Z * list Z * ptr * ptr :=
  (dev b, blockno b, valid b, data b, prev b, next b).

(** [c'] is [c] with its links redirected: [next] is now [fn] and [prev] is
    [fp]; nothing else differs. *)
Definition follows (c c' : bcache) (fn fp : ptr -> ptr) : Prop :=
  (forall q, payload <$> deref c' q = payload <$> deref c q) /\
  (forall q, nx c' q = fn q) /\
  (forall q, pv c' q = fp q).

(** Bucket [i] is the circular list of the slots [l], in [next] order from
    its sentinel. *)
Definition dll (c : bcache) (i : nat) (l : list nat) : Prop :=
  links c (Head i :: (Buf <$> l) ++ [Head i]).

(** The cache is the buckets [ls]: every slot is on exactly one of the
    [NBUCKET] lists, the one its block number hashes to. *)
Record inv (c : bcache) (ls : list (list nat)) : Prop := mkinv {
  inv_bufs : length (bufs c) = NBUF;
  inv_heads : length (heads c) = NBUCKET;
  inv_len : length ls = NBUCKET;
  inv_dll : forall i l, ls !! i = Some l -> dll c i l;
  inv_perm : concat ls ≡ₚ seq 0 NBUF;
  inv_hash : forall i l j b, ls !! i = Some l -> j ∈ l -> bufs c !! j = Some b ->
             hash (to_int (blockno b)) = Z.of_nat i
}.

(** A decision procedure for [inv], for concrete caches. *)
Fixpoint links_check (c : bcache) (l : list ptr) : bool :=
  match l with
  | [] => true
  | a :: l' =>
      match l' with
      | [] => true
      | b :: _ => bool_decide (nx c a = b) && bool_decide (pv c b = a) && links_check c l'
      end
  end.

Definition hash_check (c : bcache) (i j : nat) : bool :=
  match bufs c !! j with
  | Some b => bool_decide (hash (to_int (blockno b)) = Z.of_nat i)
  | None => false
  end.

Fixpoint buckets_check (c : bcache) (i : nat) (ls : list (list nat)) : bool :=
  match ls with
  | [] => true
  | l :: ls' =>
      links_check c (Head i :: (Buf <$> l) ++ [Head i])
      && forallb (hash_check c i) l
      && buckets_check c (S i) ls'
  end.

Definition inv_check (c : bcache) (ls : list (list nat)) : bool :=
  bool_decide (length (bufs c) = NBUF)
  && bool_decide (length (heads c) = NBUCKET)
  && bool_decide (length ls = NBUCKET)
  && buckets_check c 0 ls
  && bool_decide (concat ls ≡ₚ seq 0 NBUF).

(** Slot [j] taken off list [donor] and put at the front of list [home]. *)
Definition move (j donor home : nat) (ls : list (list nat)) : list (list nat) :=
  alter (fun l => j :: l) home (alter (filter (fun x => x <> j)) donor ls).

(** ** What the walks compute *)

(** The first slot of [l] bound to block [(dv, bn)]. *)
Fixpoint first_match (c : bcache) (dv bn : Z) (l : list nat) : option nat :=
  match l with
  | [] => None
  | j :: l' =>
      match bufs c !! j with
      | Some b => if decide (dev b = dv /\ blockno b = bn) then Some j
                  else first_match c dv bn l'
      | None => first_match c dv bn l'
      end
  end.

(** The locals of the scan after it has passed the slots [l], in that
    order. *)
Fixpoint lru_fold (c : bcache) (l : list nat) (maxtick : Z) (cozybuf : ptr) (ischanged : bool)
  : Z * ptr * bool :=
  match l with
  | [] => (maxtick, cozybuf, ischanged)
  | j :: l' =>
      match bufs c !! j with
      | Some b => if decide (refcnt b = 0 /\ lastuse b < maxtick)%Z
                  then lru_fold c l' (lastuse b) (Buf j) true
                  else lru_fold c l' maxtick cozybuf ischanged
      | None => lru_fold c l' maxtick cozybuf ischanged
      end
  end.

(** Slot [j] is unreferenced. *)
Definition free (c : bcache) (j : nat) : Prop :=
  exists b, bufs c !! j = Some b /\ refcnt b = 0%Z.

(** The locals of the eviction scan once it has passed the buckets
    [scanned], started with bound [mt0] and no candidate: [mt] is below the
    tick of every unreferenced slot seen, and the candidate, if any, is an
    unreferenced slot of bucket [bktid] with that tick. *)
Definition candidate (c : bcache) (ls : list (list nat)) (lockid : nat) (mt0 : Z)
  (scanned : list nat) (mt : Z) (cz : ptr) (bktid : nat) : Prop :=
  (forall i l j b, i ∈ scanned -> i <> lockid -> ls !! i = Some l -> j ∈ l ->
                   bufs c !! j = Some b -> refcnt b = 0%Z -> (mt <= lastuse b)%Z) /\
  ((cz = Null /\ bktid = lockid /\ mt = mt0) \/
   (exists j l b, cz = Buf j /\ bktid <> lockid /\ ls !! bktid = Some l /\ j ∈ l /\
                  bufs c !! j = Some b /\ refcnt b = 0%Z /\ lastuse b = mt /\ (mt < mt0)%Z)).

(** [c1] is [c] after slot [j] has been taken off its list, put first on
    the list of bucket [h] and bound to block [(dv, bn)]. *)
Definition evicted (c : bcache) (h j : nat) (dv bn : Z) (c1 : bcache) : Prop :=
  (forall q, q <> Buf j -> payload <$> deref c1 q = payload <$> deref c q) /\
  (exists b0 b1, bufs c !! j = Some b0 /\ bufs c1 !! j = Some b1 /\
                 payload b1 = (0%Z, dv, bn, lock b0, 1%Z, lastuse b0, data b0)) /\
  (forall q, nx c1 q =
             if decide (q = Head h) then Buf j
             else if decide (q = Buf j) then nx c (Head h)
             else if decide (q = pv c (Buf j)) then nx c (Buf j)
             else nx c q) /\
  (forall q, pv c1 q =
             if decide (q = nx c (Head h)) then Buf j
             else if decide (q = Buf j) then Head h
             else if decide (q = nx c (Buf j)) then pv c (Buf j)
             else pv c q).

(** Slot [j] of bucket [d] is the one [bget] recycles for a block of
    bucket [h] that has nothing to recycle at home: the oldest unreferenced
    slot of the cache, with a tick below the bound; [c1] is the cache after
    it has been moved and bound. *)
Definition reclaim (c : bcache) (ls : list (list nat)) (h : nat) (dv bn : Z)
  (j d : nat) (c1 : bcache) : Prop :=
  d <> h /\
  (exists ld, ls !! d = Some ld /\ j ∈ ld) /\
  (exists b0, bufs c !! j = Some b0 /\ refcnt b0 = 0%Z /\ (lastuse b0 < maxtick0)%Z /\
              forall i l x b, ls !! i = Some l -> x ∈ l -> bufs c !! x = Some b ->
                              refcnt b = 0%Z -> (lastuse b0 <= lastuse b)%Z) /\
  evicted c h j dv bn c1 /\
  inv c1 (move j d h ls).

(** No slot of the cache can be recycled: each is referenced, or has a
    tick that is not below the bound of the scans. *)
Definition exhausted (c : bcache) (ls : list (list nat)) : Prop :=
  forall i l x b, ls !! i = Some l -> x ∈ l -> bufs c !! x = Some b ->
                  refcnt b = 0%Z -> (maxtick0 <= lastuse b)%Z.

(** What [bget] does for a block of bucket [h] that is not cached, when
    bucket [h] has nothing to recycle. *)
Definition after_eviction (s : state) (ls : list (list nat)) (h : nat) (pid dv bn : Z)
  (r : result ptr) : Prop :=
  ticks (state_of r) = ticks s /\ disk (state_of r) = disk s /\
  (exists t, trace (state_of r) = trace s ++ t) /\
  match r with
  | Ok p s' =>
      exists j d c1 b1, p = Buf j /\ reclaim (cache s) ls h dv bn j d c1 /\
                        bufs c1 !! j = Some b1 /\ lock b1 = None /\
                        cache s' = upd c1 (Buf j) (set_lock (Some pid) b1)
  | Stop (Sleep p) s' =>
      exists j d c1 b1, p = Buf j /\ reclaim (cache s) ls h dv bn j d c1 /\
                        bufs c1 !! j = Some b1 /\ lock b1 <> None /\
                        cache s' = c1
  | Stop (Panic msg) s' =>
      msg = "bget: no buffers"%string /\ cache s' = cache s /\ exhausted (cache s) ls
  | Stop _ _ => False
  end.

(** The end of a path of [bget] that has chosen slot [j] and left it as
    [b1], having made the lock calls [t]: the caller gets the slot with its
    sleep-lock, or waits for the sleep-lock. *)
Definition hand_over (pid : Z) (j : nat) (b1 : buf) (t : list event) (s : state)
  : result ptr :=
  match lock b1 with
  | None => Ok (Buf j) (mkstate (upd (cache s) (Buf j) (set_lock (Some pid) b1))
                          (ticks s) (disk s) (trace s ++ t))
  | Some _ => Stop (Sleep (Buf j)) (mkstate (upd (cache s) (Buf j) b1)
                                      (ticks s) (disk s) (trace s ++ t))
  end.

(** The four ways [bget] ends on a cache that is the buckets [ls]. *)
Inductive admission (s : state) (ls : list (list nat)) (pid dv bn : Z)
  : result ptr -> Prop :=
| adm_range :
    ~ (0 <= hash (to_int bn) < Z.of_nat NBUCKET)%Z ->
    admission s ls pid dv bn (Stop Fault s)
| adm_hit h l j b :
    hash (to_int bn) = Z.of_nat h -> ls !! h = Some l ->
    first_match (cache s) dv bn l = Some j ->
    bufs (cache s) !! j = Some b ->
    admission s ls pid dv bn
      (hand_over pid j (set_refcnt (to_uint (refcnt b + 1)) b)
         [EvAcquire h; EvRelease h; EvAcquireSleep (Buf j)] s)
| adm_local h l j b mt ch :
    hash (to_int bn) = Z.of_nat h -> ls !! h = Some l ->
    first_match (cache s) dv bn l = None ->
    lru_fold (cache s) (rev l) maxtick0 Null false = (mt, Buf j, ch) ->
    j ∈ l -> bufs (cache s) !! j = Some b ->
    refcnt b = 0%Z -> (lastuse b < maxtick0)%Z ->
    (forall x bx, x ∈ l -> bufs (cache s) !! x = Some bx -> refcnt bx = 0%Z ->
                  (lastuse b <= lastuse bx)%Z) ->
    admission s ls pid dv bn
      (hand_over pid j (set_refcnt 1 (set_valid 0 (set_blockno bn (set_dev dv b))))
         [EvAcquire h; EvRelease h; EvAcquireSleep (Buf j)] s)
| adm_evict h l r :
    hash (to_int bn) = Z.of_nat h -> ls !! h = Some l ->
    first_match (cache s) dv bn l = None ->
    (forall x bx, x ∈ l -> bufs (cache s) !! x = Some bx -> refcnt bx = 0%Z ->
                  (maxtick0 <= lastuse bx)%Z) ->
    after_eviction s ls h pid dv bn r ->
    admission s ls pid dv bn r.

(** The states the kernel goes through: [binit] runs at boot, then calls
    of the interface and clock interrupts follow one another. *)
Inductive reachable : state -> Prop :=
| reach_boot s : binit boot = Ok tt s -> reachable s
| reach_tick s t : reachable s -> reachable (tick t s)
| reach_call s k : reachable s -> reachable (state_of (run k s)).

(** Slot [j] is on exactly one of the lists [ls]. *)
Definition on_one_list (ls : list (list nat)) (j : nat) : Prop :=
  exists i l, ls !! i = Some l /\ j ∈ l /\ NoDup l /\
              forall i' l', ls !! i' = Some l' -> j ∈ l' -> i' = i.

(** The call [k] made in state [s], where the buckets are [ls], is a [bget]
    (alone or within [bread]) for a block that is not cached; it has taken
    slot [j] off the list of another bucket [d] and put it first on the list
    of the block's bucket, bound to the block with one reference; the
    buckets are now [ls']. *)
Definition relocated (s : state) (ls : list (list nat)) (k : call)
  (ls' : list (list nat)) : Prop :=
  exists pid dv bn h lh d ld j b',
    (k = Bget pid dv bn \/ k = Bread pid dv bn) /\
    hash (to_int bn) = Z.of_nat h /\ ls !! h = Some lh /\
    first_match (cache s) dv bn lh = None /\
    d <> h /\ ls !! d = Some ld /\ j ∈ ld /\
    ls' = move j d h ls /\
    bufs (cache (state_of (run k s))) !! j = Some b' /\
    dev b' = dv /\ blockno b' = bn /\ refcnt b' = 1%Z /\
    (k = Bget pid dv bn -> valid b' = 0%Z).

(** Block [(dv, bn)] can only be cached in a slot taken from another
    bucket: no slot of its bucket is bound to it, no slot of its bucket can
    be recycled, and some slot of the cache can. *)
Definition borrows (c : bcache) (ls : list (list nat)) (dv bn : Z) : Prop :=
  exists h lh,
    hash (to_int bn) = Z.of_nat h /\ ls !! h = Some lh /\
    first_match c dv bn lh = None /\
    (forall x bx, x ∈ lh -> bufs c !! x = Some bx -> refcnt bx = 0%Z ->
                  (maxtick0 <= lastuse bx)%Z) /\
    ~ exhausted c ls.

(** The call [k] made in state [s], where the buckets are [ls], is a [bget]
    (alone or within [bread]) for such a block. *)
Definition crosses (s : state) (ls : list (list nat)) (k : call) : Prop :=
  match k with
  | Bget _ dv bn | Bread _ dv bn => borrows (cache s) ls dv bn
  | _ => False
  end.

(** The block a slot is bound to. *)
Definition key (b : buf) : Z * Z := (dev b, blockno b).

(** A slot that is not in use and has not been since boot: no reference,
    no holder, no bytes of a block. *)
Definition unused (b : buf) : Prop :=
  refcnt b = 0%Z /\ lock b = None /\ valid b = 0%Z.

(** Every slot that is or has been in use is the one the walk of its list
    finds for its block. *)
Definition settled (c : bcache) (ls : list (list nat)) : Prop :=
  forall i l x b, ls !! i = Some l -> x ∈ l -> bufs c !! x = Some b ->
                  first_match c (dev b) (blockno b) l = Some x \/ unused b.

(** A decision procedure for [settled], for concrete caches. *)
Definition settled_check (c : bcache) (ls : list (list nat)) : bool :=
  forallb (fun l =>
    forallb (fun x =>
      match bufs c !! x with
      | Some b =>
          bool_decide (first_match c (dev b) (blockno b) l = Some x)
          || bool_decide (refcnt b = 0%Z /\ lock b = None /\ valid b = 0%Z)
      | None => true
      end) l) ls.

(** The bytes of block [(dv, bn)] on the disk, as [virtio_disk_rw] reads
    them. *)
Definition stored (s : state) (dv bn : Z) : list Z :=
  default (replicate BSIZE 0%Z) (disk s !! (dv, bn)).

(** Every valid slot holds the bytes of its block on the disk. *)
Definition coherent (s : state) : Prop :=
  forall y b, bufs (cache s) !! y = Some b -> valid b <> 0%Z ->
              data b = stored s (dev b) (blockno b).

End Bio.

(** ** The accesses of [brelse], in program order *)

(** What a function does to the cache says nothing of when it does it.
    [brelse] is therefore also written over an abstract machine: run on the
    monad [M] it is the [brelse] above; run on [L] it also lists, in program
    order, its reads and updates of every [struct buf], its reads of [ticks]
    and its calls on locks. *)
Inductive access : Type :=
| Rd (p : ptr)
| Wr (p : ptr) (b : buf)
| Tk
| Ev (e : event).

Class Machine (m : Type -> Type) : Type := mkmachine {
  mret : forall A : Type, A -> m A;
  mbind : forall A B : Type, m A -> (A -> m B) -> m B;
  mload : ptr -> m buf;
  mmodify : ptr -> (buf -> buf) -> m unit;
  memit : event -> m unit;
  mticks : m Z;
  mpanic : forall A : Type, string -> m A;
  mfault : forall A : Type, m A
}.

Arguments mret {m _ A} a.
Arguments mbind {m _ A B} c k.
Arguments mpanic {m _ A} msg.
Arguments mfault {m _ A}.

#[global] Instance bare : Machine M :=
  mkmachine M (@ret) (@bind) load modify emit get_ticks (@panic) (@fault).

(** A computation that returns its accesses beside its result. *)
Definition L (A : Type) : Type := state -> list access * result A.

Definition lbind {A B} (c : L A) (k : A -> L B) : L B := fun s =>
  match c s with
  | (l, Ok a s') => (l ++ fst (k a s'), snd (k a s'))
  | (l, Stop e s') => (l, Stop e s')
  end.

(** [Wr p b]: the update has left [*p] as [b]. *)
Definition lmodify (p : ptr) (f : buf -> buf) : L unit := fun s =>
  (match deref (cache s) p with Some b => [Wr p (f b)] | None => [] end, modify p f s).

#[global] Instance logging : Machine L :=
  mkmachine L
    (fun A a s => ([], ret a s))
    (@lbind)
    (fun p s => ([Rd p], load p s))
    lmodify
    (fun e s => ([Ev e], emit e s))
    (fun s => ([Tk], get_ticks s))
    (fun A msg s => ([], panic msg s))
    (fun A s => ([], fault s)).

Module Generic.
Section Generic.

Context {params : Params} {m : Type -> Type} {machine : Machine m}.

#[local] Notation "'let*' x ':=' c 'in' k" := (mbind c (fun x => k))
  (at level 10, x name, c at level 100, k at level 200).
#[local] Notation "c1 ;; c2" := (mbind c1 (fun _ => c2))
  (at level 100, c2 at level 200, right associativity).

Definition index (z : Z) : m nat :=
  if decide (0 <= z < Z.of_nat NBUCKET)%Z then mret (Z.to_nat z) else mfault.

Definition acquire (i : nat) : m unit := memit (EvAcquire i).
Definition release (i : nat) : m unit := memit (EvRelease i).

Definition releasesleep (p : ptr) : m unit :=
  mmodify p (set_lock None) ;; memit (EvReleaseSleep p).

Definition holdingsleep (pid : Z) (p : ptr) : m bool :=
  let* b := mload p in mret (bool_decide (lock b = Some pid)).

Definition refcnt_decr (b : ptr) : m unit :=
  mmodify b (fun bb => set_refcnt (to_uint (refcnt bb - 1)) bb).

Definition brelse (pid : Z) (b : ptr) : m unit :=
  let* h := holdingsleep pid b in
  (if negb h then mpanic "brelse" else mret tt) ;;
  releasesleep b ;;
  let* bb := mload b in
  let* lockid := index (hash (to_int (blockno bb))) in
  acquire lockid ;;
  refcnt_decr b ;;
  let* bb := mload b in
  (if decide (refcnt bb = 0%Z)
   then let* t := mticks in mmodify b (set_lastuse t)
   else mret tt) ;;
  release lockid.

End Generic.
End Generic.

(** ** Scenarios *)

(** A small machine: 3 buckets, 4 slots, blocks of 2 bytes. *)
Definition small : Params := mkparams 3 4 2.

(** A caller that reads a block and releases it at once. *)
Definition touch {P : Params} (pid dv bn : Z) : M unit :=
  let* b := bread pid dv bn in brelse pid b.

(** After [binit]. *)
Definition started : state := state_of (@binit small (@boot small)).

(** Process 7 has read block 5 of device 0 and holds it; it is in slot 0,
    moved to bucket 2. *)
Definition held5 : state := state_of (@bread small 7 0 5 started).

(** ... and has released it at tick 5. *)
Definition cached5 : state := state_of (@brelse small 7 (Buf 0) (tick 5 held5)).

(** Process 7 has read block 5, pinned it, and released it at tick 5; the
    clock is now at 9 and the pin is the only reference left. *)
Definition pinned5 : state :=
  tick 9 (state_of ((@bpin small (Buf 0) ;; @brelse small 7 (Buf 0)) (tick 5 held5))).

(** The machine has been up for 16843009 ticks (some 19 days at ten ticks a
    second) when blocks 1 to 4 are read and released: every slot is free,
    released at that tick. *)
Definition late : state :=
  state_of ((@touch small 7 0 1 ;; @touch small 7 0 2 ;;
             @touch small 7 0 3 ;; @touch small 7 0 4) (tick 16843009 started)).

(** * Proofs *)

(** ** The rules of [wp] *)

Section Rules.

Context {A B : Type}.
Implicit Types (Q : A -> state -> Prop) (E : stop -> state -> Prop) (s : state).

Lemma wp_ret (a : A) Q E s : Q a s -> wp (ret a) Q E s.
Proof. done. Qed.

Lemma wp_bind (m : M A) (k : A -> M B) (Q : B -> state -> Prop) E s :
  wp m (fun a s' => wp (k a) Q E s') E s -> wp (bind m k) Q E s.
Proof. unfold wp, bind. by destruct (m s). Qed.

Lemma wp_mono (m : M A) Q Q' E E' s :
  wp m Q E s ->
  (forall a s', Q a s' -> Q' a s') ->
  (forall e s', E e s' -> E' e s') ->
  wp m Q' E' s.
Proof. unfold wp. destruct (m s); eauto. Qed.

Lemma wp_eq (m : M A) (r : result A) Q E s :
  m s = r -> match r with Ok a s' => Q a s' | Stop e s' => E e s' end -> wp m Q E s.
Proof. unfold wp. by intros ->. Qed.

Lemma wp_panic msg Q E s : E (Panic msg) s -> wp (panic (A:=A) msg) Q E s.
Proof. done. Qed.

Lemma wp_fault Q E s : E Fault s -> wp (fault (A:=A)) Q E s.
Proof. done. Qed.

Lemma wp_diverge Q E s : E Diverge s -> wp (diverge (A:=A)) Q E s.
Proof. done. Qed.

End Rules.

Lemma wp_emit e (Q : unit -> state -> Prop) E s :
  Q tt (set_trace (trace s ++ [e]) s) -> wp (emit e) Q E s.
Proof. done. Qed.

Lemma wp_load p (Q : buf -> state -> Prop) E s :
  (forall b, deref (cache s) p = Some b -> Q b s) ->
  (deref (cache s) p = None -> E Fault s) ->
  wp (load p) Q E s.
Proof. unfold wp, load. destruct (deref (cache s) p); eauto. Qed.

Lemma wp_store p b (Q : unit -> state -> Prop) E s :
  (is_Some (deref (cache s) p) -> Q tt (set_cache (upd (cache s) p b) s)) ->
  (deref (cache s) p = None -> E Fault s) ->
  wp (store p b) Q E s.
Proof. unfold wp, store. destruct (deref (cache s) p); eauto. Qed.

Lemma wp_modify p f (Q : unit -> state -> Prop) E s :
  (forall b, deref (cache s) p = Some b -> Q tt (set_cache (upd (cache s) p (f b)) s)) ->
  (deref (cache s) p = None -> E Fault s) ->
  wp (modify p f) Q E s.
Proof.
  intros HQ HE. apply wp_bind, wp_load; [|done].
  intros b Hb. apply wp_store; [|congruence]. auto.
Qed.

Lemma wp_get_ticks (Q : Z -> state -> Prop) E s : Q (ticks s) s -> wp get_ticks Q E s.
Proof. done. Qed.

(** ** Computations that leave the trace alone *)

Lemma quiet_ret {A} (a : A) : quiet (ret a).
Proof. by intros s. Qed.

Lemma quiet_bind {A B} (m : M A) (k : A -> M B) :
  quiet m -> (forall a, quiet (k a)) -> quiet (bind m k).
Proof.
  intros Hm Hk s. unfold bind. specialize (Hm s).
  destruct (m s) as [a s1|e s1]; [|done].
  specialize (Hk a s1). destruct (k a s1); [congruence|].
  destruct Hk as [-> ?]. done.
Qed.

Lemma quiet_load p : quiet (load p).
Proof. intros s. unfold load. destruct (deref (cache s) p); auto. Qed.

Lemma quiet_store p b : quiet (store p b).
Proof. intros s. unfold store. destruct (deref (cache s) p); auto. Qed.

Lemma quiet_modify p f : quiet (modify p f).
Proof. apply quiet_bind; [apply quiet_load|]. intros. apply quiet_store. Qed.

Lemma quiet_fault {A} : quiet (fault (A:=A)).
Proof. intros s. simpl. auto. Qed.

Lemma quiet_diverge {A} : quiet (diverge (A:=A)).
Proof. intros s. simpl. auto. Qed.

Lemma quiet_get_ticks : quiet get_ticks.
Proof. by intros s. Qed.

Create HintDb quiet.

#[local] Hint Resolve quiet_ret quiet_load quiet_store quiet_modify
  quiet_fault quiet_diverge quiet_get_ticks : quiet.

Lemma wp_quiet {A} (m : M A) (Q : A -> state -> Prop) E s :
  quiet m ->
  (forall a s', trace s' = trace s -> Q a s') ->
  (forall e s', trace s' = trace s -> e = Fault \/ e = Diverge -> E e s') ->
  wp m Q E s.
Proof.
  intros Hm HQ HE. unfold wp. specialize (Hm s).
  destruct (m s); [auto|]. destruct Hm. auto.
Qed.

Section Proofs.

Context {params : Params}.

Lemma quiet_index z : quiet (index z).
Proof. unfold index. case_decide; auto with quiet. Qed.

Lemma quiet_lookup n hd b dv bn : quiet (lookup n hd b dv bn).
Proof.
  revert b. induction n as [|n IH]; intros b; simpl; case_decide; auto with quiet.
  apply quiet_bind; [auto with quiet|]. intros bb. case_decide; auto with quiet.
Qed.

Lemma quiet_lru_scan n hd b mt cz ch : quiet (lru_scan n hd b mt cz ch).
Proof.
  revert b mt cz ch. induction n as [|n IH]; intros b mt cz ch; simpl;
    case_decide; auto with quiet.
  apply quiet_bind; [auto with quiet|]. intros bb. case_decide; auto.
Qed.

Lemma quiet_rebind b dv bn : quiet (rebind b dv bn).
Proof. unfold rebind. repeat (apply quiet_bind; [auto with quiet|intros _]). auto with quiet. Qed.

Lemma quiet_refcnt_incr b : quiet (refcnt_incr b).
Proof. apply quiet_modify. Qed.

Lemma quiet_refcnt_decr b : quiet (refcnt_decr b).
Proof. apply quiet_modify. Qed.

Lemma quiet_holdingsleep pid p : quiet (holdingsleep pid p).
Proof. apply quiet_bind; auto with quiet. Qed.

#[local] Hint Resolve quiet_index quiet_lookup quiet_lru_scan quiet_rebind
  quiet_refcnt_incr quiet_refcnt_decr quiet_holdingsleep : quiet.

(** ** Lock discipline *)

Lemma held_snoc t e : held (t ++ [e]) = held_step (held t) e.
Proof. unfold held. by rewrite fold_left_app. Qed.

Lemma snoc_split {X} (t : list X) e t1 t2 :
  t ++ [e] = t1 ++ t2 ->
  (t2 = [] /\ t1 = t ++ [e]) \/ (exists t2', t2 = t2' ++ [e] /\ t = t1 ++ t2').
Proof.
  destruct t2 as [|x t2 _] using rev_ind.
  - rewrite app_nil_r. auto.
  - rewrite app_assoc. intros [-> ->]%app_inj_tail. right. by exists t2.
Qed.

Lemma snoc_split_at {X} (t : list X) e t1 x t2 :
  t ++ [e] = t1 ++ x :: t2 ->
  (t2 = [] /\ t1 = t /\ x = e) \/ (exists t2', t2 = t2' ++ [e] /\ t = t1 ++ x :: t2').
Proof.
  intros [[Hnil _]|(t' & Ht' & ->)]%snoc_split; [done|].
  destruct t' as [|y t' _] using rev_ind.
  - simpl in Ht'. injection Ht' as -> ->. left. by rewrite app_nil_r.
  - right. destruct t2 as [|z t2 _] using rev_ind.
    + apply (f_equal length) in Ht'. rewrite !length_app in Ht'. simpl in Ht'. lia.
    + rewrite app_comm_cons in Ht'. apply app_inj_tail in Ht' as [Ht' ->].
      exists t2. split; [done|]. by rewrite Ht'.
Qed.

Lemma calm_nil : calm [].
Proof.
  repeat split.
  - intros t1 t2 Ht. symmetry in Ht. apply app_eq_nil in Ht as [-> _]. simpl. lia.
  - intros t1 i t2 Ht. by destruct t1.
  - intros t1 i t2 Ht. by destruct t1.
  - intros t1 p t2 Ht. by destruct t1.
Qed.

Lemma calm_snoc t e :
  calm t ->
  length (held_step (held t) e) <= 2 ->
  (forall i, e = EvAcquire i -> i ∉ held t) ->
  (forall i, e = EvRelease i -> i ∈ held t) ->
  (forall p, e = EvAcquireSleep p -> held t = []) ->
  calm (t ++ [e]).
Proof.
  intros (H1 & H2 & H3 & H4) Hlen Hacq Hrel Hsl. repeat split.
  - intros t1 t2 [[_ ->]|(t2' & _ & Ht)]%snoc_split.
    + by rewrite held_snoc.
    + eauto.
  - intros t1 i t2 [(_ & -> & <-)|(t2' & _ & Ht)]%snoc_split_at; eauto.
  - intros t1 i t2 [(_ & -> & <-)|(t2' & _ & Ht)]%snoc_split_at; eauto.
  - intros t1 p t2 [(_ & -> & <-)|(t2' & _ & Ht)]%snoc_split_at; eauto.
Qed.

Lemma since_refl s : since s s [].
Proof. exists []. rewrite app_nil_r. split; [done|]. split; [apply calm_nil|done]. Qed.

Lemma since_trace s0 s s' h : trace s' = trace s -> since s0 s h -> since s0 s' h.
Proof. intros Ht (t & ? & ? & ?). exists t. by rewrite Ht. Qed.

Lemma since_emit s0 s h e :
  since s0 s h ->
  length (held_step h e) <= 2 ->
  (forall i, e = EvAcquire i -> i ∉ h) ->
  (forall i, e = EvRelease i -> i ∈ h) ->
  (forall p, e = EvAcquireSleep p -> h = []) ->
  since s0 (set_trace (trace s ++ [e]) s) (held_step h e).
Proof.
  intros (t & Ht & Hc & <-) ? ? ? ?. exists (t ++ [e]). simpl.
  rewrite Ht, <- app_assoc. split; [done|].
  split; [by apply calm_snoc|apply held_snoc].
Qed.

(** One step of a computation whose calls so far are [calm]. *)
Lemma step_quiet {A} (m : M A) s0 h (Q : A -> state -> Prop) E s :
  quiet m ->
  since s0 s h ->
  (forall a s', since s0 s' h -> Q a s') ->
  (forall e s', since s0 s' h -> e = Fault \/ e = Diverge -> E e s') ->
  wp m Q E s.
Proof.
  intros Hm Hs HQ HE. apply wp_quiet; [done| |];
    intros; [apply HQ|apply HE]; eauto using since_trace.
Qed.

Lemma step_acquire i s0 h (Q : unit -> state -> Prop) E s :
  since s0 s h -> i ∉ h -> length h < 2 ->
  (forall s', since s0 s' (i :: h) -> Q tt s') ->
  wp (acquire i) Q E s.
Proof.
  intros Hs Hi Hlen HQ. apply wp_emit, HQ.
  apply (since_emit s0 s h (EvAcquire i)); simpl; try done; try lia.
  by intros ? [= <-].
Qed.

Lemma step_release i s0 h (Q : unit -> state -> Prop) E s :
  since s0 s h -> i ∈ h -> length h <= 2 ->
  (forall s', since s0 s' (filter (fun j => j <> i) h) -> Q tt s') ->
  wp (release i) Q E s.
Proof.
  intros Hs Hi Hlen HQ. apply wp_emit, HQ.
  apply (since_emit s0 s h (EvRelease i)); simpl; try done.
  - etrans; [apply length_filter|done].
  - by intros ? [= <-].
Qed.

Lemma step_acquiresleep pid p s0 (Q : unit -> state -> Prop) E s :
  since s0 s [] ->
  (forall s', since s0 s' [] -> Q tt s') ->
  (forall e s', since s0 s' [] -> e = Fault \/ e = Sleep p -> E e s') ->
  wp (acquiresleep pid p) Q E s.
Proof.
  intros Hs HQ HE. unfold acquiresleep. apply wp_bind, wp_emit.
  assert (since s0 (set_trace (trace s ++ [EvAcquireSleep p]) s) []) as Hs'.
  { apply (since_emit s0 s [] (EvAcquireSleep p)); simpl; try done. lia. }
  revert Hs'. generalize (set_trace (trace s ++ [EvAcquireSleep p]) s). clear Hs s.
  intros s Hs. apply wp_bind, wp_load; [|auto].
  intros b Hb. destruct (lock b).
  - apply HE; auto.
  - apply wp_store; intros; [apply HQ|apply HE]; auto.
Qed.

Lemma wp_conj {A} (m : M A) (Q1 Q2 : A -> state -> Prop) E1 E2 s :
  wp m Q1 E1 s -> wp m Q2 E2 s ->
  wp m (fun a s' => Q1 a s' /\ Q2 a s') (fun e s' => E1 e s' /\ E2 e s') s.
Proof. unfold wp. by destruct (m s). Qed.

(** The flag of the scan tells whether the candidate changed, and a
    candidate the scan sets is a node it has read. *)
Lemma lru_scan_flag n hd b mt cz ch s :
  wp (lru_scan n hd b mt cz ch)
     (fun r _ => let '(mt', cz', ch') := r in
                 (ch = true -> ch' = true) /\
                 (ch' = false -> cz' = cz /\ mt' = mt) /\
                 (ch' = true -> (ch = true /\ cz' = cz) \/ cz' <> Null))
     (fun _ _ => True) s.
Proof.
  revert b mt cz ch. induction n as [|n IH]; intros b mt cz ch; simpl.
  - case_decide; [|done]. apply wp_ret. destruct ch; naive_solver.
  - case_decide as Hb.
    { apply wp_ret. destruct ch; naive_solver. }
    apply wp_bind, wp_load; [|done]. intros bb Hbb. case_decide.
    + eapply wp_mono; [apply IH| |done]. intros [[mt' cz'] ch'] _ (H1 & H2 & H3).
      assert (b <> Null) by (intros ->; done).
      specialize (H1 eq_refl). subst ch'. naive_solver.
    + apply IH.
Qed.

(** The bucket locks held between two rounds of the eviction scan: the
    one of the bucket of the candidate, if there is a candidate. *)
Lemma scan_buckets_calm rest lockid mt cz bktid s0 s :
  NoDup rest ->
  (bktid = lockid \/ bktid ∉ rest) ->
  (bktid = lockid <-> cz = Null) ->
  since s0 s (if decide (bktid = lockid) then [] else [bktid]) ->
  wp (scan_buckets rest lockid mt cz bktid)
     (fun r s' => let '(_, cz', bktid') := r in
                  since s0 s' (if decide (bktid' = lockid) then [] else [bktid']) /\
                  (bktid' = lockid <-> cz' = Null))
     (fun e s' => (exists h, since s0 s' h) /\ (e = Fault \/ e = Diverge)) s.
Proof.
  revert mt cz bktid s. induction rest as [|i rest IH]; intros mt cz bktid s Hnd Hbk Hcz Hs; simpl.
  { by apply wp_ret. }
  apply NoDup_cons in Hnd as [Hi Hnd].
  assert (i <> lockid -> i <> bktid) as Hne.
  { intros ? ->. destruct Hbk as [?|Hbk]; [done|]. apply Hbk. left. }
  assert (bktid = lockid \/ bktid ∉ rest) as Hbk'.
  { destruct Hbk as [?|Hbk]; [by left|right]. intros ?. apply Hbk. by right. }
  destruct (decide (i = lockid)) as [Hil|Hil]; [by apply IH|].
  specialize (Hne Hil).
  apply wp_bind. eapply step_acquire; [exact Hs| | |].
  { case_decide; set_solver. }
  { case_decide; simpl; lia. }
  clear s Hs. intros s Hs.
  apply wp_bind. eapply step_quiet; [auto with quiet|exact Hs| |by eauto].
  clear s Hs. intros h s Hs.
  apply wp_bind.
  eapply wp_mono;
    [apply wp_conj; [apply (quiet_lru_scan fuel (Head i) (prev h) mt cz false s)
                    |apply (lru_scan_flag fuel (Head i) (prev h) mt cz false s)]| |].
  2:{ intros e s' [[Ht He] _]. split; [|done]. eexists. by eapply since_trace. }
  intros [[mt' cz'] ch'] s' [Ht (_ & Hf & Hc)].
  apply (since_trace s0 s s') in Hs; [|done]. clear s Ht. rename s' into s.
  apply wp_bind. destruct ch'.
  - (* the candidate is in bucket [i] now *)
    destruct (Hc eq_refl) as [[? _]|Hcz']; [done|].
    apply wp_bind. destruct (decide (bktid = lockid)) as [Hbl|Hbl].
    + rewrite decide_False by naive_solver.
      apply wp_ret, wp_ret.
      apply IH; [done|by right|naive_solver|].
      by rewrite decide_False by done.
    + rewrite decide_True by done.
      eapply step_release; [exact Hs|set_solver|simpl; lia|].
      intros s' Hs'. apply wp_ret.
      apply IH; [done|by right|naive_solver|].
      rewrite decide_False by done.
      revert Hs'. rewrite filter_cons_True by done.
      rewrite filter_cons_False by naive_solver. by rewrite filter_nil.
  - (* no better candidate in bucket [i] *)
    destruct (Hf eq_refl) as [-> ->].
    apply wp_bind. eapply step_release; [exact Hs|set_solver|case_decide; simpl; lia|].
    intros s' Hs'. apply wp_ret.
    apply IH; [done|done|done|].
    revert Hs'. rewrite filter_cons_False by naive_solver.
    destruct (decide (bktid = lockid)); [by rewrite filter_nil|].
    rewrite filter_cons_True by naive_solver. by rewrite filter_nil.
Qed.

Lemma stopped_calm_bad s0 s h e :
  since s0 s h -> e = Fault \/ e = Diverge -> stopped_calm s0 e s.
Proof. intros Hs [->| ->]; by exists h. Qed.

Ltac quiet_step :=
  apply wp_bind; eapply step_quiet;
  [auto with quiet
  |eassumption
  |match goal with H : since _ ?x _ |- _ => clear H; try clear x end;
   let s' := fresh "s" in let Hs' := fresh "Hs" in intros ? s' Hs'
  |intros; eapply stopped_calm_bad; eassumption].

Lemma eviction_calm pid dv bn lockid mt s0 s :
  since s0 s [] ->
  wp (eviction pid dv bn lockid mt Null) (fun _ s' => since s0 s' []) (stopped_calm s0) s.
Proof.
  intros Hs. unfold eviction. apply wp_bind.
  eapply wp_mono; [apply (scan_buckets_calm _ lockid mt Null lockid s0 s)| |].
  { apply NoDup_seq. }
  { by left. }
  { done. }
  { by rewrite decide_True. }
  2:{ intros e s' [[h Hh] He]. by eapply stopped_calm_bad. }
  clear s Hs. intros [[mt' cz] bktid] s [Hs Hcz].
  apply wp_bind. eapply step_acquire; [exact Hs|case_decide; set_solver|case_decide; simpl; lia|].
  clear s Hs. intros s Hs.
  quiet_step. rename a into h. quiet_step. rename a into r.
  assert (filter (fun j => j <> lockid)
            (lockid :: (if decide (bktid = lockid) then [] else [bktid]))
          = (if decide (bktid = lockid) then [] else [bktid])) as Hfl.
  { rewrite filter_cons_False by naive_solver. case_decide; [done|].
    by rewrite filter_cons_True by done. }
  assert (forall (Q : unit -> state -> Prop) s,
            since s0 s (if decide (bktid = lockid) then [] else [bktid]) ->
            (forall s', since s0 s' [] -> Q tt s') ->
            wp (if decide (bktid <> lockid) then release bktid else ret tt)
               Q (stopped_calm s0) s) as Hrel.
  { intros Q s1 Hs1 HQ. destruct (decide (bktid = lockid)) as [Hb|Hb].
    - rewrite decide_False by naive_solver. by apply wp_ret, HQ.
    - rewrite decide_True by done.
      eapply step_release; [exact Hs1|set_solver|simpl; lia|].
      intros s' Hs'. apply HQ. revert Hs'. by rewrite filter_cons_False by naive_solver. }
  destruct r as [bb|].
  - (* somebody else has bound the block meanwhile *)
    quiet_step.
    apply wp_bind. eapply step_release; [exact Hs|set_solver|case_decide; simpl; lia|].
    rewrite Hfl. clear s Hs. intros s Hs.
    apply wp_bind, Hrel; [done|]. clear s Hs. intros s Hs.
    apply wp_bind. eapply step_acquiresleep; [exact Hs| |].
    + intros s' Hs'. by apply wp_ret.
    + intros e s' Hs' [->| ->]; by exists [].
  - apply wp_bind. destruct (decide (cz = Null)) as [Hnull|Hnull].
    + (* every slot is in use *)
      apply wp_bind. eapply step_release; [exact Hs|set_solver|case_decide; simpl; lia|].
      rewrite Hfl. clear s Hs. intros s Hs.
      apply wp_bind, Hrel; [done|]. clear s Hs. intros s Hs.
      apply wp_panic. by exists [].
    + apply wp_ret.
      assert (bktid <> lockid) as Hb by naive_solver.
      rewrite decide_False in Hs, Hfl by done.
      do 11 quiet_step.
      apply wp_bind. eapply step_release; [exact Hs|set_solver|simpl; lia|].
      rewrite Hfl. clear s Hs. intros s Hs.
      apply wp_bind. eapply step_release; [exact Hs|set_solver|simpl; lia|].
      rewrite filter_cons_False by naive_solver. rewrite filter_nil.
      clear s Hs. intros s Hs.
      apply wp_bind. eapply step_acquiresleep; [exact Hs| |].
      * intros s' Hs'. by apply wp_ret.
      * intros e s' Hs' [->| ->]; by exists [].
Qed.

Lemma bget_calm pid dv bn s0 s :
  since s0 s [] ->
  wp (bget pid dv bn) (fun _ s' => since s0 s' []) (stopped_calm s0) s.
Proof.
  intros Hs. unfold bget. quiet_step. rename a into lockid.
  apply wp_bind. eapply step_acquire; [exact Hs|set_solver|simpl; lia|].
  clear s Hs. intros s Hs.
  quiet_step. rename a into h. quiet_step. rename a into r.
  destruct r as [b|].
  - (* the block is cached *)
    quiet_step.
    apply wp_bind. eapply step_release; [exact Hs|set_solver|simpl; lia|].
    rewrite filter_cons_False by naive_solver. rewrite filter_nil.
    clear s Hs. intros s Hs.
    apply wp_bind. eapply step_acquiresleep; [exact Hs| |].
    + intros s' Hs'. by apply wp_ret.
    + intros e s' Hs' [->| ->]; by exists [].
  - quiet_step. rename a into h'. quiet_step. destruct a as [[mt cz] ch].
    destruct (decide (cz = Null)) as [->|Hcz].
    + (* nothing to recycle in the home bucket *)
      apply wp_bind. eapply step_release; [exact Hs|set_solver|simpl; lia|].
      rewrite filter_cons_False by naive_solver. rewrite filter_nil.
      clear s Hs. intros s Hs. by apply eviction_calm.
    + quiet_step.
      apply wp_bind. eapply step_release; [exact Hs|set_solver|simpl; lia|].
      rewrite filter_cons_False by naive_solver. rewrite filter_nil.
      clear s Hs. intros s Hs.
      apply wp_bind. eapply step_acquiresleep; [exact Hs| |].
      * intros s' Hs'. by apply wp_ret.
      * intros e s' Hs' [->| ->]; by exists [].
Qed.

(** ** Reading and writing the cache *)

Lemma deref_upd c p b q :
  is_Some (deref c p) ->
  deref (upd c p b) q = if decide (q = p) then Some b else deref c q.
Proof.
  intros Hp. destruct p as [|i|j]; simpl in Hp.
  - by destruct Hp.
  - apply lookup_lt_is_Some in Hp.
    destruct q as [|i'|j']; case_decide as Hq; simplify_eq; simpl; try done.
    + by apply list_lookup_insert_eq.
    + apply list_lookup_insert_ne. congruence.
  - apply lookup_lt_is_Some in Hp.
    destruct q as [|i'|j']; case_decide as Hq; simplify_eq; simpl; try done.
    + by apply list_lookup_insert_eq.
    + apply list_lookup_insert_ne. congruence.
Qed.

Lemma deref_upd_eq c p b : is_Some (deref c p) -> deref (upd c p b) p = Some b.
Proof. intros Hp. rewrite deref_upd by done. by rewrite decide_True. Qed.

Lemma deref_upd_ne c p b q : q <> p -> deref (upd c p b) q = deref c q.
Proof.
  intros Hne. destruct p as [|i|j], q as [|i'|j']; simpl; try done.
  - apply list_lookup_insert_ne. congruence.
  - apply list_lookup_insert_ne. congruence.
Qed.

Lemma deref_upd_is_Some c p b q : is_Some (deref c q) -> is_Some (deref (upd c p b) q).
Proof.
  intros Hq. destruct (decide (q = p)) as [->|Hne].
  - rewrite deref_upd_eq; eauto.
  - by rewrite deref_upd_ne.
Qed.

Lemma upd_upd c p b b' : upd (upd c p b) p b' = upd c p b'.
Proof. destruct p; simpl; [done| |]; by rewrite list_insert_insert_eq. Qed.

Lemma upd_id c p b : deref c p = Some b -> upd c p b = c.
Proof.
  destruct c as [bs hs], p; simpl; intros Hp; [done| |]; by rewrite list_insert_id.
Qed.

Lemma length_bufs_upd c p b : length (bufs (upd c p b)) = length (bufs c).
Proof. destruct p; simpl; by rewrite ?length_insert. Qed.

Lemma length_heads_upd c p b : length (heads (upd c p b)) = length (heads c).
Proof. destruct p; simpl; by rewrite ?length_insert. Qed.

Lemma bufs_upd_ne c p b j : p <> Buf j -> bufs (upd c p b) !! j = bufs c !! j.
Proof. intros Hne. by apply (deref_upd_ne c p b (Buf j)). Qed.

Lemma nx_upd c p b q :
  is_Some (deref c p) -> nx (upd c p b) q = if decide (q = p) then next b else nx c q.
Proof. intros Hp. unfold nx. rewrite deref_upd by done. by case_decide. Qed.

Lemma pv_upd c p b q :
  is_Some (deref c p) -> pv (upd c p b) q = if decide (q = p) then prev b else pv c q.
Proof. intros Hp. unfold pv. rewrite deref_upd by done. by case_decide. Qed.

(** An assignment to a field other than [next] and [prev] moves no
    pointer. *)
Lemma nx_upd_same c p b b' q :
  deref c p = Some b -> next b' = next b -> nx (upd c p b') q = nx c q.
Proof.
  intros Hp Hn. rewrite nx_upd by done. case_decide as Hq; [|done].
  subst q. unfold nx. by rewrite Hp.
Qed.

Lemma pv_upd_same c p b b' q :
  deref c p = Some b -> prev b' = prev b -> pv (upd c p b') q = pv c q.
Proof.
  intros Hp Hn. rewrite pv_upd by done. case_decide as Hq; [|done].
  subst q. unfold pv. by rewrite Hp.
Qed.

Lemma wp_load_at p b (Q : buf -> state -> Prop) E s :
  deref (cache s) p = Some b -> Q b s -> wp (load p) Q E s.
Proof. intros Hp HQ. unfold wp, load. by rewrite Hp. Qed.

Lemma wp_modify_at p b f (Q : unit -> state -> Prop) E s :
  deref (cache s) p = Some b ->
  Q tt (set_cache (upd (cache s) p (f b)) s) ->
  wp (modify p f) Q E s.
Proof.
  intros Hp HQ. unfold wp, modify, bind, load. rewrite Hp. unfold store. by rewrite Hp.
Qed.

Lemma load_at p b s : deref (cache s) p = Some b -> load p s = Ok b s.
Proof. intros Hp. unfold load. by rewrite Hp. Qed.

Lemma modify_at p b f s :
  deref (cache s) p = Some b ->
  modify p f s = Ok tt (set_cache (upd (cache s) p (f b)) s).
Proof. intros Hp. unfold modify, bind, load. rewrite Hp. unfold store. by rewrite Hp. Qed.

(** Projections of states and records, computed without unfolding the
    array accesses. *)
Ltac norm :=
  cbn [cache ticks disk trace set_cache set_trace set_disk
       valid dev blockno lock refcnt lastuse prev next data
       set_valid set_dev set_blockno set_lock set_refcnt set_lastuse
       set_prev set_next set_data].

Tactic Notation "norm" "in" hyp(H) :=
  cbn [cache ticks disk trace set_cache set_trace set_disk
       valid dev blockno lock refcnt lastuse prev next data
       set_valid set_dev set_blockno set_lock set_refcnt set_lastuse
       set_prev set_next set_data] in H.

Ltac deref_solve :=
  cbn [cache set_cache set_trace set_disk];
  first [eassumption
        |apply deref_upd_eq; repeat apply deref_upd_is_Some; by eauto].

Lemma bind_ok {A B} (m : M A) (k : A -> M B) a s s' :
  m s = Ok a s' -> bind m k s = k a s'.
Proof. unfold bind. by intros ->. Qed.

Lemma bind_stop {A B} (m : M A) (k : A -> M B) e s s' :
  m s = Stop e s' -> bind m k s = Stop e s'.
Proof. unfold bind. by intros ->. Qed.

(** ** Chains of links *)

Lemma links_cons c a b l :
  links c (a :: b :: l) <-> nx c a = b /\ pv c b = a /\ links c (b :: l).
Proof. done. Qed.

Lemma links_app c l1 x l2 :
  links c (l1 ++ x :: l2) <-> links c (l1 ++ [x]) /\ links c (x :: l2).
Proof.
  induction l1 as [|a l1 IH]; simpl.
  - tauto.
  - destruct l1 as [|b l1]; simpl in *.
    + destruct l2; tauto.
    + tauto.
Qed.

Lemma links_frame c c' l :
  (forall p, p ∈ removelast l -> nx c' p = nx c p) ->
  (forall p, p ∈ tail l -> pv c' p = pv c p) ->
  links c l -> links c' l.
Proof.
  induction l as [|a l IH]; [done|].
  destruct l as [|b l]; [done|].
  intros Hn Hp (H1 & H2 & H3). split; [|split].
  - rewrite Hn; [done|]. simpl. left.
  - rewrite Hp; [done|]. simpl. left.
  - apply IH; [| |done].
    + intros p Hin. apply Hn. simpl. right. exact Hin.
    + intros p Hin. apply Hp. simpl. right. destruct l; [by apply elem_of_nil in Hin|exact Hin].
Qed.

(** ** The walks, on a well-formed list *)

Lemma lookup_unfold n hd b dv bn :
  lookup n hd b dv bn =
  if decide (b = hd) then ret None else
  match n with
  | O => diverge
  | S n' =>
      let* bb := load b in
      if decide (dev bb = dv /\ blockno bb = bn) then ret (Some b)
      else lookup n' hd (next bb) dv bn
  end.
Proof. by destruct n. Qed.

Lemma lru_scan_unfold n hd b mt cz ch :
  lru_scan n hd b mt cz ch =
  if decide (b = hd) then ret (mt, cz, ch) else
  match n with
  | O => diverge
  | S n' =>
      let* bb := load b in
      if decide (refcnt bb = 0 /\ lastuse bb < mt)%Z
      then lru_scan n' hd (prev bb) (lastuse bb) b true
      else lru_scan n' hd (prev bb) mt cz ch
  end.
Proof. by destruct n. Qed.

Lemma lookup_walk l a n i dv bn s :
  links (cache s) (a :: (Buf <$> l) ++ [Head i]) ->
  (forall j, j ∈ l -> is_Some (bufs (cache s) !! j)) ->
  length l <= n ->
  lookup n (Head i) (nx (cache s) a) dv bn s
  = Ok (Buf <$> first_match (cache s) dv bn l) s.
Proof.
  revert a n. induction l as [|j l IH]; intros a n Hl Hv Hn; rewrite lookup_unfold.
  - destruct Hl as (-> & _). by rewrite decide_True.
  - simpl in Hn. destruct n as [|n]; [lia|].
    simpl in Hl. destruct Hl as (Ha & _ & Hl). rewrite Ha.
    rewrite decide_False by done.
    destruct (Hv j) as [bb Hbb]; [left|].
    rewrite (bind_ok _ _ bb s s) by (by apply load_at).
    simpl first_match. rewrite Hbb. case_decide; [done|].
    replace (next bb) with (nx (cache s) (Buf j)) by (unfold nx; simpl; by rewrite Hbb).
    apply IH; [done| |lia]. intros j' Hj'. apply Hv. by right.
Qed.

Lemma lru_scan_walk l z n i mt cz ch s :
  links (cache s) (Head i :: (Buf <$> l) ++ [z]) ->
  (forall j, j ∈ l -> is_Some (bufs (cache s) !! j)) ->
  length l <= n ->
  lru_scan n (Head i) (pv (cache s) z) mt cz ch s
  = Ok (lru_fold (cache s) (rev l) mt cz ch) s.
Proof.
  revert z n mt cz ch. induction l as [|j l IH] using rev_ind;
    intros z n mt cz ch Hl Hv Hn; rewrite lru_scan_unfold.
  - destruct Hl as (_ & -> & _). by rewrite decide_True.
  - rewrite length_app in Hn. simpl in Hn. destruct n as [|n]; [lia|].
    replace (Head i :: (Buf <$> l ++ [j]) ++ [z])
      with ((Head i :: (Buf <$> l)) ++ Buf j :: [z]) in Hl
      by (by rewrite fmap_app, <- app_assoc).
    apply links_app in Hl as [Hl (_ & Hz & _)].
    rewrite Hz. rewrite decide_False by done.
    destruct (Hv j) as [bb Hbb]; [apply elem_of_app; right; left|].
    rewrite (bind_ok _ _ bb s s) by (by apply load_at).
    rewrite rev_app_distr. simpl lru_fold. rewrite Hbb.
    replace (prev bb) with (pv (cache s) (Buf j)) by (unfold pv; simpl; by rewrite Hbb).
    assert (forall j', j' ∈ l -> is_Some (bufs (cache s) !! j')) as Hv'.
    { intros j' Hj'. apply Hv, elem_of_app. by left. }
    case_decide; apply IH; auto; lia.
Qed.

(** ** Consequences of the invariant *)

Lemma lookup_length_concat (ls : list (list nat)) i l :
  ls !! i = Some l -> length l <= length (concat ls).
Proof.
  revert i. induction ls as [|l' ls IH]; intros i Hi; [done|].
  simpl. rewrite length_app. destruct i as [|i]; simpl in Hi.
  - injection Hi as ->. lia.
  - apply IH in Hi. lia.
Qed.

Lemma elem_of_concat_lookup (ls : list (list nat)) i l j :
  ls !! i = Some l -> j ∈ l -> j ∈ concat ls.
Proof.
  revert i. induction ls as [|l' ls IH]; intros i Hi Hj; [done|].
  simpl. apply elem_of_app. destruct i as [|i]; simpl in Hi.
  - injection Hi as ->. by left.
  - right. by eapply IH.
Qed.

Section Inv.

Context (c : bcache) (ls : list (list nat)) (Hinv : inv c ls).

Lemma inv_slot i l j : ls !! i = Some l -> j ∈ l -> j < NBUF.
Proof.
  intros Hi Hj. pose proof (elem_of_concat_lookup _ _ _ _ Hi Hj) as Hc.
  rewrite (inv_perm _ _ Hinv) in Hc. apply elem_of_seq in Hc. lia.
Qed.

Lemma inv_valid i l j : ls !! i = Some l -> j ∈ l -> is_Some (bufs c !! j).
Proof.
  intros Hi Hj. apply lookup_lt_is_Some. rewrite (inv_bufs _ _ Hinv).
  by eapply inv_slot.
Qed.

Lemma inv_length i l : ls !! i = Some l -> length l <= fuel.
Proof.
  intros Hi. apply lookup_length_concat in Hi.
  rewrite (inv_perm _ _ Hinv), length_seq in Hi. unfold fuel. lia.
Qed.

Lemma inv_bucket i : i < NBUCKET -> is_Some (ls !! i).
Proof. intros Hi. apply lookup_lt_is_Some. by rewrite (inv_len _ _ Hinv). Qed.

Lemma inv_head i : i < NBUCKET -> is_Some (heads c !! i).
Proof. intros Hi. apply lookup_lt_is_Some. by rewrite (inv_heads _ _ Hinv). Qed.

Lemma inv_nodup : NoDup (concat ls).
Proof. rewrite (inv_perm _ _ Hinv). apply NoDup_seq. Qed.

(** A slot is on one list only. *)
Lemma inv_one_list i i' l l' j :
  ls !! i = Some l -> ls !! i' = Some l' -> j ∈ l -> j ∈ l' -> i = i'.
Proof.
  intros Hi Hi' Hj Hj'.
  destruct (inv_valid i l j Hi Hj) as [b Hb].
  pose proof (inv_hash _ _ Hinv i l j b Hi Hj Hb) as H1.
  pose proof (inv_hash _ _ Hinv i' l' j b Hi' Hj' Hb) as H2. lia.
Qed.

Lemma inv_nodup_list i l : ls !! i = Some l -> NoDup l.
Proof.
  intros Hi. pose proof inv_nodup as Hnd.
  apply take_drop_middle in Hi. rewrite <- Hi in Hnd.
  rewrite concat_app in Hnd. simpl in Hnd.
  apply NoDup_app in Hnd as (_ & _ & Hnd). by apply NoDup_app in Hnd as (Hnd & _).
Qed.

End Inv.

(** ** Assignments that keep the lists *)

Lemma inv_upd c ls p b b' :
  inv c ls ->
  deref c p = Some b ->
  next b' = next b ->
  prev b' = prev b ->
  (forall j i l, p = Buf j -> ls !! i = Some l -> j ∈ l ->
                 hash (to_int (blockno b')) = Z.of_nat i) ->
  inv (upd c p b') ls.
Proof.
  intros Hinv Hp Hn Hpv Hh. split.
  - rewrite length_bufs_upd. apply Hinv.
  - rewrite length_heads_upd. apply Hinv.
  - apply Hinv.
  - intros i l Hi. eapply links_frame; [| |by apply (inv_dll _ _ Hinv)].
    + intros q _. by eapply nx_upd_same.
    + intros q _. by eapply pv_upd_same.
  - apply Hinv.
  - intros i l j b0 Hi Hj Hb0. destruct (decide (p = Buf j)) as [->|Hne].
    + change (deref (upd c (Buf j) b') (Buf j) = Some b0) in Hb0.
      rewrite deref_upd_eq in Hb0 by eauto. injection Hb0 as <-. by eapply Hh.
    + rewrite bufs_upd_ne in Hb0 by done. by eapply (inv_hash _ _ Hinv).
Qed.

(** The common case: the block number stays. *)
Lemma inv_upd_same c ls p b b' :
  inv c ls ->
  deref c p = Some b ->
  next b' = next b -> prev b' = prev b -> blockno b' = blockno b ->
  inv (upd c p b') ls.
Proof.
  intros Hinv Hp Hn Hpv Hb. eapply inv_upd; try done.
  intros j i l -> Hi Hj. rewrite Hb. by eapply (inv_hash _ _ Hinv).
Qed.

(** ** [brelse], [bpin], [bunpin], [bwrite]: what they compute *)

Lemma index_ok i s : i < NBUCKET -> index (Z.of_nat i) s = Ok i s.
Proof. intros Hi. unfold index. rewrite decide_True by lia. by rewrite Nat2Z.id. Qed.

Lemma index_bad z s : ~ (0 <= z < Z.of_nat NBUCKET)%Z -> index z s = Stop Fault s.
Proof. intros Hz. unfold index. by rewrite decide_False. Qed.

(** The slot [brelse] leaves behind. *)
Lemma brelse_ok pid p bb i s :
  deref (cache s) p = Some bb ->
  lock bb = Some pid ->
  hash (to_int (blockno bb)) = Z.of_nat i ->
  i < NBUCKET ->
  brelse pid p s =
  Ok tt (mkstate
           (upd (cache s) p
              (let b1 := set_refcnt (to_uint (refcnt bb - 1)) (set_lock None bb) in
               if decide (refcnt b1 = 0%Z) then set_lastuse (ticks s) b1 else b1))
           (ticks s) (disk s)
           (trace s ++ [EvReleaseSleep p; EvAcquire i; EvRelease i])).
Proof.
  intros Hp Hl Hh Hi. unfold brelse, holdingsleep.
  rewrite (bind_ok _ _ true s s).
  2:{ rewrite (bind_ok _ _ bb s s) by (by apply load_at).
      unfold ret. by rewrite bool_decide_true. }
  simpl negb. cbv iota.
  rewrite (bind_ok _ _ tt s s) by done.
  unfold releasesleep.
  erewrite bind_ok; last first.
  { erewrite bind_ok; [|by apply modify_at]. reflexivity. }
  erewrite bind_ok; last first.
  { apply load_at. simpl. apply deref_upd_eq. eauto. }
  simpl blockno. rewrite Hh.
  erewrite bind_ok; [|by apply index_ok].
  erewrite bind_ok; [|reflexivity].
  erewrite bind_ok; last first.
  { apply modify_at. simpl. apply deref_upd_eq. eauto. }
  simpl cache. rewrite upd_upd.
  erewrite bind_ok; last first.
  { apply load_at. simpl. apply deref_upd_eq. eauto. }
  simpl. case_decide as Hz.
  - erewrite bind_ok; last first.
    { erewrite bind_ok; [|reflexivity]. apply modify_at. simpl. apply deref_upd_eq. eauto. }
    simpl. rewrite upd_upd. unfold release, emit, set_trace. simpl.
    by rewrite <- !app_assoc.
  - erewrite bind_ok; [|reflexivity].
    unfold release, emit, set_trace. simpl. by rewrite <- !app_assoc.
Qed.

Lemma brelse_panic pid p bb s :
  deref (cache s) p = Some bb ->
  lock bb <> Some pid ->
  brelse pid p s = Stop (Panic "brelse") s.
Proof.
  intros Hp Hl. unfold brelse, holdingsleep.
  rewrite (bind_ok _ _ false s s).
  2:{ rewrite (bind_ok _ _ bb s s) by (by apply load_at).
      unfold ret. by rewrite bool_decide_false. }
  simpl negb. cbv iota. by rewrite (bind_stop _ _ (Panic "brelse") s s).
Qed.

Lemma bwrite_panic pid p bb s :
  deref (cache s) p = Some bb ->
  lock bb <> Some pid ->
  bwrite pid p s = Stop (Panic "bwrite") s.
Proof.
  intros Hp Hl. unfold bwrite, holdingsleep.
  rewrite (bind_ok _ _ false s s).
  2:{ rewrite (bind_ok _ _ bb s s) by (by apply load_at).
      unfold ret. by rewrite bool_decide_false. }
  simpl negb. cbv iota. by rewrite (bind_stop _ _ (Panic "bwrite") s s).
Qed.

Lemma bwrite_ok pid p bb s :
  deref (cache s) p = Some bb ->
  lock bb = Some pid ->
  bwrite pid p s =
  Ok tt (mkstate (cache s) (ticks s)
           (<[(dev bb, blockno bb) := data bb]> (disk s))
           (trace s ++ [EvDiskRW p true])).
Proof.
  intros Hp Hl. unfold bwrite, holdingsleep.
  rewrite (bind_ok _ _ true s s).
  2:{ rewrite (bind_ok _ _ bb s s) by (by apply load_at).
      unfold ret. by rewrite bool_decide_true. }
  simpl negb. cbv iota.
  rewrite (bind_ok _ _ tt s s) by done.
  unfold virtio_disk_rw.
  erewrite bind_ok; [|reflexivity].
  erewrite bind_ok; [|by apply load_at]. done.
Qed.

Lemma bpin_ok p bb i s :
  deref (cache s) p = Some bb ->
  hash (to_int (blockno bb)) = Z.of_nat i ->
  i < NBUCKET ->
  bpin p s =
  Ok tt (mkstate (upd (cache s) p (set_refcnt (to_uint (refcnt bb + 1)) bb))
           (ticks s) (disk s) (trace s ++ [EvAcquire i; EvRelease i])).
Proof.
  intros Hp Hh Hi. unfold bpin.
  erewrite bind_ok; [|by apply load_at]. rewrite Hh.
  erewrite bind_ok; [|by apply index_ok].
  erewrite bind_ok; [|reflexivity].
  erewrite bind_ok; [|by apply modify_at].
  unfold release, emit, set_trace. simpl. by rewrite <- !app_assoc.
Qed.

Lemma bunpin_ok p bb i s :
  deref (cache s) p = Some bb ->
  hash (to_int (blockno bb)) = Z.of_nat i ->
  i < NBUCKET ->
  bunpin p s =
  Ok tt (mkstate (upd (cache s) p (set_refcnt (to_uint (refcnt bb - 1)) bb))
           (ticks s) (disk s) (trace s ++ [EvAcquire i; EvRelease i])).
Proof.
  intros Hp Hh Hi. unfold bunpin.
  erewrite bind_ok; [|by apply load_at]. rewrite Hh.
  erewrite bind_ok; [|by apply index_ok].
  erewrite bind_ok; [|reflexivity].
  erewrite bind_ok; [|by apply modify_at].
  unfold release, emit, set_trace. simpl. by rewrite <- !app_assoc.
Qed.

(** Every slot is on some list, whose lock is the one its block number
    hashes to. *)
Lemma inv_owner c ls j :
  inv c ls -> j < NBUF -> exists i l, ls !! i = Some l /\ j ∈ l /\ i < NBUCKET.
Proof.
  intros Hinv Hj.
  assert (j ∈ concat ls) as Hc.
  { rewrite (inv_perm _ _ Hinv). apply elem_of_seq. lia. }
  assert (forall (xs : list (list nat)), j ∈ concat xs ->
            exists i l, xs !! i = Some l /\ j ∈ l) as Hex.
  { induction xs as [|l xs IH]; simpl; [by intros ?%elem_of_nil|].
    intros [Hl|Hr]%elem_of_app.
    - by exists 0, l.
    - destruct (IH Hr) as (i & l' & ? & ?). by exists (S i), l'. }
  destruct (Hex ls Hc) as (i & l & Hi & Hl). exists i, l. split; [done|]. split; [done|].
  apply lookup_lt_Some in Hi. by rewrite (inv_len _ _ Hinv) in Hi.
Qed.

Lemma inv_owner_hash c ls j b :
  inv c ls -> bufs c !! j = Some b ->
  exists i l, ls !! i = Some l /\ j ∈ l /\ i < NBUCKET /\
              hash (to_int (blockno b)) = Z.of_nat i.
Proof.
  intros Hinv Hb.
  destruct (inv_owner c ls j Hinv) as (i & l & Hi & Hl & Hlt).
  { apply lookup_lt_Some in Hb. by rewrite (inv_bufs _ _ Hinv) in Hb. }
  exists i, l. repeat split; try done. by eapply (inv_hash _ _ Hinv).
Qed.

(** ** [bget]: the block is cached, or a slot of the home bucket is free *)

Lemma first_match_Some c dv bn l j :
  first_match c dv bn l = Some j ->
  j ∈ l /\ exists b, bufs c !! j = Some b /\ dev b = dv /\ blockno b = bn.
Proof.
  induction l as [|x l IH]; simpl; [done|].
  destruct (bufs c !! x) as [b|] eqn:Hb.
  - case_decide as Hm.
    + intros [= ->]. split; [left|]. by exists b.
    + intros [? ?]%IH. split; [by right|done].
  - intros [? ?]%IH. split; [by right|done].
Qed.

Lemma first_match_None c dv bn l j b :
  first_match c dv bn l = None -> j ∈ l -> bufs c !! j = Some b ->
  ~ (dev b = dv /\ blockno b = bn).
Proof.
  induction l as [|x l IH]; simpl; [by intros _ ?%elem_of_nil|].
  intros Hf [->|Hj]%elem_of_cons Hb.
  - rewrite Hb in Hf. by case_decide.
  - destruct (bufs c !! x); [case_decide; [done|]|]; by apply IH.
Qed.

Lemma rebind_at p b dv bn s :
  deref (cache s) p = Some b ->
  rebind p dv bn s =
  Ok tt (set_cache (upd (cache s) p
                      (set_refcnt 1 (set_valid 0 (set_blockno bn (set_dev dv b))))) s).
Proof.
  intros Hp. unfold rebind.
  assert (is_Some (deref (cache s) p)) as Hs by eauto.
  erewrite bind_ok; [|by apply modify_at].
  erewrite bind_ok; [|apply modify_at; deref_solve].
  erewrite bind_ok; [|apply modify_at; deref_solve].
  erewrite modify_at; [|deref_solve].
  simpl. by rewrite !upd_upd.
Qed.

(** The end of every returning path: drop the home lock, then take the
    sleep-lock of the slot, or wait for it. *)
Lemma unlock_and_sleep pid p b i s :
  deref (cache s) p = Some b ->
  (release i ;; acquiresleep pid p ;; ret p) s =
  match lock b with
  | None => Ok p (mkstate (upd (cache s) p (set_lock (Some pid) b)) (ticks s) (disk s)
                    (trace s ++ [EvRelease i; EvAcquireSleep p]))
  | Some _ => Stop (Sleep p) (mkstate (cache s) (ticks s) (disk s)
                                (trace s ++ [EvRelease i; EvAcquireSleep p]))
  end.
Proof.
  intros Hp. erewrite bind_ok; [|reflexivity]. unfold acquiresleep.
  destruct (lock b) eqn:Hl.
  - erewrite bind_stop; [done|].
    erewrite bind_ok; [|reflexivity].
    erewrite bind_ok; [|by apply load_at].
    rewrite Hl. simpl. by rewrite <- !app_assoc.
  - erewrite bind_ok; last first.
    { erewrite bind_ok; [|reflexivity].
      erewrite bind_ok; [|by apply load_at].
      rewrite Hl. unfold store. simpl. rewrite Hp. reflexivity. }
    simpl. unfold ret, set_cache. simpl. by rewrite <- !app_assoc.
Qed.

Section Home.

Context (s : state) (ls : list (list nat)) (Hinv : inv (cache s) ls).
Context (pid dv bn : Z) (i : nat) (l : list nat).
Context (Hhash : hash (to_int bn) = Z.of_nat i) (Hi : ls !! i = Some l).

Lemma home_lt : i < NBUCKET.
Proof. apply lookup_lt_Some in Hi. by rewrite (inv_len _ _ Hinv) in Hi. Qed.

(** The first walk finds the first slot of the home list bound to the
    block. *)
Lemma bget_lookup t :
  exists h, deref (cache s) (Head i) = Some h /\
  lookup fuel (Head i) (next h) dv bn (set_trace t s)
  = Ok (Buf <$> first_match (cache s) dv bn l) (set_trace t s).
Proof.
  destruct (inv_head _ _ Hinv i home_lt) as [h Hh]. exists h. split; [done|].
  replace (next h) with (nx (cache (set_trace t s)) (Head i))
    by (unfold nx; simpl; by rewrite Hh).
  apply (lookup_walk l (Head i) fuel i dv bn (set_trace t s)).
  - by apply (inv_dll _ _ Hinv).
  - intros j Hj. by eapply inv_valid.
  - by eapply inv_length.
Qed.

(** The scan of the home bucket goes through its list from the back. *)
Lemma bget_lru_scan t mt cz ch :
  exists h, deref (cache s) (Head i) = Some h /\
  lru_scan fuel (Head i) (prev h) mt cz ch (set_trace t s)
  = Ok (lru_fold (cache s) (rev l) mt cz ch) (set_trace t s).
Proof.
  destruct (inv_head _ _ Hinv i home_lt) as [h Hh]. exists h. split; [done|].
  replace (prev h) with (pv (cache (set_trace t s)) (Head i))
    by (unfold pv; simpl; by rewrite Hh).
  apply (lru_scan_walk l (Head i) fuel i mt cz ch (set_trace t s)).
  - by apply (inv_dll _ _ Hinv).
  - intros j Hj. by eapply inv_valid.
  - by eapply inv_length.
Qed.

Lemma bget_hit j bb :
  first_match (cache s) dv bn l = Some j ->
  bufs (cache s) !! j = Some bb ->
  bget pid dv bn s =
  let b1 := set_refcnt (to_uint (refcnt bb + 1)) bb in
  let t := trace s ++ [EvAcquire i; EvRelease i; EvAcquireSleep (Buf j)] in
  match lock bb with
  | None => Ok (Buf j) (mkstate (upd (cache s) (Buf j) (set_lock (Some pid) b1))
                          (ticks s) (disk s) t)
  | Some _ => Stop (Sleep (Buf j)) (mkstate (upd (cache s) (Buf j) b1)
                                      (ticks s) (disk s) t)
  end.
Proof.
  intros Hm Hbb. unfold bget. rewrite Hhash.
  erewrite bind_ok; [|apply index_ok, home_lt].
  erewrite bind_ok; [|reflexivity].
  destruct (bget_lookup (trace s ++ [EvAcquire i])) as (h & Hh & Hlk).
  erewrite bind_ok; [|by apply load_at].
  erewrite bind_ok; [|exact Hlk]. rewrite Hm.
  change (Buf <$> Some j) with (Some (Buf j)). cbv iota.
  erewrite bind_ok; [|by apply modify_at].
  erewrite unlock_and_sleep; [|deref_solve].
  norm. rewrite upd_upd, <- !app_assoc. by destruct (lock bb).
Qed.

Lemma bget_local j bb mt ch :
  first_match (cache s) dv bn l = None ->
  lru_fold (cache s) (rev l) maxtick0 Null false = (mt, Buf j, ch) ->
  bufs (cache s) !! j = Some bb ->
  bget pid dv bn s =
  let b1 := set_refcnt 1 (set_valid 0 (set_blockno bn (set_dev dv bb))) in
  let t := trace s ++ [EvAcquire i; EvRelease i; EvAcquireSleep (Buf j)] in
  match lock bb with
  | None => Ok (Buf j) (mkstate (upd (cache s) (Buf j) (set_lock (Some pid) b1))
                          (ticks s) (disk s) t)
  | Some _ => Stop (Sleep (Buf j)) (mkstate (upd (cache s) (Buf j) b1)
                                      (ticks s) (disk s) t)
  end.
Proof.
  intros Hm Hlru Hbb. unfold bget. rewrite Hhash.
  erewrite bind_ok; [|apply index_ok, home_lt].
  erewrite bind_ok; [|reflexivity].
  destruct (bget_lookup (trace s ++ [EvAcquire i])) as (h & Hh & Hlk).
  erewrite bind_ok; [|by apply load_at].
  erewrite bind_ok; [|exact Hlk]. rewrite Hm.
  change (Buf <$> None) with (@None ptr). cbv iota.
  destruct (bget_lru_scan (trace s ++ [EvAcquire i]) maxtick0 Null false)
    as (h' & Hh' & Hsc).
  erewrite bind_ok; [|by apply load_at].
  erewrite bind_ok; [|exact Hsc]. rewrite Hlru. cbv beta iota.
  rewrite decide_False by done.
  erewrite bind_ok; [|by apply rebind_at].
  erewrite unlock_and_sleep; [|deref_solve].
  norm. rewrite upd_upd, <- !app_assoc. by destruct (lock bb).
Qed.

End Home.

(** ** Redirecting links *)

Lemma follows_refl c : follows c c (nx c) (pv c).
Proof. done. Qed.

Lemma follows_is_Some c c' fn fp q :
  follows c c' fn fp -> is_Some (deref c q) -> is_Some (deref c' q).
Proof.
  intros (Hpay & _ & _) [b Hb]. specialize (Hpay q). rewrite Hb in Hpay.
  destruct (deref c' q); [eauto|done].
Qed.

Lemma follows_lengths c c' fn fp :
  follows c c' fn fp ->
  length (bufs c') = length (bufs c) /\ length (heads c') = length (heads c).
Proof.
  intros (Hpay & _ & _).
  assert (forall (xs ys : list buf),
           (forall k, payload <$> xs !! k = payload <$> ys !! k) -> length xs = length ys) as Hlen.
  { induction xs as [|x xs IH]; intros [|y ys] Hk; simpl; try done.
    - by specialize (Hk 0).
    - by specialize (Hk 0).
    - f_equal. apply IH. intros k. apply (Hk (S k)). }
  split; apply Hlen; intros k; [apply (Hpay (Buf k))|apply (Hpay (Head k))].
Qed.

Lemma follows_set_next c c' fn fp p v b :
  follows c c' fn fp ->
  deref c' p = Some b ->
  follows c (upd c' p (set_next v b)) (fun q => if decide (q = p) then v else fn q) fp.
Proof.
  intros (Hpay & Hn & Hp) Hb. split; [|split].
  - intros q. rewrite deref_upd by eauto. case_decide as Hq; [|done].
    subst q. rewrite <- Hpay, Hb. done.
  - intros q. rewrite nx_upd by eauto. by case_decide.
  - intros q. rewrite <- Hp. by eapply pv_upd_same.
Qed.

Lemma follows_set_prev c c' fn fp p v b :
  follows c c' fn fp ->
  deref c' p = Some b ->
  follows c (upd c' p (set_prev v b)) fn (fun q => if decide (q = p) then v else fp q).
Proof.
  intros (Hpay & Hn & Hp) Hb. split; [|split].
  - intros q. rewrite deref_upd by eauto. case_decide as Hq; [|done].
    subst q. rewrite <- Hpay, Hb. done.
  - intros q. rewrite <- Hn. by eapply nx_upd_same.
  - intros q. rewrite pv_upd by eauto. by case_decide.
Qed.

(** The three statements that redirect links, on a cache that [follows]
    the one of the start. *)
Lemma wp_read_links c fn fp p (Q : buf -> state -> Prop) E s :
  follows c (cache s) fn fp ->
  is_Some (deref c p) ->
  (forall r, next r = fn p -> prev r = fp p -> Q r s) ->
  wp (load p) Q E s.
Proof.
  intros Hf Hp HQ. destruct (follows_is_Some _ _ _ _ _ Hf Hp) as [r Hr].
  apply (wp_load_at p r); [done|]. destruct Hf as (_ & Hn & Hpv). apply HQ.
  - rewrite <- Hn. unfold nx. by rewrite Hr.
  - rewrite <- Hpv. unfold pv. by rewrite Hr.
Qed.

Lemma wp_set_next c fn fp p v (Q : unit -> state -> Prop) E s :
  follows c (cache s) fn fp ->
  is_Some (deref c p) ->
  (forall c', follows c c' (fun q => if decide (q = p) then v else fn q) fp ->
              Q tt (set_cache c' s)) ->
  wp (modify p (set_next v)) Q E s.
Proof.
  intros Hf Hp HQ. destruct (follows_is_Some _ _ _ _ _ Hf Hp) as [r Hr].
  apply (wp_modify_at p r); [done|]. apply HQ. by apply follows_set_next.
Qed.

Lemma wp_set_prev c fn fp p v (Q : unit -> state -> Prop) E s :
  follows c (cache s) fn fp ->
  is_Some (deref c p) ->
  (forall c', follows c c' fn (fun q => if decide (q = p) then v else fp q) ->
              Q tt (set_cache c' s)) ->
  wp (modify p (set_prev v)) Q E s.
Proof.
  intros Hf Hp HQ. destruct (follows_is_Some _ _ _ _ _ Hf Hp) as [r Hr].
  apply (wp_modify_at p r); [done|]. apply HQ. by apply follows_set_prev.
Qed.

(** Taking [J] out from between [P] and [N]. *)
Lemma links_unlink c c' X P J N Y :
  links c (X ++ P :: J :: N :: Y) ->
  nx c' P = N -> pv c' N = P ->
  (forall q, q ∈ X -> nx c' q = nx c q) ->
  (forall q, q ∈ tail (X ++ [P]) -> pv c' q = pv c q) ->
  (forall q, q ∈ removelast (N :: Y) -> nx c' q = nx c q) ->
  (forall q, q ∈ Y -> pv c' q = pv c q) ->
  links c' (X ++ P :: N :: Y).
Proof.
  intros Hl HP HN HX1 HX2 HY1 HY2.
  apply links_app in Hl as [HlX (_ & _ & _ & _ & HlY)].
  apply links_app. split.
  - eapply links_frame; [| |exact HlX]; [|done].
    intros q Hq. apply HX1. by rewrite removelast_last in Hq.
  - apply links_cons. split; [done|]. split; [done|].
    eapply links_frame; [| |exact HlY]; done.
Qed.

(** Putting [J] between the sentinel [H] and the node [F] after it. *)
Lemma links_push c c' H J F Z :
  links c (H :: F :: Z) ->
  nx c' H = J -> pv c' J = H -> nx c' J = F -> pv c' F = J ->
  (forall q, q ∈ removelast (F :: Z) -> nx c' q = nx c q) ->
  (forall q, q ∈ Z -> pv c' q = pv c q) ->
  links c' (H :: J :: F :: Z).
Proof.
  intros (_ & _ & Hl) H1 H2 H3 H4 HZ1 HZ2.
  apply links_cons. split; [done|]. split; [done|].
  apply links_cons. split; [done|]. split; [done|].
  eapply links_frame; [| |exact Hl]; done.
Qed.

(** Lines 171-172 of [bget], followed by [k]. *)
Lemma wp_unlink {A} c fn fp J (k : M A) Q E s :
  follows c (cache s) fn fp ->
  is_Some (deref c J) -> is_Some (deref c (fp J)) -> is_Some (deref c (fn J)) ->
  (forall c', follows c c' (fun q => if decide (q = fp J) then fn J else fn q)
                           (fun q => if decide (q = fn J) then fp J else fp q) ->
              wp k Q E (set_cache c' s)) ->
  wp (let* b := load J in modify (prev b) (set_next (next b)) ;;
      let* b := load J in modify (next b) (set_prev (prev b)) ;;
      k) Q E s.
Proof.
  intros Hf HJ HP HN Hk.
  apply wp_bind. eapply wp_read_links; [exact Hf|done|]. intros r -> ->.
  apply wp_bind. eapply wp_set_next; [exact Hf|done|]. intros c1 Hf1.
  apply wp_bind. eapply wp_read_links; [exact Hf1|done|]. intros r' Hn ->.
  assert (next r' = fn J) as -> by (rewrite Hn; by case_decide).
  apply wp_bind. eapply wp_set_prev; [exact Hf1|done|]. intros c2 Hf2.
  by apply Hk.
Qed.

(** Lines 173-177 of [bget], followed by [k]. *)
Lemma wp_push {A} c fn fp H J (k : M A) Q E s :
  follows c (cache s) fn fp ->
  H <> J ->
  is_Some (deref c H) -> is_Some (deref c J) -> is_Some (deref c (fn H)) ->
  (forall c', follows c c'
                (fun q => if decide (q = H) then J else if decide (q = J) then fn H else fn q)
                (fun q => if decide (q = fn H) then J else if decide (q = J) then H else fp q) ->
              wp k Q E (set_cache c' s)) ->
  wp (let* h := load H in modify J (set_next (next h)) ;;
      modify J (set_prev H) ;;
      let* h := load H in modify (next h) (set_prev J) ;;
      modify H (set_next J) ;;
      k) Q E s.
Proof.
  intros Hf HHJ HH HJ HF Hk.
  apply wp_bind. eapply wp_read_links; [exact Hf|done|]. intros r -> _.
  apply wp_bind. eapply wp_set_next; [exact Hf|done|]. intros c1 Hf1.
  apply wp_bind. eapply wp_set_prev; [exact Hf1|done|]. intros c2 Hf2.
  apply wp_bind. eapply wp_read_links; [exact Hf2|done|]. intros r' Hn _.
  cbv beta in Hn. rewrite decide_False in Hn by done. rewrite Hn.
  apply wp_bind. eapply wp_set_prev; [exact Hf2|done|]. intros c3 Hf3.
  apply wp_bind. eapply wp_set_next; [exact Hf3|done|]. intros c4 Hf4.
  by apply Hk.
Qed.

(** ** Moving a slot from one list to the front of another *)

Lemma last_cases {X} (a : X) (l : list X) :
  exists pre z, a :: l = pre ++ [z] /\ z ∈ a :: l /\
                (forall q, q ∈ pre -> q ∈ a :: l) /\
                (NoDup (a :: l) -> z ∉ pre).
Proof.
  destruct (exists_last (l := a :: l)) as (pre & z & Heq); [done|].
  exists pre, z. rewrite Heq. split; [done|]. split; [|split].
  - apply elem_of_app. right. left.
  - intros q Hq. apply elem_of_app. by left.
  - intros Hnd Hz. apply NoDup_app in Hnd as (_ & Hd & _).
    apply (Hd z Hz). left.
Qed.

Lemma first_cases {X} (l : list X) (z : X) :
  exists a post, l ++ [z] = a :: post /\ a ∈ l ++ [z] /\
                 (forall q, q ∈ post -> q ∈ l ++ [z]) /\
                 (NoDup (l ++ [z]) -> a ∉ post).
Proof.
  destruct (l ++ [z]) as [|a post] eqn:Heq; [by destruct l|].
  exists a, post. split; [done|]. split; [left|]. split.
  - intros q Hq. by right.
  - by intros [? _]%NoDup_cons.
Qed.

Lemma filter_ne_id (l : list nat) j : j ∉ l -> filter (fun x => x <> j) l = l.
Proof.
  induction l as [|x l IH]; [done|]. intros Hj.
  apply not_elem_of_cons in Hj as [Hne Hj].
  rewrite filter_cons_True by done. by rewrite IH.
Qed.

Lemma filter_ne_middle (l1 l2 : list nat) j :
  j ∉ l1 -> j ∉ l2 -> filter (fun x => x <> j) (l1 ++ j :: l2) = l1 ++ l2.
Proof.
  intros H1 H2. rewrite filter_app, filter_cons_False by naive_solver.
  by rewrite !filter_ne_id.
Qed.

Lemma NoDup_nodes i (l : list nat) : NoDup l -> NoDup (Head i :: (Buf <$> l)).
Proof.
  intros Hnd. apply NoDup_cons. split.
  - intros (x & ? & _)%list_elem_of_fmap. done.
  - apply NoDup_fmap; [|done]. by intros x y [= ->].
Qed.

Lemma NoDup_nodes_r i (l : list nat) : NoDup l -> NoDup ((Buf <$> l) ++ [Head i]).
Proof.
  intros Hnd. apply NoDup_app. split; [|split].
  - apply NoDup_fmap; [|done]. by intros x y [= ->].
  - intros q (x & -> & _)%list_elem_of_fmap [=]%list_elem_of_singleton.
  - apply NoDup_singleton.
Qed.

Section Move.

Context (c : bcache) (ls : list (list nat)) (Hinv : inv c ls).
Context (d h j : nat) (l1 l2 lh : list nat).
Context (Hdh : d <> h).
Context (Hd : ls !! d = Some (l1 ++ j :: l2)) (Hh : ls !! h = Some lh).

Lemma donor_nodup : NoDup (l1 ++ j :: l2).
Proof. by eapply inv_nodup_list. Qed.

Lemma j_not_l1 : j ∉ l1.
Proof.
  pose proof donor_nodup as (_ & Hx & _)%NoDup_app. intros Hj. apply (Hx j Hj). left.
Qed.

Lemma j_not_l2 : j ∉ l2.
Proof. pose proof donor_nodup as (_ & _ & [? _]%NoDup_cons)%NoDup_app. done. Qed.

Lemma l1_not_l2 x : x ∈ l1 -> x ∉ l2.
Proof.
  pose proof donor_nodup as (_ & Hx & _)%NoDup_app. intros H1 H2. apply (Hx x H1). by right.
Qed.

Lemma home_not_donor x : x ∈ lh -> x ∉ l1 ++ j :: l2.
Proof. intros H1 H2. apply Hdh. by eapply (inv_one_list c ls Hinv d h). Qed.

Lemma other_not_donor k lk x :
  k <> d -> ls !! k = Some lk -> x ∈ lk -> x ∉ l1 ++ j :: l2.
Proof. intros Hk Hlk H1 H2. apply Hk. by eapply (inv_one_list c ls Hinv k d). Qed.

Lemma other_not_home k lk x :
  k <> h -> ls !! k = Some lk -> x ∈ lk -> x ∉ lh.
Proof. intros Hk Hlk H1 H2. apply Hk. by eapply (inv_one_list c ls Hinv k h). Qed.

Lemma donor_links :
  links c ((Head d :: (Buf <$> l1)) ++ Buf j :: ((Buf <$> l2) ++ [Head d])).
Proof.
  pose proof (inv_dll _ _ Hinv d _ Hd) as Hl. unfold dll in Hl.
  by rewrite fmap_app, fmap_cons, <- app_assoc in Hl.
Qed.

(** The neighbours of the slot, and the first node of the home list. *)
Lemma before_j :
  exists X, Head d :: (Buf <$> l1) = X ++ [pv c (Buf j)] /\ (pv c (Buf j) ∉ X) /\
            (forall q, q ∈ X -> q ∈ Head d :: (Buf <$> l1)).
Proof.
  destruct (last_cases (Head d) (Buf <$> l1)) as (X & z & Heq & _ & Hsub & Hnd).
  pose proof donor_links as Hl. rewrite Heq, <- app_assoc in Hl.
  apply links_app in Hl as [_ (_ & Hz & _)].
  exists X. rewrite Hz. split; [done|]. split; [|done].
  apply Hnd, NoDup_nodes. pose proof donor_nodup as (? & _)%NoDup_app. done.
Qed.

Lemma after_j :
  exists Y, (Buf <$> l2) ++ [Head d] = nx c (Buf j) :: Y /\ (nx c (Buf j) ∉ Y) /\
            (forall q, q ∈ Y -> q ∈ (Buf <$> l2) ++ [Head d]).
Proof.
  destruct (first_cases (Buf <$> l2) (Head d)) as (a & Y & Heq & _ & Hsub & Hnd).
  pose proof donor_links as Hl. rewrite Heq in Hl.
  apply links_app in Hl as [_ (Ha & _)].
  exists Y. rewrite Ha. split; [done|]. split; [|done].
  apply Hnd, NoDup_nodes_r.
  pose proof donor_nodup as (_ & _ & [_ ?]%NoDup_cons)%NoDup_app. done.
Qed.

Lemma after_head :
  exists Z, (Buf <$> lh) ++ [Head h] = nx c (Head h) :: Z /\ (nx c (Head h) ∉ Z) /\
            (forall q, q ∈ Z -> q ∈ (Buf <$> lh) ++ [Head h]).
Proof.
  destruct (first_cases (Buf <$> lh) (Head h)) as (a & Z & Heq & _ & Hsub & Hnd).
  pose proof (inv_dll _ _ Hinv h _ Hh) as Hl. unfold dll in Hl. rewrite Heq in Hl.
  destruct Hl as (Ha & _).
  exists Z. rewrite Ha. split; [done|]. split; [|done].
  apply Hnd, NoDup_nodes_r. by eapply inv_nodup_list.
Qed.

Lemma pv_j_in : pv c (Buf j) ∈ Head d :: (Buf <$> l1).
Proof.
  destruct before_j as (X & -> & _). apply elem_of_app. right. left.
Qed.

Lemma nx_j_in : nx c (Buf j) ∈ (Buf <$> l2) ++ [Head d].
Proof. destruct after_j as (Y & -> & _). left. Qed.

Lemma nx_head_in : nx c (Head h) ∈ (Buf <$> lh) ++ [Head h].
Proof. destruct after_head as (Z & -> & _). left. Qed.

(** Nodes sorted by the part of the cache they are on. *)
Lemma left_cases q :
  q ∈ Head d :: (Buf <$> l1) -> q = Head d \/ exists x, q = Buf x /\ x ∈ l1.
Proof.
  intros [->|(x & -> & Hx)%list_elem_of_fmap]%elem_of_cons; eauto.
Qed.

Lemma right_cases q :
  q ∈ (Buf <$> l2) ++ [Head d] -> q = Head d \/ exists x, q = Buf x /\ x ∈ l2.
Proof.
  intros [(x & -> & Hx)%list_elem_of_fmap| ->%list_elem_of_singleton]%elem_of_app; eauto.
Qed.

Lemma home_cases q :
  q ∈ (Buf <$> lh) ++ [Head h] -> q = Head h \/ exists x, q = Buf x /\ x ∈ lh.
Proof.
  intros [(x & -> & Hx)%list_elem_of_fmap| ->%list_elem_of_singleton]%elem_of_app; eauto.
Qed.

Lemma donor_not_home q q' :
  q ∈ Head d :: (Buf <$> l1) \/ q ∈ (Buf <$> l2) ++ [Head d] ->
  q' ∈ (Buf <$> lh) ++ [Head h] -> q <> q'.
Proof.
  intros Hq [->|(x' & -> & Hx')]%home_cases.
  - destruct Hq as [[->|(x & -> & _)]%left_cases|[->|(x & -> & _)]%right_cases]; congruence.
  - pose proof (home_not_donor x' Hx') as Hn.
    destruct Hq as [[->|(x & -> & Hx)]%left_cases|[->|(x & -> & Hx)]%right_cases];
      try done; intros [= ->]; apply Hn; set_solver.
Qed.

Lemma donor_not_j q :
  q ∈ Head d :: (Buf <$> l1) \/ q ∈ (Buf <$> l2) ++ [Head d] -> q <> Buf j.
Proof.
  intros [[->|(x & -> & Hx)]%left_cases|[->|(x & -> & Hx)]%right_cases];
    try done; intros [= ->]; [by apply j_not_l1|by apply j_not_l2].
Qed.

Lemma home_not_j q : q ∈ (Buf <$> lh) ++ [Head h] -> q <> Buf j.
Proof.
  intros [->|(x & -> & Hx)]%home_cases; [done|]. intros [= ->].
  apply (home_not_donor j Hx). set_solver.
Qed.

Lemma left_not_right q q' :
  q ∈ Buf <$> l1 -> q' ∈ (Buf <$> l2) ++ [Head d] -> q <> q'.
Proof.
  intros (x & -> & Hx)%list_elem_of_fmap [->|(x' & -> & Hx')]%right_cases; [done|].
  intros [= ->]. by apply (l1_not_l2 x').
Qed.

Lemma right_not_left q q' :
  q ∈ Buf <$> l2 -> q' ∈ Head d :: (Buf <$> l1) -> q <> q'.
Proof.
  intros (x & -> & Hx)%list_elem_of_fmap [->|(x' & -> & Hx')]%left_cases; [done|].
  intros [= ->]. by apply (l1_not_l2 x').
Qed.

(** The cache [c'] with the links of the move. *)
Context (c' : bcache).
Context (Hnx : forall q, nx c' q =
                 if decide (q = Head h) then Buf j
                 else if decide (q = Buf j) then nx c (Head h)
                 else if decide (q = pv c (Buf j)) then nx c (Buf j)
                 else nx c q).
Context (Hpv : forall q, pv c' q =
                 if decide (q = nx c (Head h)) then Buf j
                 else if decide (q = Buf j) then Head h
                 else if decide (q = nx c (Buf j)) then pv c (Buf j)
                 else pv c q).

Lemma nx_other q :
  q <> Head h -> q <> Buf j -> q <> pv c (Buf j) -> nx c' q = nx c q.
Proof. intros. rewrite Hnx. by rewrite !decide_False. Qed.

Lemma pv_other q :
  q <> nx c (Head h) -> q <> Buf j -> q <> nx c (Buf j) -> pv c' q = pv c q.
Proof. intros. rewrite Hpv. by rewrite !decide_False. Qed.

Lemma move_home : dll c' h (j :: lh).
Proof.
  destruct after_head as (Z & HZ & HFZ & Hsub).
  pose proof (inv_dll _ _ Hinv h _ Hh) as Hl. unfold dll in *.
  rewrite fmap_cons. simpl. rewrite HZ in Hl |- *.
  assert (nx c (Head h) <> Buf j) as HFJ.
  { apply home_not_j. rewrite HZ. left. }
  apply (links_push c).
  - done.
  - rewrite Hnx. by rewrite decide_True.
  - rewrite Hpv. rewrite decide_False by done. by rewrite decide_True.
  - rewrite Hnx. rewrite decide_False by done. by rewrite decide_True.
  - rewrite Hpv. by rewrite decide_True.
  - intros q Hq. rewrite <- HZ, removelast_last in Hq.
    apply nx_other.
    + apply list_elem_of_fmap in Hq as (x & -> & _). done.
    + apply home_not_j, elem_of_app. by left.
    + intros ->. eapply donor_not_home; [left; apply pv_j_in| |done].
      apply elem_of_app. by left.
  - intros q Hq. apply pv_other.
    + by intros ->.
    + apply home_not_j, Hsub, Hq.
    + intros ->. eapply donor_not_home; [right; apply nx_j_in|apply Hsub, Hq|done].
Qed.

Lemma move_donor : dll c' d (l1 ++ l2).
Proof.
  destruct before_j as (X & HX & HPX & HXsub).
  destruct after_j as (Y & HY & HNY & HYsub).
  pose proof donor_links as Hl. unfold dll.
  replace (Head d :: (Buf <$> l1 ++ l2) ++ [Head d])
    with ((Head d :: (Buf <$> l1)) ++ ((Buf <$> l2) ++ [Head d]))
    by (by rewrite fmap_app, <- app_assoc).
  rewrite HX, HY in *. rewrite <- app_assoc in *. simpl in *.
  assert (pv c (Buf j) ∈ X ++ [pv c (Buf j)]) as HPin by (apply elem_of_app; right; left).
  assert (nx c (Buf j) ∈ nx c (Buf j) :: Y) as HNin by left.
  assert (forall q, q ∈ X ++ [pv c (Buf j)] -> q <> Head h) as HnH.
  { intros q Hq ->. eapply donor_not_home; [left; rewrite HX; exact Hq| |done].
    apply elem_of_app. right. left. }
  assert (forall q, q ∈ nx c (Buf j) :: Y -> q <> Head h) as HnH'.
  { intros q Hq ->. eapply donor_not_home; [right; rewrite HY; exact Hq| |done].
    apply elem_of_app. right. left. }
  assert (forall q, q ∈ X ++ [pv c (Buf j)] -> q <> nx c (Head h)) as HnF.
  { intros q Hq ->. eapply donor_not_home; [left; rewrite HX; exact Hq|apply nx_head_in|done]. }
  assert (forall q, q ∈ nx c (Buf j) :: Y -> q <> nx c (Head h)) as HnF'.
  { intros q Hq ->. eapply donor_not_home; [right; rewrite HY; exact Hq|apply nx_head_in|done]. }
  assert (forall q, q ∈ X ++ [pv c (Buf j)] -> q <> Buf j) as HnJ.
  { intros q Hq. apply donor_not_j. left. by rewrite HX. }
  assert (forall q, q ∈ nx c (Buf j) :: Y -> q <> Buf j) as HnJ'.
  { intros q Hq. apply donor_not_j. right. by rewrite HY. }
  apply (links_unlink c c' X _ (Buf j)).
  - done.
  - rewrite Hnx. rewrite !decide_False by auto. by rewrite decide_True.
  - rewrite Hpv. rewrite !decide_False by auto. by rewrite decide_True.
  - intros q Hq. apply nx_other.
    + apply HnH, elem_of_app. by left.
    + apply HnJ, elem_of_app. by left.
    + by intros ->.
  - intros q Hq. rewrite <- HX in Hq. simpl in Hq. apply pv_other.
    + apply HnF. rewrite <- HX. by right.
    + apply HnJ. rewrite <- HX. by right.
    + apply left_not_right; [done|]. rewrite HY. left.
  - intros q Hq. rewrite <- HY, removelast_last in Hq. apply nx_other.
    + apply HnH'. rewrite <- HY. apply elem_of_app. by left.
    + apply HnJ'. rewrite <- HY. apply elem_of_app. by left.
    + apply right_not_left; [done|]. rewrite HX. done.
  - intros q Hq. apply pv_other.
    + apply HnF'. by right.
    + apply HnJ'. by right.
    + by intros ->.
Qed.

Lemma move_other k lk : k <> d -> k <> h -> ls !! k = Some lk -> dll c' k lk.
Proof.
  intros Hkd Hkh Hk. pose proof (inv_dll _ _ Hinv k _ Hk) as Hl. unfold dll in *.
  assert (forall q, q ∈ Head k :: (Buf <$> lk) ++ [Head k] ->
            q = Head k \/ exists x, q = Buf x /\ x ∈ lk) as Hcases.
  { intros q [->|[(x & -> & Hx)%list_elem_of_fmap| ->%list_elem_of_singleton]%elem_of_app]%elem_of_cons;
      eauto. }
  assert (forall q q', q ∈ Head k :: (Buf <$> lk) ++ [Head k] ->
            q' ∈ Head d :: (Buf <$> l1) \/ q' ∈ (Buf <$> l2) ++ [Head d] -> q <> q') as Hnd.
  { intros q q' [->|(x & -> & Hx)]%Hcases Hq'.
    - destruct Hq' as [[->|(x' & -> & _)]%left_cases|[->|(x' & -> & _)]%right_cases]; congruence.
    - pose proof (other_not_donor k lk x Hkd Hk Hx) as Hn.
      destruct Hq' as [[->|(x' & -> & Hx')]%left_cases|[->|(x' & -> & Hx')]%right_cases];
        try done; intros [= ->]; apply Hn; set_solver. }
  assert (forall q q', q ∈ Head k :: (Buf <$> lk) ++ [Head k] ->
            q' ∈ (Buf <$> lh) ++ [Head h] -> q <> q') as Hnh.
  { intros q q' [->|(x & -> & Hx)]%Hcases [->|(x' & -> & Hx')]%home_cases; try congruence.
    intros [= ->]. by apply (other_not_home k lk x'). }
  assert (forall q, q ∈ Head k :: (Buf <$> lk) ++ [Head k] -> q <> Buf j) as HnJ.
  { intros q [->|(x & -> & Hx)]%Hcases; [done|]. intros [= ->].
    apply (other_not_donor k lk j Hkd Hk Hx). set_solver. }
  eapply links_frame; [| |exact Hl].
  - intros q Hq.
    assert (q ∈ Head k :: (Buf <$> lk) ++ [Head k]) as Hq'.
    { rewrite app_comm_cons in Hq |- *. rewrite removelast_last in Hq.
      apply elem_of_app. by left. }
    apply nx_other; [|by apply HnJ|].
    + apply Hnh; [done|]. apply elem_of_app. right. left.
    + apply Hnd; [done|]. left. apply pv_j_in.
  - intros q Hq. simpl in Hq.
    assert (q ∈ Head k :: (Buf <$> lk) ++ [Head k]) as Hq' by by right.
    apply pv_other; [|by apply HnJ|].
    + apply Hnh; [done|]. apply nx_head_in.
    + apply Hnd; [done|]. right. apply nx_j_in.
Qed.

End Move.

Lemma concat_alter_cons (xs : list (list nat)) i j :
  i < length xs -> concat (alter (fun l => j :: l) i xs) ≡ₚ j :: concat xs.
Proof.
  revert i. induction xs as [|l xs IH]; intros i Hi; simpl in Hi; [lia|].
  destruct i as [|i]; [done|].
  change (concat (alter (fun l => j :: l) (S i) (l :: xs)))
    with (l ++ concat (alter (fun l => j :: l) i xs)).
  rewrite IH by lia. simpl. by rewrite Permutation_middle.
Qed.

Lemma concat_alter_remove (xs : list (list nat)) i j l1 l2 :
  xs !! i = Some (l1 ++ j :: l2) -> j ∉ l1 -> j ∉ l2 ->
  j :: concat (alter (filter (fun x => x <> j)) i xs) ≡ₚ concat xs.
Proof.
  revert i. induction xs as [|l xs IH]; intros i Hi H1 H2; [done|].
  destruct i as [|i]; simpl in Hi.
  - injection Hi as ->.
    change (concat (alter (filter (fun x => x <> j)) 0 ((l1 ++ j :: l2) :: xs)))
      with (filter (fun x => x <> j) (l1 ++ j :: l2) ++ concat xs).
    rewrite filter_ne_middle by done.
    simpl. rewrite <- !app_assoc. simpl. by rewrite <- Permutation_middle.
  - change (concat (alter (filter (fun x => x <> j)) (S i) (l :: xs)))
      with (l ++ concat (alter (filter (fun x => x <> j)) i xs)).
    simpl. rewrite Permutation_middle. by rewrite (IH i).
Qed.

Lemma move_lookup (ls : list (list nat)) j d h i :
  d <> h ->
  move j d h ls !! i =
  if decide (i = h) then (fun l => j :: l) <$> ls !! h
  else if decide (i = d) then filter (fun x => x <> j) <$> ls !! d
  else ls !! i.
Proof.
  intros Hdh. unfold move. case_decide as Hih.
  - subst i. rewrite list_lookup_alter_eq. by rewrite list_lookup_alter_ne.
  - rewrite list_lookup_alter_ne by done. case_decide as Hid.
    + subst i. by rewrite list_lookup_alter_eq.
    + by rewrite list_lookup_alter_ne.
Qed.

(** The cache after the slot has been moved and bound to its new block is
    the buckets with the slot moved. *)
Lemma move_inv c c' ls d h j ld lh b' bn b'' :
  inv c ls ->
  d <> h -> ls !! d = Some ld -> ls !! h = Some lh -> j ∈ ld ->
  (forall q, payload <$> deref c' q = payload <$> deref c q) ->
  (forall q, nx c' q =
             if decide (q = Head h) then Buf j
             else if decide (q = Buf j) then nx c (Head h)
             else if decide (q = pv c (Buf j)) then nx c (Buf j)
             else nx c q) ->
  (forall q, pv c' q =
             if decide (q = nx c (Head h)) then Buf j
             else if decide (q = Buf j) then Head h
             else if decide (q = nx c (Buf j)) then pv c (Buf j)
             else pv c q) ->
  deref c' (Buf j) = Some b' ->
  next b'' = next b' -> prev b'' = prev b' -> blockno b'' = bn ->
  hash (to_int bn) = Z.of_nat h ->
  inv (upd c' (Buf j) b'') (move j d h ls).
Proof.
  intros Hinv Hdh Hd Hh Hj Hpay Hnx Hpv Hb' Hn Hp Hbn Hhash.
  destruct (list_elem_of_split _ _ Hj) as (l1 & l2 & ->).
  pose proof (follows_lengths c c' _ _ (conj Hpay (conj Hnx Hpv))) as [Hlb Hlh].
  pose proof (inv_nodup_list c ls Hinv d _ Hd) as Hnd.
  assert (j ∉ l1) as Hj1.
  { apply NoDup_app in Hnd as (_ & Hx & _). intros Hin. apply (Hx j Hin). left. }
  assert (j ∉ l2) as Hj2.
  { by apply NoDup_app in Hnd as (_ & _ & [? _]%NoDup_cons). }
  split.
  - rewrite length_bufs_upd, Hlb. apply Hinv.
  - rewrite length_heads_upd, Hlh. apply Hinv.
  - unfold move. rewrite !length_alter. apply Hinv.
  - intros i l Hi. rewrite move_lookup in Hi by done.
    assert (dll c' i l) as Hdll.
    { case_decide as Hih; [|case_decide as Hid].
      - subst i. rewrite Hh in Hi. injection Hi as <-.
        by eapply (move_home c ls Hinv d h j l1 l2 lh).
      - subst i. rewrite Hd in Hi. injection Hi as <-.
        rewrite filter_ne_middle by done.
        by eapply (move_donor c ls Hinv d h j l1 l2 lh).
      - by eapply (move_other c ls Hinv d h j l1 l2 lh). }
    eapply links_frame; [| |exact Hdll].
    + intros q _. by eapply nx_upd_same.
    + intros q _. by eapply pv_upd_same.
  - unfold move. rewrite concat_alter_cons.
    + erewrite concat_alter_remove; [apply Hinv|done..].
    + rewrite length_alter. by eapply lookup_lt_Some.
  - intros i l x b Hi Hx Hb. rewrite move_lookup in Hi by done.
    destruct (decide (x = j)) as [->|Hxj].
    + (* the slot that moved *)
      change (deref (upd c' (Buf j) b'') (Buf j) = Some b) in Hb.
      rewrite deref_upd_eq in Hb by eauto. injection Hb as <-. rewrite Hbn, Hhash.
      case_decide as Hih; [by subst|exfalso]. case_decide as Hid.
      * subst i. rewrite Hd in Hi. injection Hi as <-.
        rewrite filter_ne_middle in Hx by done. set_solver.
      * apply Hid. eapply (inv_one_list c ls Hinv i d); [done..|set_solver].
    + (* the others are where they were *)
      rewrite bufs_upd_ne in Hb by congruence.
      specialize (Hpay (Buf x)). simpl in Hpay. rewrite Hb in Hpay.
      destruct (bufs c !! x) as [b0|] eqn:Hb0; [|done].
      assert (blockno b = blockno b0) as -> by (by injection Hpay).
      case_decide as Hih; [|case_decide as Hid].
      * subst i. rewrite Hh in Hi. injection Hi as <-.
        apply elem_of_cons in Hx as [?|Hx]; [done|].
        by eapply (inv_hash _ _ Hinv h lh x).
      * subst i. rewrite Hd in Hi. injection Hi as <-.
        apply list_elem_of_filter in Hx as [_ Hx].
        by eapply (inv_hash _ _ Hinv d _ x).
      * by eapply (inv_hash _ _ Hinv i l x).
Qed.

(** ** The scans choose the oldest unreferenced slot below the bound *)

Lemma elem_of_rev {X} (x : X) (l : list X) : x ∈ rev l <-> x ∈ l.
Proof. rewrite !list_elem_of_In. symmetry. apply in_rev. Qed.

Lemma lru_fold_spec c l mt cz ch mt' cz' ch' :
  lru_fold c l mt cz ch = (mt', cz', ch') ->
  (mt' <= mt)%Z /\
  (forall j b, j ∈ l -> bufs c !! j = Some b -> refcnt b = 0%Z -> (mt' <= lastuse b)%Z) /\
  ((mt' = mt /\ cz' = cz /\ ch' = ch) \/
   (ch' = true /\ (mt' < mt)%Z /\
    exists j b, j ∈ l /\ cz' = Buf j /\ bufs c !! j = Some b /\
                refcnt b = 0%Z /\ lastuse b = mt')).
Proof.
  revert mt cz ch. induction l as [|x l IH]; intros mt cz ch; simpl.
  - intros [= <- <- <-]. split; [lia|]. split; [|by left].
    by intros j b ?%elem_of_nil.
  - destruct (bufs c !! x) as [bx|] eqn:Hx.
    + case_decide as Hel.
      * intros (Hle & Hmin & Hcase)%IH. split; [lia|]. split.
        -- intros j b [->|Hj]%elem_of_cons Hb Hr; [|by eauto].
           rewrite Hx in Hb. injection Hb as <-. lia.
        -- right. destruct Hcase as [(-> & -> & ->)|(-> & Hlt & j & b & Hj & ? & ? & ? & ?)].
           ++ split; [done|]. split; [lia|]. exists x, bx. split; [left|]. naive_solver.
           ++ split; [done|]. split; [lia|]. exists j, b. split; [by right|]. done.
      * intros (Hle & Hmin & Hcase)%IH. split; [done|]. split.
        -- intros j b [->|Hj]%elem_of_cons Hb Hr; [|by eauto].
           rewrite Hx in Hb. injection Hb as <-. lia.
        -- destruct Hcase as [?|(-> & Hlt & j & b & Hj & ?)]; [by left|right].
           split; [done|]. split; [done|]. exists j, b. split; [by right|done].
    + intros (Hle & Hmin & Hcase)%IH. split; [done|]. split.
      * intros j b [->|Hj]%elem_of_cons Hb Hr; [congruence|by eauto].
      * destruct Hcase as [?|(-> & Hlt & j & b & Hj & ?)]; [by left|right].
        split; [done|]. split; [done|]. exists j, b. split; [by right|done].
Qed.

Lemma scan_buckets_spec s ls lockid mt0 rest scanned mt cz bktid :
  inv (cache s) ls ->
  (forall i, i ∈ rest -> i < NBUCKET) ->
  candidate (cache s) ls lockid mt0 scanned mt cz bktid ->
  wp (scan_buckets rest lockid mt cz bktid)
     (fun r s' => let '(mt', cz', bktid') := r in
                  cache s' = cache s /\ ticks s' = ticks s /\ disk s' = disk s /\
                  (exists t, trace s' = trace s ++ t) /\
                  candidate (cache s) ls lockid mt0 (scanned ++ rest) mt' cz' bktid')
     (fun _ _ => False) s.
Proof.
  intros Hinv. revert scanned mt cz bktid s Hinv.
  induction rest as [|i rest IH]; intros scanned mt cz bktid s Hinv Hrest Hc; simpl.
  { apply wp_ret. rewrite app_nil_r. split; [done|]. split; [done|]. split; [done|].
    split; [|done]. exists []. by rewrite app_nil_r. }
  assert (forall i', i' ∈ rest -> i' < NBUCKET) as Hrest' by (intros; apply Hrest; by right).
  replace (scanned ++ i :: rest) with ((scanned ++ [i]) ++ rest) by (by rewrite <- app_assoc).
  destruct (decide (i = lockid)) as [Hil|Hil].
  { apply IH; [done..|]. destruct Hc as [Hmin Hcz]. split; [|done].
    intros i' l j b [Hi'| ->%list_elem_of_singleton]%elem_of_app; [by eauto|done]. }
  assert (i < NBUCKET) as Hi by (apply Hrest; left).
  destruct (inv_bucket _ _ Hinv i Hi) as [l Hl].
  destruct (inv_head _ _ Hinv i Hi) as [h Hh].
  apply wp_bind, wp_emit.
  apply wp_bind, (wp_load_at _ h); [done|].
  apply wp_bind.
  pose proof (lru_scan_walk l (Head i) fuel i mt cz false
                (set_trace (trace s ++ [EvAcquire i]) s)) as Hscan.
  replace (pv (cache (set_trace (trace s ++ [EvAcquire i]) s)) (Head i)) with (prev h) in Hscan
    by (unfold pv; simpl; by rewrite Hh).
  eapply wp_eq; [apply Hscan|].
  { by apply (inv_dll _ _ Hinv). }
  { intros j Hj. by eapply inv_valid. }
  { by eapply inv_length. }
  destruct (lru_fold (cache s) (rev l) mt cz false) as [[mt' cz'] ch'] eqn:Hfold.
  simpl cache. rewrite Hfold.
  apply lru_fold_spec in Hfold as (Hle & Hmin' & Hcase).
  destruct Hc as [Hmin Hcz].
  assert (forall i' l' j b, i' ∈ scanned ++ [i] -> i' <> lockid -> ls !! i' = Some l' ->
            j ∈ l' -> bufs (cache s) !! j = Some b -> refcnt b = 0%Z -> (mt' <= lastuse b)%Z)
    as Hmin2.
  { intros i' l' j b [Hi'| ->%list_elem_of_singleton]%elem_of_app Hne Hl' Hj Hb Hr.
    - etrans; [exact Hle|]. by eapply Hmin.
    - rewrite Hl in Hl'. injection Hl' as <-. eapply Hmin'; [|done..].
      by apply elem_of_rev. }
  apply wp_bind.
  destruct Hcase as [(-> & -> & ->)|(-> & Hlt & j & b & Hj & -> & Hb & Hr & <-)].
  - (* bucket [i] has nothing older *)
    apply wp_bind, wp_emit, wp_ret.
    eapply wp_mono; [apply (IH (scanned ++ [i]))| |done].
    + done.
    + done.
    + by split.
    + intros [[mt2 cz2] bk2] s2 (Hc2 & Ht2 & Hd2 & (t & Htr) & Hcand).
      split; [done|]. split; [done|]. split; [done|]. split; [|done].
      simpl in Htr. rewrite <- !app_assoc in Htr. eauto.
  - (* the candidate is now in bucket [i] *)
    assert (candidate (cache s) ls lockid mt0 (scanned ++ [i]) (lastuse b) (Buf j) i) as Hcand.
    { split; [done|]. right. exists j, l, b. rewrite elem_of_rev in Hj.
      repeat split; try done.
      destruct Hcz as [(_ & _ & ->)|(? & ? & ? & _ & _ & _ & _ & _ & _ & <- & ?)]; lia. }
    apply wp_bind. destruct (decide (bktid <> lockid)).
    + apply wp_emit, wp_ret.
      eapply wp_mono; [apply (IH (scanned ++ [i]))| |done]; try done.
      intros [[mt2 cz2] bk2] s2 (Hc2 & Ht2 & Hd2 & (t & Htr) & Hcand2).
      split; [done|]. split; [done|]. split; [done|]. split; [|done].
      simpl in Htr. rewrite <- !app_assoc in Htr. eauto.
    + apply wp_ret, wp_ret.
      eapply wp_mono; [apply (IH (scanned ++ [i]))| |done]; try done.
      intros [[mt2 cz2] bk2] s2 (Hc2 & Ht2 & Hd2 & (t & Htr) & Hcand2).
      split; [done|]. split; [done|]. split; [done|]. split; [|done].
      simpl in Htr. rewrite <- !app_assoc in Htr. eauto.
Qed.

(** ** [bget]: a slot is taken from another bucket *)

Lemma inv_node c ls i l q :
  inv c ls -> ls !! i = Some l -> q ∈ Head i :: (Buf <$> l) ++ [Head i] ->
  is_Some (deref c q).
Proof.
  intros Hinv Hl Hq.
  assert (is_Some (deref c (Head i))) as Hhd.
  { apply (inv_head c ls Hinv). apply lookup_lt_Some in Hl. by rewrite (inv_len _ _ Hinv) in Hl. }
  apply elem_of_cons in Hq as [->|Hq]; [done|].
  apply elem_of_app in Hq as [(x & -> & Hx)%list_elem_of_fmap| ->%list_elem_of_singleton];
    [|done].
  by eapply (inv_valid c ls Hinv).
Qed.

(** Up to the label [eviction], when the home bucket has neither the block
    nor a slot to recycle. *)
Lemma bget_to_eviction s ls pid dv bn h lh mt ch :
  inv (cache s) ls ->
  hash (to_int bn) = Z.of_nat h -> ls !! h = Some lh ->
  first_match (cache s) dv bn lh = None ->
  lru_fold (cache s) (rev lh) maxtick0 Null false = (mt, Null, ch) ->
  bget pid dv bn s =
  eviction pid dv bn h mt Null (set_trace (trace s ++ [EvAcquire h; EvRelease h]) s).
Proof.
  intros Hinv Hhash Hh Hm Hlru. unfold bget. rewrite Hhash.
  erewrite bind_ok; [|by eapply index_ok, home_lt].
  erewrite bind_ok; [|reflexivity].
  destruct (bget_lookup s ls Hinv dv bn h lh Hh (trace s ++ [EvAcquire h])) as (hd & Hhd & Hlk).
  erewrite bind_ok; [|by apply load_at].
  erewrite bind_ok; [|exact Hlk]. rewrite Hm.
  change (Buf <$> None) with (@None ptr). cbv iota.
  destruct (bget_lru_scan s ls Hinv h lh Hh (trace s ++ [EvAcquire h]) maxtick0 Null false)
    as (hd' & Hhd' & Hsc).
  erewrite bind_ok; [|by apply load_at].
  erewrite bind_ok; [|exact Hsc]. rewrite Hlru. cbv beta iota.
  rewrite decide_True by done.
  erewrite bind_ok; [|reflexivity].
  unfold set_trace. simpl. by rewrite <- !app_assoc.
Qed.

Lemma eviction_spec s ls pid dv bn h lh :
  inv (cache s) ls ->
  hash (to_int bn) = Z.of_nat h -> ls !! h = Some lh ->
  first_match (cache s) dv bn lh = None ->
  (forall x b, x ∈ lh -> bufs (cache s) !! x = Some b -> refcnt b = 0%Z ->
               (maxtick0 <= lastuse b)%Z) ->
  after_eviction s ls h pid dv bn (eviction pid dv bn h maxtick0 Null s).
Proof.
  intros Hinv Hhash Hh Hm Hhome.
  enough (wp (eviction pid dv bn h maxtick0 Null)
            (fun r s' => after_eviction s ls h pid dv bn (Ok r s'))
            (fun e s' => after_eviction s ls h pid dv bn (Stop e s')) s) as Hwp.
  { unfold wp in Hwp. by destruct (eviction pid dv bn h maxtick0 Null s). }
  assert (h < NBUCKET) as Hlt by (by eapply home_lt).
  unfold eviction. apply wp_bind.
  eapply wp_mono; [apply (scan_buckets_spec s ls h maxtick0 (seq 0 NBUCKET) [] maxtick0 Null h)| |done].
  { done. }
  { intros i Hi%elem_of_seq. lia. }
  { split; [by intros i l j b ?%elem_of_nil|]. by left. }
  intros [[mt cz] bktid] s1 (Hc1 & Ht1 & Hd1 & (t1 & Htr1) & Hmin & Hcand). simpl in Hmin.
  assert (forall i l x b, i <> h -> ls !! i = Some l -> x ∈ l -> bufs (cache s) !! x = Some b ->
            refcnt b = 0%Z -> (mt <= lastuse b)%Z) as Hmin'.
  { intros i l x b Hne Hl. eapply Hmin; [|done..]. apply elem_of_seq.
    apply lookup_lt_Some in Hl. rewrite (inv_len _ _ Hinv) in Hl. lia. }
  clear Hmin.
  apply wp_bind, wp_emit.
  destruct (bget_lookup s ls Hinv dv bn h lh Hh []) as (hd & Hhd & _).
  apply wp_bind, (wp_load_at _ hd); [simpl; by rewrite Hc1|].
  apply wp_bind.
  eapply wp_eq.
  { replace (next hd) with
      (nx (cache (set_trace (trace s1 ++ [EvAcquire h]) s1)) (Head h))
      by (unfold nx; norm; by rewrite Hc1, Hhd).
    apply (lookup_walk lh (Head h) fuel h dv bn).
    - simpl. rewrite Hc1. by apply (inv_dll _ _ Hinv).
    - simpl. rewrite Hc1. intros j Hj. by eapply inv_valid.
    - by eapply inv_length. }
  simpl cache. rewrite Hc1, Hm. change (Buf <$> None) with (@None ptr). cbv iota.
  apply wp_bind.
  destruct Hcand as [(-> & -> & ->)|(j & ld & b0 & -> & Hbk & Hld & Hj & Hb0 & Hr0 & <- & Hlt0)].
  - (* nothing to recycle anywhere *)
    rewrite decide_True by done.
    apply wp_bind, wp_emit, wp_bind. rewrite decide_False by naive_solver.
    apply wp_ret, wp_panic.
    split; [done|]. split; [done|]. split.
    { simpl. rewrite Htr1, <- !app_assoc. eauto. }
    split; [done|]. split; [done|].
    intros i l x b Hl Hx Hb Hr. destruct (decide (i = h)) as [->|Hne].
    + rewrite Hh in Hl. injection Hl as <-. by eapply Hhome.
    + by eapply Hmin'.
  - (* slot [j] of bucket [bktid] is recycled *)
    rewrite decide_False by done. apply wp_ret.
    set (s2 := set_trace (trace s1 ++ [EvAcquire h]) s1).
    assert (cache s2 = cache s) as Hc2 by done.
    destruct (list_elem_of_split _ _ Hj) as (l1 & l2 & ->).
    pose proof (pv_j_in (cache s) ls Hinv bktid j l1 l2 Hld) as HPin.
    pose proof (nx_j_in (cache s) ls Hinv bktid j l1 l2 Hld) as HNin.
    pose proof (nx_head_in (cache s) ls Hinv h lh Hh) as HFin.
    assert (Head h <> pv (cache s) (Buf j)) as HHP.
    { intros Heq. eapply (donor_not_home (cache s) ls Hinv bktid h j l1 l2 lh);
        [done..|left; exact HPin| |by symmetry]. apply elem_of_app. right. left. }
    eapply (wp_unlink (cache s) (nx (cache s)) (pv (cache s))).
    { rewrite Hc2. apply follows_refl. }
    { eauto. }
    { eapply (inv_node _ _ bktid); [done..|]. rewrite fmap_app, <- app_assoc.
      rewrite app_comm_cons. apply elem_of_app. by left. }
    { eapply (inv_node _ _ bktid); [done..|]. rewrite fmap_app, fmap_cons, <- app_assoc.
      right. apply elem_of_app. right. simpl. by right. }
    intros c2 Hf2.
    eapply (wp_push (cache s)).
    { exact Hf2. }
    { done. }
    { by eapply inv_head. }
    { eauto. }
    { cbv beta. rewrite decide_False by done. eapply (inv_node _ _ h); [done..|]. by right. }
    cbv beta. rewrite !(decide_False (P := Head h = pv (cache s) (Buf j))) by done.
    intros c6 (Hpay & Hnx & Hpv).
    destruct (follows_is_Some _ _ _ _ (Buf j) (conj Hpay (conj Hnx Hpv))) as [b' Hb']; [eauto|].
    assert (payload b' = payload b0) as Hpb.
    { specialize (Hpay (Buf j)). rewrite Hb' in Hpay.
      change (deref (cache s) (Buf j)) with (bufs (cache s) !! j) in Hpay.
      rewrite Hb0 in Hpay.
      change (Some (payload b') = Some (payload b0)) in Hpay. congruence. }
    apply wp_bind. eapply wp_eq; [by apply (rebind_at (Buf j) b')|].
    set (b1 := set_refcnt 1 (set_valid 0 (set_blockno bn (set_dev dv b')))).
    set (c1 := upd c6 (Buf j) b1).
    assert (reclaim (cache s) ls h dv bn j bktid c1) as Hrec.
    { split; [done|]. split; [by exists (l1 ++ j :: l2)|]. split; [|split].
      - exists b0. repeat split; try done.
        intros i l x b Hl Hx Hb Hr. destruct (decide (i = h)) as [->|Hne].
        + rewrite Hh in Hl. injection Hl as <-.
          etrans; [|by eapply Hhome]. lia.
        + by eapply Hmin'.
      - split; [|split; [|split]].
        + intros q Hq. unfold c1. rewrite deref_upd_ne by done. apply Hpay.
        + exists b0, b1. split; [done|]. split.
          * apply (deref_upd_eq c6 (Buf j)). eauto.
          * unfold payload in *. simpl. by injection Hpb as _ _ _ -> _ -> ->.
        + intros q. unfold c1. erewrite nx_upd_same; [|exact Hb'|done].
          rewrite Hnx. repeat case_decide; congruence.
        + intros q. unfold c1. erewrite pv_upd_same; [|exact Hb'|done].
          rewrite Hpv. repeat case_decide; congruence.
      - by eapply (move_inv (cache s) c6 ls bktid h j _ lh b' bn b1). }
    assert (bufs c1 !! j = Some b1) as Hb1.
    { apply (deref_upd_eq c6 (Buf j)). eauto. }
    assert (lock b1 = lock b0) as Hlk.
    { unfold payload in Hpb. simpl. by injection Hpb. }
    apply wp_bind, wp_emit, wp_bind, wp_emit.
    unfold acquiresleep. apply wp_bind, wp_bind, wp_emit.
    apply wp_bind, (wp_load_at _ b1); [exact Hb1|].
    destruct (lock b1) eqn:Hlb1.
    + (* the sleep-lock of the slot is taken: wait *)
      split; [done|]. split; [done|]. split.
      { simpl. rewrite Htr1, <- !app_assoc. eauto. }
      exists j, bktid, c1, b1. rewrite Hlb1. done.
    + apply wp_store; [|intros Hn; exfalso; change (bufs c1 !! j = None) in Hn; congruence].
      intros _. apply wp_ret.
      split; [done|]. split; [done|]. split.
      { simpl. rewrite Htr1, <- !app_assoc. eauto. }
      exists j, bktid, c1, b1. done.
Qed.

Lemma bget_evict s ls pid dv bn h lh mt ch :
  inv (cache s) ls ->
  hash (to_int bn) = Z.of_nat h -> ls !! h = Some lh ->
  first_match (cache s) dv bn lh = None ->
  lru_fold (cache s) (rev lh) maxtick0 Null false = (mt, Null, ch) ->
  after_eviction s ls h pid dv bn (bget pid dv bn s).
Proof.
  intros Hinv Hhash Hh Hm Hlru.
  erewrite bget_to_eviction by done.
  apply lru_fold_spec in Hlru as (_ & Hmin & [(-> & _)|(_ & _ & j & b & _ & [=] & _)]).
  pose proof (eviction_spec (set_trace (trace s ++ [EvAcquire h; EvRelease h]) s)
                ls pid dv bn h lh Hinv Hhash Hh Hm) as Hev.
  destruct Hev as (Ht & Hd & (t & Htr) & Hcase).
  { intros x b Hx. apply Hmin. by apply elem_of_rev. }
  split; [done|]. split; [done|]. split; [|done].
  simpl in Htr. rewrite <- app_assoc in Htr. eauto.
Qed.

(** ** [binit] *)

Lemma wp_for_each {X} (l : list X) (body : X -> M unit) (I : list X -> state -> Prop) E s :
  I [] s ->
  (forall pre x post s', l = pre ++ x :: post -> I pre s' ->
                         wp (body x) (fun _ s'' => I (pre ++ [x]) s'') E s') ->
  wp (for_each l body) (fun _ s' => I l s') E s.
Proof.
  intros H0 Hstep.
  enough (forall rest pre s', l = pre ++ rest -> I pre s' ->
            wp (for_each rest body) (fun _ s'' => I l s'') E s') as Hgen.
  { by apply (Hgen l []). }
  induction rest as [|x rest IH]; intros pre s' Hl HI; simpl.
  - apply wp_ret. rewrite app_nil_r in Hl. by subst.
  - apply wp_bind. eapply wp_mono; [exact (Hstep pre x rest s' Hl HI)| |done].
    intros [] s'' HI'. cbv beta in HI'. apply (IH (pre ++ [x])); [|done].
    by rewrite <- app_assoc.
Qed.

(** Putting a slot first on a list, with the links it takes. *)
Lemma push_dll c c' h j lh :
  dll c h lh -> NoDup lh -> j ∉ lh ->
  (forall q, nx c' q = if decide (q = Head h) then Buf j
                       else if decide (q = Buf j) then nx c (Head h) else nx c q) ->
  (forall q, pv c' q = if decide (q = nx c (Head h)) then Buf j
                       else if decide (q = Buf j) then Head h else pv c q) ->
  dll c' h (j :: lh).
Proof.
  intros Hl Hnd Hj Hnx Hpv. unfold dll in *.
  destruct (first_cases (Buf <$> lh) (Head h)) as (F & Z & HZ & HF & Hsub & HFZ).
  rewrite fmap_cons. simpl. rewrite HZ in Hl |- *.
  pose proof Hl as (HnF & _). subst F.
  assert (forall q, q ∈ (Buf <$> lh) ++ [Head h] -> q <> Buf j) as HnJ.
  { intros q [(x & -> & Hx)%list_elem_of_fmap| ->%list_elem_of_singleton]%elem_of_app; [|done].
    by intros [= ->]. }
  apply (links_push c).
  - done.
  - rewrite Hnx. by rewrite decide_True.
  - rewrite Hpv. rewrite decide_False by (apply not_eq_sym, HnJ, HF). by rewrite decide_True.
  - rewrite Hnx. rewrite decide_False by done. by rewrite decide_True.
  - rewrite Hpv. by rewrite decide_True.
  - intros q Hq. rewrite <- HZ, removelast_last in Hq. rewrite Hnx.
    rewrite decide_False.
    + rewrite decide_False; [done|]. apply HnJ, elem_of_app. by left.
    + apply list_elem_of_fmap in Hq as (x & -> & _). done.
  - intros q Hq. rewrite Hpv. rewrite decide_False.
    + rewrite decide_False; [done|]. apply HnJ, Hsub, Hq.
    + intros ->. apply HFZ; [|done]. by apply NoDup_nodes_r.
Qed.

Lemma set_lock_id b : set_lock (lock b) b = b.
Proof. by destruct b. Qed.

Lemma dll_first c h lh : dll c h lh -> nx c (Head h) ∈ (Buf <$> lh) ++ [Head h].
Proof.
  unfold dll. destruct (first_cases (Buf <$> lh) (Head h)) as (F & Z & -> & _).
  intros (-> & _). left.
Qed.

Lemma deref_boot q :
  deref (cache boot) q =
  match q with
  | Null => None
  | Head i => if decide (i < NBUCKET) then Some buf0 else None
  | Buf j => if decide (j < NBUF) then Some buf0 else None
  end.
Proof.
  destruct q as [|i|j]; simpl; [done| |].
  - case_decide; [by apply lookup_replicate_2|]. apply lookup_replicate_None. lia.
  - case_decide; [by apply lookup_replicate_2|]. apply lookup_replicate_None. lia.
Qed.

(** The state in which the linked lists have been created: every slot is
    on the list of bucket 0, last initialised first, and is otherwise as
    it was at boot. *)
Lemma binit_spec :
  0 < NBUCKET ->
  wp binit
     (fun _ s' =>
        inv (cache s') (rev (seq 0 NBUF) :: replicate (NBUCKET - 1) []) /\
        (forall q, payload <$> deref (cache s') q = payload <$> deref (cache boot) q) /\
        ticks s' = 0%Z /\ disk s' = ∅ /\ trace s' = [])
     (fun _ _ => False) boot.
Proof.
  intros Hpos. unfold binit. apply wp_bind.
  set (env := fun s : state => ticks s = 0%Z /\ disk s = ∅ /\ trace s = []).
  set (c0 := cache boot).
  (* the sentinels *)
  eapply wp_mono;
    [apply (wp_for_each _ _
              (fun pre s => env s /\ exists fn fp, follows c0 (cache s) fn fp /\
                 forall i, i ∈ pre -> fn (Head i) = Head i /\ fp (Head i) = Head i)
              (fun _ _ => False))| |done].
  { split; [done|]. exists (nx c0), (pv c0). split; [apply follows_refl|].
    by intros i ?%elem_of_nil. }
  { intros pre i post s Hseq (Henv & fn & fp & Hf & Hself).
    assert (i < NBUCKET) as Hi.
    { assert (i ∈ seq 0 NBUCKET) as Hin by (rewrite Hseq; apply elem_of_app; right; left).
      apply elem_of_seq in Hin. lia. }
    assert (is_Some (deref c0 (Head i))) as Hv.
    { unfold c0. rewrite deref_boot. rewrite decide_True by done. eauto. }
    apply wp_bind. eapply wp_set_prev; [exact Hf|done|]. intros c1 Hf1.
    eapply wp_set_next; [exact Hf1|done|]. intros c2 Hf2.
    split; [done|]. eexists _, _. split; [exact Hf2|].
    intros i' [Hi'| ->%list_elem_of_singleton]%elem_of_app.
    - destruct (Hself i' Hi') as [H1 H2]. split; case_decide; congruence.
    - by rewrite !decide_True. }
  intros [] s1 (Henv1 & fn & fp & (Hpay1 & Hn1 & Hp1) & Hself). cbv beta.
  (* the slots *)
  eapply wp_mono;
    [apply (wp_for_each _ _
              (fun pre s => env s /\
                 (forall q, payload <$> deref (cache s) q = payload <$> deref c0 q) /\
                 dll (cache s) 0 (rev pre) /\
                 forall i, 0 < i < NBUCKET -> dll (cache s) i [])
              (fun _ _ => False))| |done].
  { split; [done|]. split; [done|].
    assert (forall i, i < NBUCKET -> dll (cache s1) i []) as Hd.
    { intros i Hi. destruct (Hself i) as [H1 H2]; [apply elem_of_seq; lia|].
      unfold dll. simpl. rewrite Hn1, Hp1. done. }
    split; [by apply Hd|]. intros i Hi. apply Hd. lia. }
  { intros pre j post s Hseq (Henv & Hpay & Hd0 & Hdi).
    assert (NoDup (pre ++ j :: post)) as Hnd by (rewrite <- Hseq; apply NoDup_seq).
    assert (j ∉ pre) as Hjpre.
    { apply NoDup_app in Hnd as (_ & Hx & _). intros Hin. apply (Hx j Hin). left. }
    assert (forall x, x ∈ pre ++ j :: post -> x < NBUF) as Hlt.
    { intros x Hx. rewrite <- Hseq in Hx. apply elem_of_seq in Hx. lia. }
    assert (forall q, is_Some (deref c0 q) -> is_Some (deref (cache s) q)) as Hval.
    { intros q [b Hb]. specialize (Hpay q). rewrite Hb in Hpay.
      destruct (deref (cache s) q); [eauto|done]. }
    assert (is_Some (deref (cache s) (Head 0))) as HvH.
    { apply Hval. unfold c0. rewrite deref_boot, decide_True by done. eauto. }
    assert (forall x, x ∈ pre ++ j :: post -> is_Some (deref (cache s) (Buf x))) as HvB.
    { intros x Hx. apply Hval. unfold c0. rewrite deref_boot, decide_True by auto. eauto. }
    pose proof (dll_first _ _ _ Hd0) as HF.
    assert (is_Some (deref (cache s) (nx (cache s) (Head 0)))) as HvF.
    { apply elem_of_app in HF as [(x & -> & Hx)%list_elem_of_fmap| ->%list_elem_of_singleton];
        [|done].
      apply HvB, elem_of_app. left. by apply elem_of_rev. }
    pose proof (follows_refl (cache s)) as Hf.
    apply wp_bind. eapply wp_read_links; [exact Hf|done|]. intros r -> _.
    apply wp_bind. eapply wp_set_next; [exact Hf|apply HvB, elem_of_app; right; left|].
    intros c1 Hf1.
    apply wp_bind. eapply wp_set_prev; [exact Hf1|apply HvB, elem_of_app; right; left|].
    intros c2 Hf2.
    (* the sleep-lock of a slot is free since boot *)
    destruct (follows_is_Some _ _ _ _ (Buf j) Hf2) as [r2 Hr2];
      [apply HvB, elem_of_app; right; left|].
    assert (lock r2 = None) as Hlk.
    { destruct Hf2 as (Hpay2 & _). specialize (Hpay2 (Buf j)). rewrite Hpay in Hpay2.
      unfold c0 in Hpay2. rewrite Hr2, deref_boot, decide_True in Hpay2.
      - change (Some (payload r2) = Some (payload buf0)) in Hpay2.
        unfold payload in Hpay2. by injection Hpay2.
      - apply Hlt, elem_of_app. right. left. }
    apply wp_bind. unfold initsleeplock. eapply wp_modify_at; [exact Hr2|].
    rewrite <- Hlk, set_lock_id. norm. rewrite (upd_id c2) by done.
    apply wp_bind. eapply wp_read_links; [exact Hf2|done|]. intros r' Hn _.
    cbv beta in Hn. rewrite decide_False in Hn by done. rewrite Hn.
    apply wp_bind. eapply wp_set_prev; [exact Hf2|done|]. intros c3 Hf3.
    eapply wp_set_next; [exact Hf3|done|]. intros c4 (Hpay4 & Hn4 & Hp4).
    split; [done|]. split; [|split].
    - intros q. norm. by rewrite Hpay4.
    - rewrite rev_app_distr. simpl. norm.
      eapply (push_dll (cache s)); [exact Hd0| | |exact Hn4|exact Hp4].
      + apply NoDup_app in Hnd as (Hnd & _).
        apply NoDup_ListNoDup, List.NoDup_rev, NoDup_ListNoDup, Hnd.
      + by rewrite elem_of_rev.
    - intros i Hi. specialize (Hdi i Hi). norm.
      destruct Hdi as (H1 & H2 & _).
      assert (Head i <> Head 0) as Hne1 by (intros [=]; lia).
      assert (Head i <> nx (cache s) (Head 0)) as Hne3.
      { intros Heq. rewrite <- Heq in HF.
        apply elem_of_app in HF as [(x & ? & _)%list_elem_of_fmap|Hx%list_elem_of_singleton];
          [done|]. by apply Hne1. }
      split; [|split; [|done]].
      + rewrite Hn4. by rewrite !decide_False.
      + rewrite Hp4. by rewrite !decide_False. }
  intros [] s2 (Henv2 & Hpay2 & Hd0 & Hdi). cbv beta. split; [|done].
  assert (length (bufs (cache s2)) = NBUF /\ length (heads (cache s2)) = NBUCKET) as [Hlb Hlh].
  { destruct (follows_lengths c0 (cache s2) (nx (cache s2)) (pv (cache s2))) as [-> ->]; [done|].
    unfold c0. simpl. by rewrite !length_replicate. }
  split; try done.
  - simpl. rewrite length_replicate. lia.
  - intros [|i] l Hl; simpl in Hl.
    + by injection Hl as <-.
    + apply lookup_replicate in Hl as [-> Hi]. apply Hdi. lia.
  - simpl. assert (concat (replicate (NBUCKET - 1) (@nil nat)) = []) as ->.
    { induction (NBUCKET - 1); [done|]. simpl. done. }
    rewrite app_nil_r. symmetry. apply Permutation_rev.
  - intros i l j b Hl Hj Hb.
    assert (blockno b = 0%Z) as ->.
    { specialize (Hpay2 (Buf j)).
      change (deref (cache s2) (Buf j)) with (bufs (cache s2) !! j) in Hpay2.
      rewrite Hb in Hpay2.
      unfold c0 in Hpay2. rewrite deref_boot in Hpay2. case_decide; [|done].
      change (Some (payload b) = Some (payload buf0)) in Hpay2.
      unfold payload in Hpay2. by injection Hpay2. }
    destruct i as [|i]; simpl in Hl.
    + unfold hash, to_int. simpl. by rewrite Z.rem_0_l by lia.
    + apply lookup_replicate in Hl as [-> _]. by apply elem_of_nil in Hj.
Qed.

(** ** The decision procedure for the invariant *)

Lemma links_check_sound c l : links_check c l = true -> links c l.
Proof.
  induction l as [|a l IH]; [done|]. destruct l as [|b l]; [done|].
  intros Hc. change (bool_decide (nx c a = b) && bool_decide (pv c b = a)
                     && links_check c (b :: l) = true) in Hc.
  apply andb_prop in Hc as [[Hn%bool_decide_eq_true Hp%bool_decide_eq_true]%andb_prop Hl].
  apply links_cons. auto.
Qed.

Lemma buckets_check_sound c i ls k l :
  buckets_check c i ls = true -> ls !! k = Some l ->
  dll c (i + k) l /\
  forall j b, j ∈ l -> bufs c !! j = Some b ->
              hash (to_int (blockno b)) = Z.of_nat (i + k).
Proof.
  revert i k. induction ls as [|l' ls IH]; intros i k Hc Hk; [done|].
  simpl in Hc. apply andb_prop in Hc as [[Hl Hh]%andb_prop Hrest].
  destruct k as [|k]; simpl in Hk.
  - injection Hk as ->. rewrite Nat.add_0_r. split; [by apply links_check_sound|].
    intros j b Hj Hb. rewrite forallb_forall in Hh.
    apply list_elem_of_In, Hh in Hj. unfold hash_check in Hj. rewrite Hb in Hj.
    by apply bool_decide_eq_true in Hj.
  - replace (i + S k) with (S i + k) by lia. by apply IH.
Qed.

Lemma inv_check_sound c ls : inv_check c ls = true -> inv c ls.
Proof.
  unfold inv_check.
  intros [[[[Hb%bool_decide_eq_true Hh%bool_decide_eq_true]%andb_prop
              Hl%bool_decide_eq_true]%andb_prop Hbk]%andb_prop
            Hp%bool_decide_eq_true]%andb_prop.
  split; try done.
  - intros i l Hi. by apply (buckets_check_sound c 0 ls i l).
  - intros i l j b Hi Hj Hbj. by eapply (buckets_check_sound c 0 ls i l).
Qed.

(** ** [bread] after [bget] *)

Lemma bread_stop pid dv bn e s s1 :
  bget pid dv bn s = Stop e s1 -> bread pid dv bn s = Stop e s1.
Proof. intros Hg. unfold bread. by erewrite bind_stop. Qed.

Lemma bread_ok pid dv bn p b1 s s1 :
  bget pid dv bn s = Ok p s1 ->
  deref (cache s1) p = Some b1 ->
  bread pid dv bn s =
  Ok p (if decide (valid b1 = 0%Z)
        then mkstate
               (upd (cache s1) p
                  (set_valid 1 (set_data (default (replicate BSIZE 0%Z)
                                            (disk s1 !! (dev b1, blockno b1))) b1)))
               (ticks s1) (disk s1) (trace s1 ++ [EvDiskRW p false])
        else s1).
Proof.
  intros Hg Hp. unfold bread.
  erewrite bind_ok; [|exact Hg].
  erewrite bind_ok; [|by apply load_at].
  case_decide as Hv.
  - erewrite bind_ok; [done|].
    unfold virtio_disk_rw.
    erewrite bind_ok; last first.
    { erewrite bind_ok; [|reflexivity].
      erewrite bind_ok; [|by apply load_at].
      unfold store. norm. rewrite Hp. reflexivity. }
    erewrite modify_at; [|deref_solve]. norm. by rewrite upd_upd.
  - by erewrite bind_ok.
Qed.

(** ** Every way [bget] ends *)

Theorem bget_admission s ls pid dv bn :
  inv (cache s) ls -> admission s ls pid dv bn (bget pid dv bn s).
Proof.
  intros Hinv.
  destruct (decide (0 <= hash (to_int bn) < Z.of_nat NBUCKET)%Z) as [Hr|Hr].
  2:{ replace (bget pid dv bn s) with (@Stop ptr Fault s); [by apply adm_range|].
      unfold bget. by erewrite bind_stop by (by apply index_bad). }
  assert (exists h, hash (to_int bn) = Z.of_nat h /\ h < NBUCKET) as (h & Hh & Hlt).
  { exists (Z.to_nat (hash (to_int bn))). lia. }
  destruct (inv_bucket _ _ Hinv h Hlt) as [l Hl].
  destruct (first_match (cache s) dv bn l) as [j|] eqn:Hm.
  - (* cached *)
    destruct (first_match_Some _ _ _ _ _ Hm) as (Hj & b & Hb & _).
    rewrite (bget_hit s ls Hinv pid dv bn h l Hh Hl j b Hm Hb).
    pose proof (adm_hit s ls pid dv bn h l j b Hh Hl Hm Hb) as Ha.
    unfold hand_over in Ha. norm in Ha. cbv zeta. by destruct (lock b).
  - destruct (lru_fold (cache s) (rev l) maxtick0 Null false) as [[mt cz] ch] eqn:Hlru.
    pose proof (lru_fold_spec _ _ _ _ _ _ _ _ Hlru)
      as (_ & Hmin & [(-> & -> & ->)|(-> & Hlt0 & j & b & Hj & -> & Hb & Hr0 & <-)]).
    + (* nothing to recycle at home *)
      eapply adm_evict; [done..| |by eapply bget_evict].
      intros x bx Hx. apply Hmin. by apply elem_of_rev.
    + (* a slot of the home bucket is recycled *)
      rewrite elem_of_rev in Hj.
      rewrite (bget_local s ls Hinv pid dv bn h l Hh Hl j b _ _ Hm Hlru Hb).
      assert (forall x bx, x ∈ l -> bufs (cache s) !! x = Some bx -> refcnt bx = 0%Z ->
                (lastuse b <= lastuse bx)%Z) as Hmin'.
      { intros x bx Hx. apply Hmin. by apply elem_of_rev. }
      pose proof (adm_local s ls pid dv bn h l j b _ _ Hh Hl Hm Hlru Hj Hb Hr0 Hlt0 Hmin') as Ha.
      unfold hand_over in Ha. norm in Ha. cbv zeta. by destruct (lock b).
Qed.

(** ** Every way the other calls end *)

Lemma state_of_bind_ret {X} (m : M X) s : state_of ((m ;; ret tt) s) = state_of (m s).
Proof. unfold bind. by destruct (m s). Qed.

Lemma bread_cases pid dv bn s :
  state_of (bread pid dv bn s) = state_of (bget pid dv bn s) \/
  exists p s1 b1,
    bget pid dv bn s = Ok p s1 /\ deref (cache s1) p = Some b1 /\ valid b1 = 0%Z /\
    bread pid dv bn s =
    Ok p (mkstate
            (upd (cache s1) p
               (set_valid 1 (set_data (default (replicate BSIZE 0%Z)
                                         (disk s1 !! (dev b1, blockno b1))) b1)))
            (ticks s1) (disk s1) (trace s1 ++ [EvDiskRW p false])).
Proof.
  destruct (bget pid dv bn s) as [p s1|e s1] eqn:Hg.
  - destruct (deref (cache s1) p) as [b1|] eqn:Hp.
    + rewrite (bread_ok pid dv bn p b1 s s1 Hg Hp). case_decide as Hv.
      * right. by exists p, s1, b1.
      * by left.
    + left. unfold bread. erewrite bind_ok; [|exact Hg].
      erewrite bind_stop; [done|]. unfold load. by rewrite Hp.
  - left. by rewrite (bread_stop pid dv bn e s s1 Hg).
Qed.

Lemma brelse_cache s ls pid j :
  inv (cache s) ls ->
  cache (state_of (brelse pid (Buf j) s)) =
  match bufs (cache s) !! j with
  | Some b =>
      if decide (lock b = Some pid)
      then upd (cache s) (Buf j)
             (let b1 := set_refcnt (to_uint (refcnt b - 1)) (set_lock None b) in
              if decide (refcnt b1 = 0%Z) then set_lastuse (ticks s) b1 else b1)
      else cache s
  | None => cache s
  end.
Proof.
  intros Hinv. destruct (bufs (cache s) !! j) as [b|] eqn:Hb.
  - destruct (inv_owner_hash _ _ _ _ Hinv Hb) as (i & l & Hi & Hj & Hlt & Hh).
    case_decide as Hl.
    + by rewrite (brelse_ok pid (Buf j) b i s).
    + by rewrite (brelse_panic pid (Buf j) b s).
  - unfold brelse, holdingsleep.
    erewrite bind_stop; [done|]. erewrite bind_stop; [done|].
    unfold load. simpl. by rewrite Hb.
Qed.

Lemma bpin_cache s ls j :
  inv (cache s) ls ->
  cache (state_of (bpin (Buf j) s)) =
  match bufs (cache s) !! j with
  | Some b => upd (cache s) (Buf j) (set_refcnt (to_uint (refcnt b + 1)) b)
  | None => cache s
  end.
Proof.
  intros Hinv. destruct (bufs (cache s) !! j) as [b|] eqn:Hb.
  - destruct (inv_owner_hash _ _ _ _ Hinv Hb) as (i & l & Hi & Hj & Hlt & Hh).
    by rewrite (bpin_ok (Buf j) b i s).
  - unfold bpin. erewrite bind_stop; [done|]. unfold load. simpl. by rewrite Hb.
Qed.

Lemma bunpin_cache s ls j :
  inv (cache s) ls ->
  cache (state_of (bunpin (Buf j) s)) =
  match bufs (cache s) !! j with
  | Some b => upd (cache s) (Buf j) (set_refcnt (to_uint (refcnt b - 1)) b)
  | None => cache s
  end.
Proof.
  intros Hinv. destruct (bufs (cache s) !! j) as [b|] eqn:Hb.
  - destruct (inv_owner_hash _ _ _ _ Hinv Hb) as (i & l & Hi & Hj & Hlt & Hh).
    by rewrite (bunpin_ok (Buf j) b i s).
  - unfold bunpin. erewrite bind_stop; [done|]. unfold load. simpl. by rewrite Hb.
Qed.

Lemma bwrite_cache s pid j : cache (state_of (bwrite pid (Buf j) s)) = cache s.
Proof.
  destruct (bufs (cache s) !! j) as [b|] eqn:Hb.
  - destruct (decide (lock b = Some pid)) as [Hl|Hl].
    + by rewrite (bwrite_ok pid (Buf j) b s).
    + by rewrite (bwrite_panic pid (Buf j) b s).
  - unfold bwrite, holdingsleep.
    erewrite bind_stop; [done|]. erewrite bind_stop; [done|].
    unfold load. simpl. by rewrite Hb.
Qed.

(** A block that is cached is handed over in the slot that holds it. *)
Lemma bget_cached s ls pid dv bn h l j b :
  inv (cache s) ls ->
  hash (to_int bn) = Z.of_nat h -> ls !! h = Some l ->
  first_match (cache s) dv bn l = Some j ->
  bufs (cache s) !! j = Some b ->
  bget pid dv bn s =
  hand_over pid j (set_refcnt (to_uint (refcnt b + 1)) b)
    [EvAcquire h; EvRelease h; EvAcquireSleep (Buf j)] s.
Proof.
  intros Hinv Hh Hl Hm Hb.
  rewrite (bget_hit s ls Hinv pid dv bn h l Hh Hl j b Hm Hb).
  unfold hand_over. norm. cbv zeta. by destruct (lock b).
Qed.

(** ** The cache after [bget] *)

Lemma hand_over_cache pid j b1 t s :
  exists b2, (b2 = b1 \/ b2 = set_lock (Some pid) b1) /\
             cache (state_of (hand_over pid j b1 t s)) = upd (cache s) (Buf j) b2.
Proof.
  unfold hand_over. destruct (lock b1).
  - exists b1. split; [by left|done].
  - exists (set_lock (Some pid) b1). split; [by right|done].
Qed.

Lemma after_eviction_cache s ls h pid dv bn r :
  after_eviction s ls h pid dv bn r ->
  (cache (state_of r) = cache s /\ exhausted (cache s) ls /\
   exists s', r = Stop (Panic "bget: no buffers") s') \/
  exists j d c1 b1 b2,
    reclaim (cache s) ls h dv bn j d c1 /\ bufs c1 !! j = Some b1 /\
    (b2 = b1 \/ b2 = set_lock (Some pid) b1) /\
    cache (state_of r) = upd c1 (Buf j) b2.
Proof.
  intros (_ & _ & _ & Hr). destruct r as [p s'|[msg|p| |] s']; try done.
  - destruct Hr as (j & d & c1 & b1 & -> & Hrc & Hb1 & Hl & Hc).
    right. exists j, d, c1, b1, (set_lock (Some pid) b1). eauto.
  - destruct Hr as (-> & Hc & Hex). left. eauto.
  - destruct Hr as (j & d & c1 & b1 & -> & Hrc & Hb1 & Hl & Hc).
    right. exists j, d, c1, b1, b1.
    split; [done|]. split; [done|]. split; [by left|].
    change (cache (state_of (Stop (Sleep (Buf j)) s'))) with (cache s').
    rewrite Hc. symmetry. by apply upd_id.
Qed.

(** A slot read through [bufs] after an assignment to a slot. *)
Lemma bufs_upd c j b x :
  is_Some (bufs c !! j) ->
  bufs (upd c (Buf j) b) !! x = if decide (x = j) then Some b else bufs c !! x.
Proof.
  intros Hj. change (bufs (upd c (Buf j) b) !! x) with (deref (upd c (Buf j) b) (Buf x)).
  rewrite deref_upd by done.
  destruct (decide (x = j)) as [->|Hne].
  - by rewrite decide_True.
  - rewrite decide_False by congruence. done.
Qed.

(** [bget] writes no last-use tick. *)
Lemma bget_lastuse s ls pid dv bn j b b' :
  inv (cache s) ls ->
  bufs (cache s) !! j = Some b ->
  bufs (cache (state_of (bget pid dv bn s))) !! j = Some b' ->
  lastuse b' = lastuse b.
Proof.
  intros Hinv Hb Hb'.
  pose proof (bget_admission s ls pid dv bn Hinv) as Ha.
  inversion Ha as [Hr Heq|h l j0 b0 Hh Hl Hm Hb0 Heq|h l j0 b0 mt ch Hh Hl Hm Hf Hj0 Hb0 Hrf Hlt Hmin Heq
                  |h l r Hh Hl Hm Hno Hev Heq]; rewrite <- Heq in Hb'.
  - simpl in Hb'. congruence.
  - destruct (hand_over_cache pid j0 (set_refcnt (to_uint (refcnt b0 + 1)) b0)
                [EvAcquire h; EvRelease h; EvAcquireSleep (Buf j0)] s) as (b2 & Hb2 & Hc).
    rewrite Hc, bufs_upd in Hb' by eauto.
    destruct (decide (j = j0)) as [->|Hne]; [|congruence].
    assert (b0 = b) by congruence. subst b0.
    destruct Hb2 as [->| ->]; by inversion Hb'.
  - destruct (hand_over_cache pid j0
                (set_refcnt 1 (set_valid 0 (set_blockno bn (set_dev dv b0))))
                [EvAcquire h; EvRelease h; EvAcquireSleep (Buf j0)] s) as (b2 & Hb2 & Hc).
    rewrite Hc, bufs_upd in Hb' by eauto.
    destruct (decide (j = j0)) as [->|Hne]; [|congruence].
    assert (b0 = b) by congruence. subst b0.
    destruct Hb2 as [->| ->]; by inversion Hb'.
  - destruct (after_eviction_cache _ _ _ _ _ _ _ Hev)
      as [(Hc & _)|(j0 & d & c1 & b1 & b2 & Hrc & Hb1 & Hb2 & Hc)].
    + rewrite Heq, Hc in Hb'. congruence.
    + rewrite Heq, Hc, bufs_upd in Hb' by eauto.
      destruct Hrc as (_ & _ & _ & (Hpay & (b0' & b1' & Hb0' & Hb1' & Hp1) & _) & _).
      destruct (decide (j = j0)) as [->|Hne].
      * assert (b1' = b1) by congruence. subst b1'.
        assert (b0' = b) by congruence. subst b0'.
        assert (lastuse b1 = lastuse b) by (unfold payload in Hp1; congruence).
        destruct Hb2 as [->| ->]; inversion Hb'; by subst.
      * assert (Buf j <> Buf j0) as Hq by congruence.
        specialize (Hpay (Buf j) Hq).
        change (deref c1 (Buf j)) with (bufs c1 !! j) in Hpay.
        change (deref (cache s) (Buf j)) with (bufs (cache s) !! j) in Hpay.
        rewrite Hb', Hb in Hpay.
        assert (payload b' = payload b) as Hpp by (simpl in Hpay; congruence).
        unfold payload in Hpp. congruence.
Qed.

(** [bread] adds to [bget] one assignment of [valid] and [data] to the slot
    it got, or nothing. *)
Lemma bread_cache pid dv bn s :
  cache (state_of (bread pid dv bn s)) = cache (state_of (bget pid dv bn s)) \/
  exists p b1 dt,
    deref (cache (state_of (bget pid dv bn s))) p = Some b1 /\
    cache (state_of (bread pid dv bn s)) =
    upd (cache (state_of (bget pid dv bn s))) p (set_valid 1 (set_data dt b1)).
Proof.
  destruct (bread_cases pid dv bn s) as [->|(p & s1 & b1 & Hg & Hp & Hv & ->)].
  - by left.
  - right. rewrite Hg. by eexists p, b1, _.
Qed.

Lemma bread_lastuse s ls pid dv bn j b b' :
  inv (cache s) ls ->
  bufs (cache s) !! j = Some b ->
  bufs (cache (state_of (bread pid dv bn s))) !! j = Some b' ->
  lastuse b' = lastuse b.
Proof.
  intros Hinv Hb Hb'.
  destruct (bread_cache pid dv bn s) as [Hc|(p & b1 & dt & Hp & Hc)]; rewrite Hc in Hb'.
  - by eapply bget_lastuse.
  - change (deref (upd (cache (state_of (bget pid dv bn s))) p
                     (set_valid 1 (set_data dt b1))) (Buf j) = Some b') in Hb'.
    rewrite deref_upd in Hb' by eauto.
    destruct (decide (Buf j = p)) as [<-|Hne].
    + inversion Hb'. simpl. by eapply bget_lastuse.
    + by eapply bget_lastuse.
Qed.

(** The pointers of a cache say what its lists are. *)
Lemma links_unique c p i l l' :
  links c (p :: (Buf <$> l) ++ [Head i]) ->
  links c (p :: (Buf <$> l') ++ [Head i]) ->
  l = l'.
Proof.
  revert p l'. induction l as [|x l IH]; intros p [|y l'] H1 H2.
  - done.
  - apply links_cons in H1 as (H1 & _). apply links_cons in H2 as (H2 & _). congruence.
  - apply links_cons in H1 as (H1 & _). apply links_cons in H2 as (H2 & _). congruence.
  - change (links c (p :: Buf x :: (Buf <$> l) ++ [Head i])) in H1.
    change (links c (p :: Buf y :: (Buf <$> l') ++ [Head i])) in H2.
    apply links_cons in H1 as (Hx & _ & H1). apply links_cons in H2 as (Hy & _ & H2).
    assert (x = y) as <- by congruence.
    f_equal. by apply (IH (Buf x)).
Qed.

Lemma inv_unique c ls ls' : inv c ls -> inv c ls' -> ls = ls'.
Proof.
  intros H1 H2. apply list_eq. intros i.
  destruct (ls !! i) as [l|] eqn:Hl, (ls' !! i) as [l'|] eqn:Hl'.
  - f_equal. apply (links_unique c (Head i) i).
    + by apply (inv_dll _ _ H1).
    + by apply (inv_dll _ _ H2).
  - apply lookup_lt_Some in Hl. apply lookup_ge_None in Hl'.
    rewrite (inv_len _ _ H1) in Hl. rewrite (inv_len _ _ H2) in Hl'. lia.
  - apply lookup_lt_Some in Hl'. apply lookup_ge_None in Hl.
    rewrite (inv_len _ _ H1) in Hl. rewrite (inv_len _ _ H2) in Hl'. lia.
  - done.
Qed.

(** ** The buckets after a call *)

Lemma bget_inv s ls pid dv bn :
  inv (cache s) ls ->
  exists ls', inv (cache (state_of (bget pid dv bn s))) ls' /\
              (ls' = ls \/ relocated s ls (Bget pid dv bn) ls').
Proof.
  intros Hinv.
  pose proof (bget_admission s ls pid dv bn Hinv) as Ha.
  inversion Ha as [Hr Heq|h l j0 b0 Hh Hl Hm Hb0 Heq|h l j0 b0 mt ch Hh Hl Hm Hf Hj0 Hb0 Hrf Hlt Hmin Heq
                  |h l r Hh Hl Hm Hno Hev Heq].
  - exists ls. split; [done|by left].
  - destruct (hand_over_cache pid j0 (set_refcnt (to_uint (refcnt b0 + 1)) b0)
                [EvAcquire h; EvRelease h; EvAcquireSleep (Buf j0)] s) as (b2 & Hb2 & Hc).
    exists ls. split; [|by left]. rewrite Hc.
    apply (inv_upd_same _ _ _ b0); try done; by destruct Hb2 as [->| ->].
  - destruct (hand_over_cache pid j0
                (set_refcnt 1 (set_valid 0 (set_blockno bn (set_dev dv b0))))
                [EvAcquire h; EvRelease h; EvAcquireSleep (Buf j0)] s) as (b2 & Hb2 & Hc).
    exists ls. split; [|by left]. rewrite Hc.
    apply (inv_upd _ _ _ b0); try done; try by destruct Hb2 as [->| ->].
    intros j i l' [= <-] Hi Hj.
    assert (blockno b2 = bn) as -> by (by destruct Hb2 as [->| ->]).
    rewrite Hh. f_equal. by eapply (inv_one_list _ _ Hinv h i l l' j0).
  - destruct (after_eviction_cache _ _ _ _ _ _ _ Hev)
      as [(Hc & _)|(j0 & d & c1 & b1 & b2 & Hrc & Hb1 & Hb2 & Hc)].
    + exists ls. split; [|by left]. by rewrite Hc.
    + pose proof Hrc as (Hne & (ld & Hld & Hjd) & _ & (_ & (b0' & b1' & _ & Hb1' & Hp1) & _) & Hi1).
      assert (b1' = b1) by congruence. subst b1'.
      unfold payload in Hp1. injection Hp1 as Hv Hd Hbn _ Hrf _ _.
      exists (move j0 d h ls). split.
      * rewrite Hc. apply (inv_upd_same _ _ _ b1); try done; by destruct Hb2 as [->| ->].
      * right. exists pid, dv, bn, h, l, d, ld, j0, b2.
        split; [by left|]. do 7 (split; [done|]).
        split.
        { unfold run. rewrite state_of_bind_ret, Hc, bufs_upd by eauto.
          by rewrite decide_True. }
        by destruct Hb2 as [->| ->].
Qed.

Lemma bread_inv s ls pid dv bn :
  inv (cache s) ls ->
  exists ls', inv (cache (state_of (bread pid dv bn s))) ls' /\
              (ls' = ls \/ relocated s ls (Bread pid dv bn) ls').
Proof.
  intros Hinv. destruct (bget_inv s ls pid dv bn Hinv) as (ls' & Hinv' & Hls).
  exists ls'.
  assert (inv (cache (state_of (bread pid dv bn s))) ls' /\
          forall j b, bufs (cache (state_of (bget pid dv bn s))) !! j = Some b ->
                      exists b', bufs (cache (state_of (bread pid dv bn s))) !! j = Some b' /\
                                 dev b' = dev b /\ blockno b' = blockno b /\
                                 refcnt b' = refcnt b) as [Hi Hf].
  { destruct (bread_cache pid dv bn s) as [Hc|(p & b1 & dt & Hp & Hc)]; rewrite Hc.
    - split; [done|]. intros j b Hb. by exists b.
    - split; [by apply (inv_upd_same _ _ _ b1)|].
      intros j b Hb.
      change (bufs (upd (cache (state_of (bget pid dv bn s))) p
                      (set_valid 1 (set_data dt b1))) !! j)
        with (deref (upd (cache (state_of (bget pid dv bn s))) p
                       (set_valid 1 (set_data dt b1))) (Buf j)).
      rewrite deref_upd by eauto.
      destruct (decide (Buf j = p)) as [<-|Hne].
      + assert (b1 = b) as -> by (simpl in Hp; congruence). by eexists.
      + by exists b. }
  split; [done|].
  destruct Hls as [->|Hrel]; [by left|]. right.
  destruct Hrel as (pid' & dv' & bn' & h & lh & d & ld & j & b' & Hk & Hh & Hlh & Hm & Hne
                    & Hld & Hj & -> & Hb' & Hd & Hb & Hr & _).
  assert (pid' = pid /\ dv' = dv /\ bn' = bn) as (-> & -> & ->).
  { destruct Hk as [Hk|Hk]; by inversion Hk. }
  unfold run in Hb'. rewrite state_of_bind_ret in Hb'.
  destruct (Hf j b' Hb') as (b'' & Hb'' & Hd' & Hbn' & Hr').
  exists pid, dv, bn, h, lh, d, ld, j, b''.
  split; [by right|]. do 7 (split; [done|]).
  split; [unfold run; by rewrite state_of_bind_ret|].
  split; [congruence|]. split; [congruence|]. split; [congruence|]. done.
Qed.

Lemma run_inv s ls k :
  inv (cache s) ls ->
  exists ls', inv (cache (state_of (run k s))) ls' /\ (ls' = ls \/ relocated s ls k ls').
Proof.
  intros Hinv. destruct k as [pid dv bn|pid dv bn|pid j|pid j|j|j].
  - unfold run at 1. rewrite state_of_bind_ret. by apply bget_inv.
  - unfold run at 1. rewrite state_of_bind_ret. by apply bread_inv.
  - exists ls. split; [|by left]. unfold run. by rewrite bwrite_cache.
  - exists ls. split; [|by left]. unfold run. rewrite (brelse_cache s ls pid j Hinv).
    destruct (bufs (cache s) !! j) as [b|] eqn:Hb; [|done].
    case_decide; [|done]. cbv zeta.
    apply (inv_upd_same _ _ _ b); try done; by case_decide.
  - exists ls. split; [|by left]. unfold run. rewrite (bpin_cache s ls j Hinv).
    destruct (bufs (cache s) !! j) as [b|] eqn:Hb; [|done].
    by apply (inv_upd_same _ _ _ b).
  - exists ls. split; [|by left]. unfold run. rewrite (bunpin_cache s ls j Hinv).
    destruct (bufs (cache s) !! j) as [b|] eqn:Hb; [|done].
    by apply (inv_upd_same _ _ _ b).
Qed.

(** ** When the lists change *)

Lemma move_ne (ls : list (list nat)) j d h :
  d <> h -> is_Some (ls !! h) -> move j d h ls <> ls.
Proof.
  intros Hne [lh Hlh] Heq. apply (f_equal (fun l => l !! h)) in Heq.
  rewrite move_lookup, decide_True, Hlh in Heq by done. simpl in Heq.
  injection Heq as Heq. apply (f_equal length) in Heq. simpl in Heq. lia.
Qed.

Lemma borrows_bucket c ls dv bn h l :
  hash (to_int bn) = Z.of_nat h -> ls !! h = Some l ->
  borrows c ls dv bn ->
  first_match c dv bn l = None /\
  (forall x bx, x ∈ l -> bufs c !! x = Some bx -> refcnt bx = 0%Z ->
                (maxtick0 <= lastuse bx)%Z) /\
  ~ exhausted c ls.
Proof.
  intros Hh Hl (h' & lh & Hh' & Hlh & Hm & Hst & Hex).
  assert (h' = h) as -> by lia. assert (lh = l) as -> by congruence. done.
Qed.

Lemma bget_lists s ls pid dv bn :
  inv (cache s) ls ->
  (~ borrows (cache s) ls dv bn /\ inv (cache (state_of (bget pid dv bn s))) ls) \/
  (borrows (cache s) ls dv bn /\
   exists ls', ls' <> ls /\ inv (cache (state_of (bget pid dv bn s))) ls' /\
               relocated s ls (Bget pid dv bn) ls').
Proof.
  intros Hinv.
  pose proof (bget_admission s ls pid dv bn Hinv) as Ha.
  inversion Ha as [Hr Heq|h l j0 b0 Hh Hl Hm Hb0 Heq|h l j0 b0 mt ch Hh Hl Hm Hf Hj0 Hb0 Hrf Hlt Hmin Heq
                  |h l r Hh Hl Hm Hno Hev Heq].
  - left. split; [|done]. intros (h & lh & Hh & Hlh & _).
    apply lookup_lt_Some in Hlh. rewrite (inv_len _ _ Hinv) in Hlh. lia.
  - left. split.
    { intros Hb. destruct (borrows_bucket _ _ _ _ _ _ Hh Hl Hb) as (Hm' & _). congruence. }
    destruct (hand_over_cache pid j0 (set_refcnt (to_uint (refcnt b0 + 1)) b0)
                [EvAcquire h; EvRelease h; EvAcquireSleep (Buf j0)] s) as (b2 & Hb2 & Hc).
    rewrite Hc.
    apply (inv_upd_same _ _ _ b0); try done; by destruct Hb2 as [->| ->].
  - left. split.
    { intros Hb. destruct (borrows_bucket _ _ _ _ _ _ Hh Hl Hb) as (_ & Hst & _).
      specialize (Hst j0 b0 Hj0 Hb0 Hrf). lia. }
    destruct (hand_over_cache pid j0
                (set_refcnt 1 (set_valid 0 (set_blockno bn (set_dev dv b0))))
                [EvAcquire h; EvRelease h; EvAcquireSleep (Buf j0)] s) as (b2 & Hb2 & Hc).
    rewrite Hc.
    apply (inv_upd _ _ _ b0); try done; try by destruct Hb2 as [->| ->].
    intros j i l' [= <-] Hi Hj.
    assert (blockno b2 = bn) as -> by (by destruct Hb2 as [->| ->]).
    rewrite Hh. f_equal. by eapply (inv_one_list _ _ Hinv h i l l' j0).
  - destruct (after_eviction_cache _ _ _ _ _ _ _ Hev)
      as [(Hc & Hex & _)|(j0 & d & c1 & b1 & b2 & Hrc & Hb1 & Hb2 & Hc)].
    + left. split; [|by rewrite Hc].
      intros Hb. by destruct (borrows_bucket _ _ _ _ _ _ Hh Hl Hb) as (_ & _ & Hne).
    + right.
      pose proof Hrc as (Hne & (ld & Hld & Hjd) & (b0 & Hb0 & Hrf0 & Hlt0 & _)
                         & (_ & (b0' & b1' & _ & Hb1' & Hp1) & _) & Hi1).
      assert (b1' = b1) by congruence. subst b1'.
      unfold payload in Hp1. injection Hp1 as Hv Hd Hbn _ Hrf _ _.
      split.
      { exists h, l. do 4 (split; [done|]). intros Hex.
        specialize (Hex d ld j0 b0 Hld Hjd Hb0 Hrf0). lia. }
      exists (move j0 d h ls). split; [apply move_ne; eauto|]. split.
      * rewrite Hc. apply (inv_upd_same _ _ _ b1); try done; by destruct Hb2 as [->| ->].
      * exists pid, dv, bn, h, l, d, ld, j0, b2.
        split; [by left|]. do 7 (split; [done|]).
        split.
        { unfold run. rewrite state_of_bind_ret, Hc, bufs_upd by eauto.
          by rewrite decide_True. }
        by destruct Hb2 as [->| ->].
Qed.

Lemma bread_lists s ls ls' pid dv bn :
  inv (cache (state_of (bget pid dv bn s))) ls' ->
  inv (cache (state_of (bread pid dv bn s))) ls' /\
  (relocated s ls (Bget pid dv bn) ls' -> relocated s ls (Bread pid dv bn) ls').
Proof.
  intros Hinv'.
  assert (inv (cache (state_of (bread pid dv bn s))) ls' /\
          forall j b, bufs (cache (state_of (bget pid dv bn s))) !! j = Some b ->
                      exists b', bufs (cache (state_of (bread pid dv bn s))) !! j = Some b' /\
                                 dev b' = dev b /\ blockno b' = blockno b /\
                                 refcnt b' = refcnt b) as [Hi Hf].
  { destruct (bread_cache pid dv bn s) as [Hc|(p & b1 & dt & Hp & Hc)]; rewrite Hc.
    - split; [done|]. intros j b Hb. by exists b.
    - split; [by apply (inv_upd_same _ _ _ b1)|].
      intros j b Hb.
      change (bufs (upd (cache (state_of (bget pid dv bn s))) p
                      (set_valid 1 (set_data dt b1))) !! j)
        with (deref (upd (cache (state_of (bget pid dv bn s))) p
                       (set_valid 1 (set_data dt b1))) (Buf j)).
      rewrite deref_upd by eauto.
      destruct (decide (Buf j = p)) as [<-|Hne].
      + assert (b1 = b) as -> by (simpl in Hp; congruence). by eexists.
      + by exists b. }
  split; [done|]. intros Hrel.
  destruct Hrel as (pid' & dv' & bn' & h & lh & d & ld & j & b' & Hk & Hh & Hlh & Hm & Hne
                    & Hld & Hj & -> & Hb' & Hd & Hb & Hr & _).
  assert (pid' = pid /\ dv' = dv /\ bn' = bn) as (-> & -> & ->).
  { destruct Hk as [Hk|Hk]; by inversion Hk. }
  unfold run in Hb'. rewrite state_of_bind_ret in Hb'.
  destruct (Hf j b' Hb') as (b'' & Hb'' & Hd' & Hbn' & Hr').
  exists pid, dv, bn, h, lh, d, ld, j, b''.
  split; [by right|]. do 7 (split; [done|]).
  split; [unfold run; by rewrite state_of_bind_ret|].
  split; [congruence|]. split; [congruence|]. split; [congruence|]. done.
Qed.

Lemma run_lists s ls k :
  inv (cache s) ls ->
  (~ crosses s ls k /\ inv (cache (state_of (run k s))) ls) \/
  (crosses s ls k /\
   exists ls', ls' <> ls /\ inv (cache (state_of (run k s))) ls' /\ relocated s ls k ls').
Proof.
  intros Hinv.
  assert (forall ls', inv (cache (state_of (run k s))) ls' ->
                      (ls' = ls \/ relocated s ls k ls') ->
                      (forall pid dv bn, k <> Bget pid dv bn /\ k <> Bread pid dv bn) ->
                      inv (cache (state_of (run k s))) ls) as Hother.
  { intros ls' Hinv' [->|Hrel] Hk; [done|].
    destruct Hrel as (pid & dv & bn & _ & _ & _ & _ & _ & _ & [Hb|Hb] & _);
      by destruct (Hk pid dv bn). }
  destruct (run_inv s ls k Hinv) as (ls0 & Hinv0 & Hls0).
  specialize (Hother ls0 Hinv0 Hls0). clear Hinv0 Hls0.
  destruct k as [pid dv bn|pid dv bn|pid j|pid j|j|j];
    try (left; split; [by intros []|]; apply Hother; intros; split; discriminate).
  - unfold run, crosses. rewrite state_of_bind_ret.
    destruct (bget_lists s ls pid dv bn Hinv) as [?|(Hb & ls' & Hne & Hinv' & Hrel)];
      [by left|right].
    split; [done|]. by exists ls'.
  - unfold run, crosses. rewrite state_of_bind_ret.
    destruct (bget_lists s ls pid dv bn Hinv) as [(Hnb & Hi)|(Hb & ls' & Hne & Hinv' & Hrel)].
    + left. split; [done|]. by apply (bread_lists s ls).
    + right. split; [done|]. exists ls'. split; [done|].
      destruct (bread_lists s ls ls' pid dv bn Hinv') as [Hi Hr].
      split; [done|]. by apply Hr.
Qed.

Lemma inv_on_one_list c ls j : inv c ls -> j < NBUF -> on_one_list ls j.
Proof.
  intros Hinv Hj. destruct (inv_owner c ls j Hinv Hj) as (i & l & Hi & Hjl & _).
  exists i, l. split; [done|]. split; [done|].
  split; [by eapply inv_nodup_list|].
  intros i' l' Hi' Hjl'. by eapply (inv_one_list _ _ Hinv i' i l' l j).
Qed.

Lemma binit_ok :
  0 < NBUCKET ->
  exists s0, binit boot = Ok tt s0 /\
             inv (cache s0) (rev (seq 0 NBUF) :: replicate (NBUCKET - 1) []).
Proof.
  intros Hn. pose proof (binit_spec Hn) as Hw. unfold wp in Hw.
  destruct (binit boot) as [[] s0|e s0]; [|done].
  exists s0. split; [done|]. by destruct Hw.
Qed.

Lemma reachable_inv s : 0 < NBUCKET -> reachable s -> exists ls, inv (cache s) ls.
Proof.
  intros Hn Hr. induction Hr as [s Hs|s t Hr [ls IH]|s k Hr [ls IH]].
  - destruct (binit_ok Hn) as (s0 & Hs0 & Hinv).
    exists (rev (seq 0 NBUF) :: replicate (NBUCKET - 1) []). congruence.
  - by exists ls.
  - destruct (run_inv s ls k IH) as (ls' & Hinv' & _). by exists ls'.
Qed.

(** ** What a call leaves alone *)

Lemma upd_frame c j b b2 :
  bufs c !! j = Some b -> identity b2 = identity b ->
  (forall q, identity <$> deref (upd c (Buf j) b2) q = identity <$> deref c q) /\
  (forall q, q <> Buf j -> deref (upd c (Buf j) b2) q = deref c q).
Proof.
  intros Hb Hid. split.
  - intros q. rewrite deref_upd by (simpl; eauto).
    case_decide as Hq; [|done]. subst q.
    change (deref c (Buf j)) with (bufs c !! j). rewrite Hb. simpl. by f_equal.
  - intros q Hq. by apply deref_upd_ne.
Qed.

Lemma bget_miss_frame s ls pid dv bn h l :
  inv (cache s) ls ->
  hash (to_int bn) = Z.of_nat h -> ls !! h = Some l ->
  first_match (cache s) dv bn l = None ->
  let c := cache s in
  let c' := cache (state_of (bget pid dv bn s)) in
  c' = c \/
  exists j b b',
    bufs c !! j = Some b /\ refcnt b = 0%Z /\ bufs c' !! j = Some b' /\
    (dev b', blockno b', valid b', refcnt b') = (dv, bn, 0%Z, 1%Z) /\
    (data b', lastuse b') = (data b, lastuse b) /\
    (forall q, q <> Buf j -> payload <$> deref c' q = payload <$> deref c q) /\
    (forall q, nx c' q <> nx c q -> q = Head h \/ q = Buf j \/ q = pv c (Buf j)) /\
    (forall q, pv c' q <> pv c q -> q = nx c (Head h) \/ q = Buf j \/ q = nx c (Buf j)).
Proof.
  intros Hinv Hh0 Hl0 Hm0 c c'. subst c c'.
  pose proof (bget_admission s ls pid dv bn Hinv) as Ha.
  inversion Ha as [Hr Heq|h' l' j0 b0 Hh Hl Hm Hb0 Heq
                  |h' l' j0 b0 mt ch Hh Hl Hm Hf Hj0 Hb0 Hrf Hlt Hmin Heq
                  |h' l' r Hh Hl Hm Hno Hev Heq].
  - by left.
  - assert (h' = h) as -> by lia. congruence.
  - assert (h' = h) as -> by lia.
    destruct (hand_over_cache pid j0
                (set_refcnt 1 (set_valid 0 (set_blockno bn (set_dev dv b0))))
                [EvAcquire h; EvRelease h; EvAcquireSleep (Buf j0)] s) as (b2 & Hb2 & Hc).
    right. exists j0, b0, b2. rewrite Hc.
    split; [done|]. split; [done|].
    split; [rewrite bufs_upd by eauto; by rewrite decide_True|].
    split; [by destruct Hb2 as [->| ->]|]. split; [by destruct Hb2 as [->| ->]|].
    split; [intros q Hq; by rewrite deref_upd_ne|].
    split.
    + intros q Hq. destruct Hq. apply (nx_upd_same _ _ b0); [done|].
      by destruct Hb2 as [->| ->].
    + intros q Hq. destruct Hq. apply (pv_upd_same _ _ b0); [done|].
      by destruct Hb2 as [->| ->].
  - assert (h' = h) as -> by lia.
    destruct (after_eviction_cache _ _ _ _ _ _ _ Hev)
      as [(Hc & _)|(j0 & d & c1 & b1 & b2 & Hrc & Hb1 & Hb2 & Hc)].
    + left. by rewrite Hc.
    + destruct Hrc as (_ & _ & (b0 & Hb0 & Hrf & _) &
                       (Hpay & (b0' & b1' & Hb0' & Hb1' & Hp1) & Hnx & Hpv) & _).
      assert (b1' = b1) by congruence. subst b1'.
      assert (b0' = b0) by congruence. subst b0'.
      unfold payload in Hp1. injection Hp1 as Hv Hd Hbn _ Hr1 Hlu Hdt.
      right. exists j0, b0, b2. rewrite Hc.
      split; [done|]. split; [done|].
      split; [rewrite bufs_upd by eauto; by rewrite decide_True|].
      split; [destruct Hb2 as [->| ->]; simpl; congruence|].
      split; [destruct Hb2 as [->| ->]; simpl; congruence|].
      split; [intros q Hq; rewrite deref_upd_ne by done; by apply Hpay|].
      split.
      * intros q Hq.
        rewrite (nx_upd_same _ _ b1) in Hq;
          [|done|by destruct Hb2 as [->| ->]].
        rewrite Hnx in Hq. repeat case_decide; auto. done.
      * intros q Hq.
        rewrite (pv_upd_same _ _ b1) in Hq;
          [|done|by destruct Hb2 as [->| ->]].
        rewrite Hpv in Hq. repeat case_decide; auto. done.
Qed.

(** ** [brelse] on the two machines *)

Lemma brelse_bare pid p : Generic.brelse (m := M) pid p = brelse pid p.
Proof. reflexivity. Qed.

Lemma snd_lbind {A B} (c : L A) (k : A -> L B) s :
  snd (lbind c k s) = bind (fun s => snd (c s)) (fun a s => snd (k a s)) s.
Proof. unfold lbind, bind. by destruct (c s) as [l [a s'|e s']]. Qed.

Lemma bind_ext {A B} (c c' : M A) (k k' : A -> M B) s :
  c s = c' s -> (forall a s', k a s' = k' a s') -> bind c k s = bind c' k' s.
Proof. intros Hc Hk. unfold bind. rewrite Hc. destruct (c' s); [apply Hk|done]. Qed.

Lemma lbind_ok {A B} (c : L A) (k : A -> L B) l a s s' :
  c s = (l, Ok a s') -> lbind c k s = (l ++ fst (k a s'), snd (k a s')).
Proof. unfold lbind. by intros ->. Qed.

Lemma fst_lbind_ok {A B} (c : L A) (k : A -> L B) l a s s' :
  c s = (l, Ok a s') -> fst (lbind c k s) = l ++ fst (k a s').
Proof. unfold lbind. by intros ->. Qed.

Lemma lbind_stop {A B} (c : L A) (k : A -> L B) l e s s' :
  c s = (l, Stop e s') -> lbind c k s = (l, Stop e s').
Proof. unfold lbind. by intros ->. Qed.

Ltac erase := cbn [mbind logging]; rewrite snd_lbind; apply bind_ext.

Lemma brelse_erase pid p s : snd (Generic.brelse (m := L) pid p s) = brelse pid p s.
Proof.
  unfold Generic.brelse, brelse.
  erase; [|intros h s1].
  { unfold Generic.holdingsleep, holdingsleep. erase; [done|]. by intros. }
  erase; [by destruct h|intros _ s2].
  erase; [|intros _ s3].
  { unfold Generic.releasesleep, releasesleep. erase; [done|]. by intros. }
  erase; [done|intros bb s4].
  erase; [|intros lockid s5].
  { unfold Generic.index, index. by case_decide. }
  erase; [done|intros _ s6].
  erase; [done|intros _ s7].
  erase; [done|intros bb0 s8].
  erase; [|by intros].
  case_decide; [|done]. erase; [done|]. by intros.
Qed.

Lemma brelse_log pid p bb i s :
  deref (cache s) p = Some bb ->
  lock bb = Some pid ->
  hash (to_int (blockno bb)) = Z.of_nat i ->
  i < NBUCKET ->
  fst (Generic.brelse (m := L) pid p s) =
  let b1 := set_refcnt (to_uint (refcnt bb - 1)) (set_lock None bb) in
  [Rd p; Wr p (set_lock None bb); Ev (EvReleaseSleep p); Rd p; Ev (EvAcquire i);
   Wr p b1; Rd p]
  ++ (if decide (refcnt b1 = 0%Z) then [Tk; Wr p (set_lastuse (ticks s) b1)] else [])
  ++ [Ev (EvRelease i)].
Proof.
  intros Hp Hl Hh Hi. unfold Generic.brelse. cbn [mbind logging].
  erewrite fst_lbind_ok; last first.
  { unfold Generic.holdingsleep. cbn [mbind mload mret logging].
    erewrite lbind_ok; [|by rewrite (load_at _ _ _ Hp)].
    cbn [fst snd]. unfold ret. by rewrite bool_decide_true. }
  cbn [negb mret logging]. erewrite fst_lbind_ok; [|reflexivity].
  erewrite fst_lbind_ok; last first.
  { unfold Generic.releasesleep. cbn [mbind mmodify memit logging].
    erewrite lbind_ok; last first.
    { unfold lmodify. by rewrite Hp, (modify_at _ _ _ _ Hp). }
    cbn [fst snd]. reflexivity. }
  assert (Hp1 : forall t, deref (cache (set_trace t (set_cache (upd (cache s) p (set_lock None bb)) s))) p
                     = Some (set_lock None bb)).
  { intros t. simpl. apply deref_upd_eq. eauto. }
  erewrite fst_lbind_ok; last first.
  { cbn [mload logging]. by rewrite (load_at _ _ _ (Hp1 _)). }
  simpl blockno. rewrite Hh.
  erewrite fst_lbind_ok; last first.
  { unfold Generic.index. rewrite decide_True by lia. rewrite Nat2Z.id.
    cbn [mret logging]. reflexivity. }
  erewrite fst_lbind_ok; [|reflexivity].
  erewrite fst_lbind_ok; last first.
  { unfold Generic.refcnt_decr. cbn [mmodify logging]. unfold lmodify.
    rewrite (modify_at p (set_lock None bb)) by (simpl; apply deref_upd_eq; eauto).
    cbn [snd cache set_cache set_trace emit ret state_of].
    rewrite deref_upd_eq by eauto. rewrite upd_upd. reflexivity. }
  erewrite fst_lbind_ok; last first.
  { cbn [mload logging]. rewrite (load_at p (set_refcnt (to_uint (refcnt bb - 1)) (set_lock None bb)))
      by (simpl; apply deref_upd_eq; eauto).
    reflexivity. }
  simpl refcnt. case_decide as Hz.
  - erewrite fst_lbind_ok; last first.
    { cbn [mbind mticks mmodify logging].
      erewrite lbind_ok; [|reflexivity]. unfold lmodify.
      rewrite (modify_at p (set_refcnt (to_uint (refcnt bb - 1)) (set_lock None bb)))
        by (simpl; apply deref_upd_eq; eauto).
      cbn [fst snd cache set_cache set_trace].
      rewrite deref_upd_eq by eauto. reflexivity. }
    reflexivity.
  - erewrite fst_lbind_ok; [|reflexivity]. reflexivity.
Qed.

Lemma brelse_log_panic pid p bb s :
  deref (cache s) p = Some bb ->
  lock bb <> Some pid ->
  fst (Generic.brelse (m := L) pid p s) = [Rd p].
Proof.
  intros Hp Hl. unfold Generic.brelse. cbn [mbind logging].
  unfold lbind at 1.
  assert (Generic.holdingsleep (m := L) pid p s = ([Rd p], Ok false s)) as ->.
  { unfold Generic.holdingsleep. cbn [mbind mload mret logging].
    erewrite lbind_ok; [|by rewrite (load_at _ _ _ Hp)].
    cbn [fst snd]. unfold ret. by rewrite bool_decide_false. }
  cbn [negb]. erewrite lbind_stop; [|reflexivity]. reflexivity.
Qed.

(** * Main theorems *)

(** ** Lock discipline of [bget] *)

(** C4. In every execution of [bget], the calls it makes on locks are
    [calm]: at most two bucket locks are held at any instant, and every
    [acquiresleep] is called with no bucket lock held; when [bget] returns,
    goes to sleep on the sleep-lock or panics, it holds no bucket lock.
    [bget] enters the block labelled [eviction:] holding no lock, and other
    processes may have changed the cache by then: the same holds of that
    block started in any state [s1], so also where its second walk of the
    home list finds the block and takes the sleep-lock of the slot found. *)
Theorem bget_lock_discipline pid dv bn s :
  (exists t, trace (state_of (bget pid dv bn s)) = trace s ++ t /\
             calm t /\
             match bget pid dv bn s with
             | Ok _ _ | Stop (Panic _) _ | Stop (Sleep _) _ => held t = []
             | Stop _ _ => True
             end) /\
  (forall lockid maxtick s1,
     exists t, trace (state_of (eviction pid dv bn lockid maxtick Null s1)) = trace s1 ++ t /\
               calm t /\
               match eviction pid dv bn lockid maxtick Null s1 with
               | Ok _ _ | Stop (Panic _) _ | Stop (Sleep _) _ => held t = []
               | Stop _ _ => True
               end).
Proof.
  split.
  - pose proof (bget_calm pid dv bn s s (since_refl s)) as Hwp. unfold wp in Hwp.
    destruct (bget pid dv bn s) as [p s'|e s']; simpl.
    + destruct Hwp as (t & Ht & Hc & Hh). by exists t.
    + destruct Hwp as (h & (t & Ht & Hc & Hh) & He). exists t.
      split; [done|]. split; [done|]. destruct e; by subst.
  - intros lockid maxtick s1.
    pose proof (eviction_calm pid dv bn lockid maxtick s1 s1 (since_refl s1)) as Hwp.
    unfold wp in Hwp.
    destruct (eviction pid dv bn lockid maxtick Null s1) as [p s'|e s']; simpl.
    + destruct Hwp as (t & Ht & Hc & Hh). by exists t.
    + destruct Hwp as (h & (t & Ht & Hc & Hh) & He). exists t.
      split; [done|]. split; [done|]. destruct e; by subst.
Qed.

(** ** A block that is cached *)

(** C5. When the first slot of the home list bound to [(dv, bn)] is slot
    [j], [bget] chooses slot [j] and adds 1 to its [refcnt] (in unsigned
    32-bit arithmetic) and changes no other slot; it returns it with the
    sleep-lock taken, or waits for the sleep-lock.  [bread] then returns the
    slot with [valid] non-zero, and calls [virtio_disk_rw] exactly when
    [valid] was 0. *)
Theorem bread_cached s ls pid dv bn h l j b :
  inv (cache s) ls ->
  hash (to_int bn) = Z.of_nat h -> ls !! h = Some l ->
  first_match (cache s) dv bn l = Some j ->
  bufs (cache s) !! j = Some b ->
  let b1 := set_refcnt (to_uint (refcnt b + 1)) b in
  let t := [EvAcquire h; EvRelease h; EvAcquireSleep (Buf j)] in
  bget pid dv bn s = hand_over pid j b1 t s /\
  ((0 <= refcnt b < 2 ^ 32 - 1)%Z -> refcnt b1 = (refcnt b + 1)%Z) /\
  (lock b <> None \/ valid b <> 0%Z -> bread pid dv bn s = hand_over pid j b1 t s) /\
  (lock b = None -> valid b = 0%Z ->
   bread pid dv bn s =
   Ok (Buf j)
     (mkstate
        (upd (cache s) (Buf j)
           (set_valid 1
              (set_data (default (replicate BSIZE 0%Z) (disk s !! (dv, bn)))
                 (set_lock (Some pid) b1))))
        (ticks s) (disk s) (trace s ++ t ++ [EvDiskRW (Buf j) false]))).
Proof.
  intros Hinv Hh Hl Hm Hb. cbv zeta.
  set (b1 := set_refcnt (to_uint (refcnt b + 1)) b).
  set (t := [EvAcquire h; EvRelease h; EvAcquireSleep (Buf j)]).
  pose proof (bget_cached s ls pid dv bn h l j b Hinv Hh Hl Hm Hb) as Hget.
  fold b1 t in Hget.
  destruct (first_match_Some _ _ _ _ _ Hm) as (_ & b' & Hb' & Hdv & Hbn).
  rewrite Hb in Hb'. injection Hb' as <-.
  assert (lock b1 = lock b) as Hlk1 by done.
  split; [done|]. split; [|split].
  - intros Hr. unfold b1, to_uint. norm. rewrite Z.mod_small; lia.
  - intros Hcase. unfold hand_over in *. rewrite Hlk1 in *.
    destruct (lock b) eqn:Hlk.
    + by apply bread_stop.
    + erewrite bread_ok; [|exact Hget|norm; by apply (deref_upd_eq _ (Buf j)); eauto].
      norm. rewrite decide_False; [done|]. by destruct Hcase.
  - intros Hlk Hv. unfold hand_over in Hget. rewrite Hlk1, Hlk in Hget.
    erewrite bread_ok; [|exact Hget|norm; by apply (deref_upd_eq _ (Buf j)); eauto].
    norm. rewrite decide_True by done.
    change (dev b1) with (dev b). change (blockno b1) with (blockno b).
    rewrite Hdv, Hbn, upd_upd. by rewrite <- app_assoc.
Qed.

(** C6. [brelse] panics exactly when the caller does not hold the slot's
    sleep-lock, and has then only read the slot.  When the caller holds it,
    [brelse] returns, and between the two states: the sleep-lock has been
    released and then the spinlock of the bucket [i] that owns the slot
    taken and released, in this order; the slot is free of its holder and
    has one reference less (as a 32-bit unsigned number, so exactly one less
    when there was one to drop); its last-use tick is the current tick if
    the count is now 0 and is the old one otherwise; no [next] or [prev]
    pointer of the cache has changed and the buckets are the same lists.
    [brelse] is the function [Generic.brelse] run on [M], and returns what
    the logged run returns.  In the logged run the accesses come in this
    order: the slot is read and its sleep-lock released; the block number is
    read; [acquire] is called on bucket [i]; the count is decremented, then
    read, and if it is 0 [ticks] is read and the tick stamped; [release] is
    called on bucket [i].  So both updates are made with the lock of the
    owning bucket held, and none is made on the count or the tick outside. *)
Theorem brelse_spec s ls pid j b :
  inv (cache s) ls ->
  bufs (cache s) !! j = Some b ->
  ((exists msg s', brelse pid (Buf j) s = Stop (Panic msg) s') <-> lock b <> Some pid) /\
  (lock b = Some pid ->
   exists i l b',
     ls !! i = Some l /\ j ∈ l /\
     brelse pid (Buf j) s =
     Ok tt (mkstate (upd (cache s) (Buf j) b') (ticks s) (disk s)
              (trace s ++ [EvReleaseSleep (Buf j); EvAcquire i; EvRelease i])) /\
     lock b' = None /\
     refcnt b' = to_uint (refcnt b - 1) /\
     ((1 <= refcnt b < 2 ^ 32)%Z -> refcnt b' = (refcnt b - 1)%Z) /\
     (refcnt b' = 0%Z -> lastuse b' = ticks s) /\
     (refcnt b' <> 0%Z -> lastuse b' = lastuse b) /\
     (valid b', dev b', blockno b', data b') = (valid b, dev b, blockno b, data b) /\
     (forall q, nx (upd (cache s) (Buf j) b') q = nx (cache s) q /\
                pv (upd (cache s) (Buf j) b') q = pv (cache s) q) /\
     inv (upd (cache s) (Buf j) b') ls /\
     fst (Generic.brelse (m := L) pid (Buf j) s) =
     [Rd (Buf j); Wr (Buf j) (set_lock None b); Ev (EvReleaseSleep (Buf j));
      Rd (Buf j); Ev (EvAcquire i);
      Wr (Buf j) (set_refcnt (to_uint (refcnt b - 1)) (set_lock None b)); Rd (Buf j)]
     ++ (if decide (refcnt b' = 0%Z) then [Tk; Wr (Buf j) b'] else [])
     ++ [Ev (EvRelease i)]) /\
  (lock b <> Some pid -> fst (Generic.brelse (m := L) pid (Buf j) s) = [Rd (Buf j)]) /\
  Generic.brelse (m := M) pid = brelse pid /\
  (forall p s1, snd (Generic.brelse (m := L) pid p s1) = brelse pid p s1).
Proof.
  intros Hinv Hb.
  destruct (inv_owner_hash _ _ _ _ Hinv Hb) as (i & l & Hi & Hj & Hlt & Hh).
  split; [|split; [|split; [|split]]].
  - split.
    + intros (msg & s' & Hp) Hl.
      rewrite (brelse_ok pid (Buf j) b i s Hb Hl Hh Hlt) in Hp. discriminate.
    + intros Hl. exists "brelse"%string, s. by apply (brelse_panic pid (Buf j) b).
  - intros Hl. rewrite (brelse_ok pid (Buf j) b i s Hb Hl Hh Hlt).
    rewrite (brelse_log pid (Buf j) b i s Hb Hl Hh Hlt). cbv zeta.
    set (b1 := set_refcnt (to_uint (refcnt b - 1)) (set_lock None b)).
    set (b' := if decide (refcnt b1 = 0%Z) then set_lastuse (ticks s) b1 else b1).
    assert (Hr : refcnt b' = to_uint (refcnt b - 1)).
    { unfold b'. by case_decide. }
    assert (Hn : next b' = next b) by (unfold b'; by case_decide).
    assert (Hp : prev b' = prev b) by (unfold b'; by case_decide).
    exists i, l, b'. split; [done|]. split; [done|]. split; [done|].
    split; [unfold b'; by case_decide|]. split; [done|].
    split; [intros Hc; rewrite Hr; unfold to_uint; rewrite Z.mod_small; lia|].
    split.
    { unfold b'. case_decide as Hz; [done|]. intros Hc. by destruct Hz. }
    split.
    { unfold b'. case_decide as Hz; [|done]. intros Hc. by destruct Hc. }
    split; [unfold b'; by case_decide|]. split; [|split].
    + intros q. split.
      * by apply (nx_upd_same _ _ b).
      * by apply (pv_upd_same _ _ b).
    + apply (inv_upd_same _ _ _ b); try done. unfold b'. by case_decide.
    + assert (Hrb : refcnt b1 = refcnt b') by (unfold b'; by case_decide).
      rewrite Hrb. case_decide as Hz; [|done].
      unfold b'. rewrite decide_True by (by rewrite Hrb). done.
  - intros Hl. by apply (brelse_log_panic pid (Buf j) b).
  - reflexivity.
  - apply brelse_erase.
Qed.

(** C9. [bwrite] panics exactly when the caller does not hold the slot's
    sleep-lock.  When the caller holds it, [bwrite] returns after one
    transfer of the slot's bytes to its block of the disk, whatever the
    slot's [valid] flag; the cache is the same, so the slot has the same
    references and the caller still holds its sleep-lock. *)
Theorem bwrite_spec s pid j b :
  bufs (cache s) !! j = Some b ->
  ((exists msg s', bwrite pid (Buf j) s = Stop (Panic msg) s') <-> lock b <> Some pid) /\
  (lock b = Some pid ->
   bwrite pid (Buf j) s =
   Ok tt (mkstate (cache s) (ticks s)
            (<[(dev b, blockno b) := data b]> (disk s))
            (trace s ++ [EvDiskRW (Buf j) true]))).
Proof.
  intros Hb. split.
  - split.
    + intros (msg & s' & Hp) Hl.
      rewrite (bwrite_ok pid (Buf j) b s Hb Hl) in Hp. discriminate.
    + intros Hl. exists "bwrite"%string, s. by apply (bwrite_panic pid (Buf j) b).
  - intros Hl. by apply (bwrite_ok pid (Buf j) b).
Qed.

(** C3, as amended.  Of the two calls that drop a reference, [brelse]
    alone writes the last-use tick: a [brelse] by the holder of the
    sleep-lock leaves the slot with one reference less and, exactly when
    that makes the count 0, with the current tick as its last-use tick;
    [bunpin] leaves the slot with one reference less and with the last-use
    tick it had, also when that makes the count 0.  No other call changes a
    last-use tick, so the tick of a slot is that of the latest [brelse] that
    brought its count to 0. *)
Theorem lastuse_stamp s ls k j b b' :
  inv (cache s) ls ->
  bufs (cache s) !! j = Some b ->
  bufs (cache (state_of (run k s))) !! j = Some b' ->
  (forall pid, k = Brelse pid j -> lock b = Some pid ->
     refcnt b' = to_uint (refcnt b - 1) /\
     lastuse b' = if decide (refcnt b' = 0%Z) then ticks s else lastuse b) /\
  (k = Bunpin j -> refcnt b' = to_uint (refcnt b - 1) /\ lastuse b' = lastuse b) /\
  (lastuse b' <> lastuse b ->
     exists pid, k = Brelse pid j /\ lock b = Some pid /\
                 refcnt b' = 0%Z /\ lastuse b' = ticks s).
Proof.
  intros Hinv Hb Hb'.
  destruct k as [pid dv bn|pid dv bn|pid j0|pid j0|j0|j0];
    unfold run in Hb'; rewrite ?state_of_bind_ret in Hb'.
  - pose proof (bget_lastuse _ _ _ _ _ _ _ _ Hinv Hb Hb'). by repeat split.
  - pose proof (bread_lastuse _ _ _ _ _ _ _ _ Hinv Hb Hb'). by repeat split.
  - rewrite bwrite_cache in Hb'. assert (b' = b) as -> by congruence. by repeat split.
  - rewrite (brelse_cache s ls pid j0 Hinv) in Hb'.
    destruct (decide (j0 = j)) as [->|Hne].
    + rewrite Hb in Hb'. destruct (decide (lock b = Some pid)) as [Hl|Hl].
      * rewrite bufs_upd, decide_True in Hb' by eauto. cbv zeta in Hb'.
        change (refcnt (set_refcnt (to_uint (refcnt b - 1)) (set_lock None b)))
          with (to_uint (refcnt b - 1)) in Hb'.
        destruct (decide (to_uint (refcnt b - 1) = 0%Z)) as [Hz|Hz];
          injection Hb' as <-; simpl.
        -- split; [|split].
           ++ intros pid' _ _. split; [done|]. by rewrite decide_True.
           ++ done.
           ++ intros _. by exists pid.
        -- split; [|split].
           ++ intros pid' _ _. split; [done|]. by rewrite decide_False.
           ++ done.
           ++ done.
      * assert (b' = b) by congruence. subst b'. split; [|by split].
        intros pid' [= ->]. done.
    + assert (bufs (cache s) !! j = Some b') as Hsame.
      { destruct (bufs (cache s) !! j0) as [b0|] eqn:Hb0; [|done].
        case_decide; [|done]. rewrite bufs_upd, decide_False in Hb' by eauto. done. }
      assert (b' = b) by congruence. subst b'. split; [|by split].
      intros pid' [= _ ->]. done.
  - rewrite (bpin_cache s ls j0 Hinv) in Hb'.
    assert (lastuse b' = lastuse b) as Hlu.
    { destruct (bufs (cache s) !! j0) as [b0|] eqn:Hb0; [|congruence].
      rewrite bufs_upd in Hb' by eauto.
      destruct (decide (j = j0)) as [->|Hne]; [|congruence].
      inversion Hb'. simpl. congruence. }
    by repeat split.
  - rewrite (bunpin_cache s ls j0 Hinv) in Hb'.
    destruct (decide (j0 = j)) as [->|Hne].
    + rewrite Hb, bufs_upd, decide_True in Hb' by eauto.
      inversion Hb'. by repeat split.
    + assert (b' = b) as ->.
      { destruct (bufs (cache s) !! j0) as [b0|] eqn:Hb0; [|congruence].
        rewrite bufs_upd, decide_False in Hb' by eauto. congruence. }
      split; [done|]. split; [|done]. intros [= ->]. done.
Qed.

(** C7. From boot on, every slot is on exactly one bucket's list.  [binit]
    returns with all the slots on the list of bucket 0 (slot [NBUF - 1]
    first) and the other lists empty.  In every state the kernel reaches,
    the pointers of the cache make up the lists [ls] of the buckets, and no
    other lists, with every slot on exactly one of them; a call then leaves
    the cache as lists [ls'], again with every slot on exactly one.  When
    the call is a [bget] (alone or in [bread]) for a block that is not on
    its bucket's list, while that bucket has no slot to recycle and another
    bucket has one, the lists do change: a slot is taken off the list of
    the donor bucket and put first on the home list, bound to the block
    with one reference and, on return from [bget], [valid] 0.  Every other
    call leaves the lists as they were. *)
Theorem one_list_always s k :
  0 < NBUCKET ->
  reachable s ->
  (exists s0, binit boot = Ok tt s0 /\
              inv (cache s0) (rev (seq 0 NBUF) :: replicate (NBUCKET - 1) [])) /\
  exists ls,
    inv (cache s) ls /\
    (forall ls0, inv (cache s) ls0 -> ls0 = ls) /\
    (forall j, j < NBUF -> on_one_list ls j) /\
    exists ls',
      inv (cache (state_of (run k s))) ls' /\
      (forall j, j < NBUF -> on_one_list ls' j) /\
      (ls' = ls \/ relocated s ls k ls') /\
      (crosses s ls k -> relocated s ls k ls' /\ ls' <> ls) /\
      (~ crosses s ls k -> ls' = ls).
Proof.
  intros Hn Hr. split; [by apply binit_ok|].
  destruct (reachable_inv s Hn Hr) as [ls Hinv]. exists ls.
  split; [done|]. split; [intros ls0 H0; by apply (inv_unique (cache s))|].
  split; [intros j Hj; by eapply inv_on_one_list|].
  destruct (run_lists s ls k Hinv) as [(Hnc & Hinv')|(Hc & ls' & Hne & Hinv' & Hrel)].
  - exists ls. split; [done|]. split; [intros j Hj; by eapply inv_on_one_list|].
    split; [by left|]. split; [done|]. done.
  - exists ls'. split; [done|]. split; [intros j Hj; by eapply inv_on_one_list|].
    split; [by right|]. split; [done|]. done.
Qed.

(** C10. A [bget] for a block that is cached in slot [j], and a [brelse],
    [bpin] or [bunpin] of slot [j], leave the device, block number, [valid]
    flag, bytes and two links of every slot and sentinel as they were, and
    leave everything but slot [j] untouched.  A [bget] that misses either
    changes nothing in the cache, or rebinds one unreferenced slot [j]:
    slot [j] then has the block's device and number, [valid] 0 and one
    reference, and the bytes and last-use tick it had; no field of another
    slot other than a link has changed; and a [next] link has changed only
    in the home sentinel, slot [j] or the node that was before slot [j], a
    [prev] link only in the node that was first on the home list, slot [j]
    or the node that was after slot [j]. *)
Theorem call_frame s ls k :
  inv (cache s) ls ->
  let c := cache s in
  let c' := cache (state_of (run k s)) in
  (forall pid dv bn h l j,
     k = Brelse pid j \/ k = Bpin j \/ k = Bunpin j \/
     (k = Bget pid dv bn /\ hash (to_int bn) = Z.of_nat h /\ ls !! h = Some l /\
      first_match c dv bn l = Some j) ->
     (forall q, identity <$> deref c' q = identity <$> deref c q) /\
     (forall q, q <> Buf j -> deref c' q = deref c q)) /\
  (forall pid dv bn h l,
     k = Bget pid dv bn -> hash (to_int bn) = Z.of_nat h -> ls !! h = Some l ->
     first_match c dv bn l = None ->
     c' = c \/
     exists j b b',
       bufs c !! j = Some b /\ refcnt b = 0%Z /\ bufs c' !! j = Some b' /\
       (dev b', blockno b', valid b', refcnt b') = (dv, bn, 0%Z, 1%Z) /\
       (data b', lastuse b') = (data b, lastuse b) /\
       (forall q, q <> Buf j -> payload <$> deref c' q = payload <$> deref c q) /\
       (forall q, nx c' q <> nx c q -> q = Head h \/ q = Buf j \/ q = pv c (Buf j)) /\
       (forall q, pv c' q <> pv c q -> q = nx c (Head h) \/ q = Buf j \/ q = nx c (Buf j))).
Proof.
  intros Hinv c c'. subst c c'. split.
  - intros pid dv bn h l j [->|[->|[->|(-> & Hh & Hl & Hm)]]]; unfold run.
    + rewrite (brelse_cache s ls pid j Hinv).
      destruct (bufs (cache s) !! j) as [b|] eqn:Hb; [|done].
      case_decide; [|done]. apply (upd_frame _ _ b); [done|].
      cbv zeta. by case_decide.
    + rewrite (bpin_cache s ls j Hinv).
      destruct (bufs (cache s) !! j) as [b|] eqn:Hb; [|done].
      by apply (upd_frame _ _ b).
    + rewrite (bunpin_cache s ls j Hinv).
      destruct (bufs (cache s) !! j) as [b|] eqn:Hb; [|done].
      by apply (upd_frame _ _ b).
    + rewrite state_of_bind_ret.
      destruct (first_match_Some _ _ _ _ _ Hm) as (_ & b & Hb & _).
      rewrite (bget_cached s ls pid dv bn h l j b Hinv Hh Hl Hm Hb).
      destruct (hand_over_cache pid j (set_refcnt (to_uint (refcnt b + 1)) b)
                  [EvAcquire h; EvRelease h; EvAcquireSleep (Buf j)] s) as (b2 & Hb2 & ->).
      apply (upd_frame _ _ b); [done|]. by destruct Hb2 as [->| ->].
  - intros pid dv bn h l -> Hh Hl Hm. unfold run. rewrite state_of_bind_ret.
    by apply (bget_miss_frame s ls pid dv bn h l).
Qed.

(** C1.  What [bget] picks for a block that is not cached.  The slot it
    hands over is unreferenced and its last-use tick is the least among the
    unreferenced slots of the home bucket, and among those of all the
    buckets when the slot comes from another bucket; but the tick is also
    below [maxtick0 = 16843009], the value [memset(&maxtick, 1, ...)] gives
    the bound of the scans.  Unreferenced slots with a tick of [maxtick0] or
    more are passed over: when every unreferenced slot is such, [bget] picks
    none and panics. *)
Theorem bget_candidate s ls pid dv bn h l :
  inv (cache s) ls ->
  hash (to_int bn) = Z.of_nat h -> ls !! h = Some l ->
  first_match (cache s) dv bn l = None ->
  match bget pid dv bn s with
  | Ok p _ | Stop (Sleep p) _ =>
      exists j b,
        p = Buf j /\ bufs (cache s) !! j = Some b /\ refcnt b = 0%Z /\
        (lastuse b < maxtick0)%Z /\
        (forall x bx, x ∈ l -> bufs (cache s) !! x = Some bx -> refcnt bx = 0%Z ->
                      (lastuse b <= lastuse bx)%Z) /\
        (j ∉ l ->
         forall i li x bx, ls !! i = Some li -> x ∈ li -> bufs (cache s) !! x = Some bx ->
                           refcnt bx = 0%Z -> (lastuse b <= lastuse bx)%Z)
  | Stop (Panic _) _ => exhausted (cache s) ls
  | Stop _ _ => False
  end /\
  (exhausted (cache s) ls ->
   exists s', bget pid dv bn s = Stop (Panic "bget: no buffers") s' /\ cache s' = cache s).
Proof.
  intros Hinv Hh0 Hl0 Hm0.
  pose proof (bget_admission s ls pid dv bn Hinv) as Ha.
  inversion Ha as [Hr Heq|h' l' j0 b0 Hh Hl Hm Hb0 Heq
                  |h' l' j0 b0 mt ch Hh Hl Hm Hf Hj0 Hb0 Hrf Hlt Hmin Heq
                  |h' l' r Hh Hl Hm Hno Hev Heq].
  - destruct Hr. apply lookup_lt_Some in Hl0. rewrite (inv_len _ _ Hinv) in Hl0. lia.
  - assert (h' = h) as -> by lia. congruence.
  - assert (h' = h) as -> by lia. assert (l' = l) as -> by congruence.
    split.
    + unfold hand_over. norm.
      destruct (lock b0); exists j0, b0; by repeat split.
    + intros Hex. specialize (Hex h l j0 b0 Hl0 Hj0 Hb0 Hrf). lia.
  - assert (h' = h) as -> by lia. assert (l' = l) as -> by congruence.
    destruct Hev as (_ & _ & _ & Hr).
    revert Hr. destruct (bget pid dv bn s) as [p s'|[msg|p| |] s']; intros Hr; try done.
    + destruct Hr as (j & d & c1 & b1 & -> & Hrc & _).
      destruct Hrc as (_ & _ & (b0 & Hb0 & Hrf & Hlt & Hmin) & _).
      split.
      * exists j, b0. do 4 (split; [done|]). split.
        -- intros x bx Hx. by apply (Hmin h l).
        -- intros _. exact Hmin.
      * intros Hex. destruct (inv_owner_hash _ _ _ _ Hinv Hb0) as (i & li & Hi & Hj & _).
        specialize (Hex i li j b0 Hi Hj Hb0 Hrf). lia.
    + destruct Hr as (-> & Hc & Hex). split; [done|]. intros _. by exists s'.
    + destruct Hr as (j & d & c1 & b1 & -> & Hrc & _).
      destruct Hrc as (_ & _ & (b0 & Hb0 & Hrf & Hlt & Hmin) & _).
      split.
      * exists j, b0. do 4 (split; [done|]). split.
        -- intros x bx Hx. by apply (Hmin h l).
        -- intros _. exact Hmin.
      * intros Hex. destruct (inv_owner_hash _ _ _ _ Hinv Hb0) as (i & li & Hi & Hj & _).
        specialize (Hex i li j b0 Hi Hj Hb0 Hrf). lia.
Qed.

(** C2.  [bget] panics exactly when the block is not cached and no
    unreferenced slot of the cache has a last-use tick below [maxtick0 =
    16843009]: that is when no slot is unreferenced, and also when slots
    are unreferenced but were all released at tick 16843009 or later.  The
    panic is "bget: no buffers" and leaves the cache as it was. *)
Theorem bget_panic_iff s ls pid dv bn :
  inv (cache s) ls ->
  ((exists msg s', bget pid dv bn s = Stop (Panic msg) s') <->
   (exists h l, hash (to_int bn) = Z.of_nat h /\ ls !! h = Some l /\
                first_match (cache s) dv bn l = None /\ exhausted (cache s) ls)) /\
  (forall msg s', bget pid dv bn s = Stop (Panic msg) s' ->
                  msg = "bget: no buffers"%string /\ cache s' = cache s).
Proof.
  intros Hinv.
  pose proof (bget_admission s ls pid dv bn Hinv) as Ha.
  inversion Ha as [Hr Heq|h l j0 b0 Hh Hl Hm Hb0 Heq
                  |h l j0 b0 mt ch Hh Hl Hm Hf Hj0 Hb0 Hrf Hlt Hmin Heq
                  |h l r Hh Hl Hm Hno Hev Heq].
  - split; [split|]; [by intros (msg & s' & ?)| |done].
    intros (h & l & Hh & Hl & _). destruct Hr.
    apply lookup_lt_Some in Hl. rewrite (inv_len _ _ Hinv) in Hl. lia.
  - unfold hand_over. norm. split; [split|].
    + intros (msg & s' & Hp). by destruct (lock b0).
    + intros (h' & l' & Hh' & Hl' & Hm' & _).
      assert (h' = h) as -> by lia. congruence.
    + intros msg s' Hp. by destruct (lock b0).
  - unfold hand_over. norm. split; [split|].
    + intros (msg & s' & Hp). by destruct (lock b0).
    + intros (h' & l' & Hh' & Hl' & Hm' & Hex).
      specialize (Hex h l j0 b0 Hl Hj0 Hb0 Hrf). lia.
    + intros msg s' Hp. by destruct (lock b0).
  - destruct Hev as (_ & _ & _ & Hr).
    revert Hr. destruct (bget pid dv bn s) as [p s'|[msg|p| |] s']; intros Hr; try done.
    + destruct Hr as (j & d & c1 & b1 & -> & Hrc & _).
      destruct Hrc as (_ & _ & (b0 & Hb0 & Hrf & Hlt & Hmin) & _).
      split; [split|]; [by intros (msg & s0 & ?)| |done].
      intros (h' & l' & _ & _ & _ & Hex).
      destruct (inv_owner_hash _ _ _ _ Hinv Hb0) as (i & li & Hi & Hj & _).
      specialize (Hex i li j b0 Hi Hj Hb0 Hrf). lia.
    + destruct Hr as (-> & Hc & Hex). split; [split|].
      * intros _. by exists h, l.
      * intros _. by eexists _, _.
      * by intros msg s0 [= <- <-].
    + destruct Hr as (j & d & c1 & b1 & -> & Hrc & _).
      destruct Hrc as (_ & _ & (b0 & Hb0 & Hrf & Hlt & Hmin) & _).
      split; [split|]; [by intros (msg & s0 & ?)| |done].
      intros (h' & l' & _ & _ & _ & Hex).
      destruct (inv_owner_hash _ _ _ _ Hinv Hb0) as (i & li & Hi & Hj & _).
      specialize (Hex i li j b0 Hi Hj Hb0 Hrf). lia.
Qed.

(** C8.  [bget] passes its [uint blockno] to [hash], which takes an [int]
    and computes [blockno % NBUCKET] on it.  For a block number below
    [2^31] the result is the number modulo [NBUCKET], within [0, NBUCKET).
    For a block number from [2^31] on, the [int] is negative and so is the
    remainder, unless it is 0: [hash] returns minus the residue of
    [2^32 - blockno], and on a negative result [bget] indexes [bktlock] and
    [head] below their first element. *)
Theorem hash_of_uint bn :
  0 < NBUCKET -> (0 <= bn < 2 ^ 32)%Z ->
  ((bn < 2 ^ 31)%Z ->
   hash (to_int bn) = (bn mod Z.of_nat NBUCKET)%Z /\
   (0 <= hash (to_int bn) < Z.of_nat NBUCKET)%Z) /\
  ((2 ^ 31 <= bn)%Z ->
   hash (to_int bn) = (- ((2 ^ 32 - bn) mod Z.of_nat NBUCKET))%Z /\
   (- Z.of_nat NBUCKET < hash (to_int bn) <= 0)%Z) /\
  ((hash (to_int bn) < 0)%Z -> forall pid dv s, bget pid dv bn s = Stop Fault s).
Proof.
  intros Hn Hbn. split; [|split].
  - intros Hlt. unfold hash, to_int.
    replace ((bn + 2 ^ 31) mod 2 ^ 32 - 2 ^ 31)%Z with bn
      by (rewrite Z.mod_small; lia).
    rewrite Z.rem_mod_nonneg by lia. split; [done|]. apply Z.mod_pos_bound. lia.
  - intros Hge. unfold hash, to_int.
    replace ((bn + 2 ^ 31) mod 2 ^ 32 - 2 ^ 31)%Z with (- (2 ^ 32 - bn))%Z.
    2:{ replace (bn + 2 ^ 31)%Z with ((bn - 2 ^ 31) + 1 * 2 ^ 32)%Z by lia.
        rewrite Z.mod_add by lia. rewrite Z.mod_small; lia. }
    rewrite Z.rem_opp_l by lia. rewrite Z.rem_mod_nonneg by lia.
    split; [done|].
    pose proof (Z.mod_pos_bound (2 ^ 32 - bn) (Z.of_nat NBUCKET)). lia.
  - intros Hneg pid dv s. unfold bget.
    erewrite bind_stop; [done|]. apply index_bad. lia.
Qed.

(** * Further properties of the interface *)

(** ** Helpers *)

Lemma hash_small bn :
  0 < NBUCKET -> (0 <= bn < 2 ^ 31)%Z ->
  (0 <= hash (to_int bn) < Z.of_nat NBUCKET)%Z.
Proof.
  intros Hn Hbn. unfold hash, to_int.
  replace ((bn + 2 ^ 31) mod 2 ^ 32 - 2 ^ 31)%Z with bn by (rewrite Z.mod_small; lia).
  rewrite Z.rem_mod_nonneg by lia. apply Z.mod_pos_bound. lia.
Qed.

Lemma set_refcnt_id b : set_refcnt (refcnt b) b = b.
Proof. by destruct b. Qed.

Lemma first_match_head c dv bn j l b :
  bufs c !! j = Some b -> dev b = dv -> blockno b = bn ->
  first_match c dv bn (j :: l) = Some j.
Proof.
  intros Hb Hd Hn. cbn [first_match]. rewrite Hb. by rewrite decide_True.
Qed.

(** [first_match] reads the keys of the slots on the list only. *)
Lemma first_match_ext c c' dv bn l :
  (forall x, x ∈ l -> key <$> bufs c' !! x = key <$> bufs c !! x) ->
  first_match c' dv bn l = first_match c dv bn l.
Proof.
  induction l as [|x l IH]; intros Hk; [done|].
  cbn [first_match].
  assert (key <$> bufs c' !! x = key <$> bufs c !! x) as Hx by (apply Hk; left).
  assert (first_match c' dv bn l = first_match c dv bn l) as ->.
  { apply IH. intros y Hy. apply Hk. by right. }
  destruct (bufs c' !! x) as [b'|], (bufs c !! x) as [b|]; try done.
  injection Hx as Hd Hb.
  destruct (decide (dev b' = dv /\ blockno b' = bn)) as [[??]|Hn'];
    destruct (decide (dev b = dv /\ blockno b = bn)) as [[??]|Hn]; try done.
  - destruct Hn. split; congruence.
  - destruct Hn'. split; congruence.
Qed.

(** Binding a slot of a list that has no match makes it the match. *)
Lemma first_match_bind c dv bn l j b b2 :
  first_match c dv bn l = None -> j ∈ l ->
  bufs c !! j = Some b -> dev b2 = dv -> blockno b2 = bn ->
  first_match (upd c (Buf j) b2) dv bn l = Some j.
Proof.
  intros Hm Hj Hb Hd Hn. induction l as [|x l IH]; [by apply elem_of_nil in Hj|].
  cbn [first_match] in *.
  destruct (decide (x = j)) as [->|Hne].
  - rewrite bufs_upd, decide_True by eauto. by rewrite decide_True.
  - rewrite bufs_upd, decide_False by eauto.
    apply elem_of_cons in Hj as [?|Hj]; [congruence|].
    destruct (bufs c !! x) as [bx|].
    + destruct (decide (dev bx = dv /\ blockno bx = bn)); [done|]. by apply IH.
    + by apply IH.
Qed.

(** ** Every way [bget] ends, in one statement *)

Lemma hand_over_outcome pid j b1 t s :
  ticks (state_of (hand_over pid j b1 t s)) = ticks s /\
  disk (state_of (hand_over pid j b1 t s)) = disk s /\
  trace (state_of (hand_over pid j b1 t s)) = trace s ++ t /\
  exists b2,
    cache (state_of (hand_over pid j b1 t s)) = upd (cache s) (Buf j) b2 /\
    ((hand_over pid j b1 t s = Ok (Buf j) (state_of (hand_over pid j b1 t s)) /\
      lock b1 = None /\ b2 = set_lock (Some pid) b1) \/
     (hand_over pid j b1 t s = Stop (Sleep (Buf j)) (state_of (hand_over pid j b1 t s)) /\
      lock b1 <> None /\ b2 = b1)).
Proof.
  unfold hand_over. destruct (lock b1) eqn:Hl.
  - do 3 (split; [done|]). exists b1. split; [done|]. right. by repeat split.
  - do 3 (split; [done|]). exists (set_lock (Some pid) b1). split; [done|]. left. by repeat split.
Qed.

Lemma after_eviction_outcome s ls h pid dv bn r :
  after_eviction s ls h pid dv bn r ->
  ticks (state_of r) = ticks s /\ disk (state_of r) = disk s /\
  ((cache (state_of r) = cache s /\ exhausted (cache s) ls /\
    r = Stop (Panic "bget: no buffers") (state_of r)) \/
   exists j d c1 b1 b2,
     reclaim (cache s) ls h dv bn j d c1 /\ bufs c1 !! j = Some b1 /\
     cache (state_of r) = upd c1 (Buf j) b2 /\
     ((r = Ok (Buf j) (state_of r) /\ lock b1 = None /\ b2 = set_lock (Some pid) b1) \/
      (r = Stop (Sleep (Buf j)) (state_of r) /\ lock b1 <> None /\ b2 = b1))).
Proof.
  intros (Ht & Hd & _ & Hr). split; [done|]. split; [done|].
  destruct r as [p s'|[msg|p| |] s']; try done.
  - destruct Hr as (j & d & c1 & b1 & -> & Hrc & Hb1 & Hl & Hc).
    right. exists j, d, c1, b1, (set_lock (Some pid) b1).
    split; [done|]. split; [done|]. split; [done|]. left. by repeat split.
  - destruct Hr as (-> & Hc & Hex). left. by repeat split.
  - destruct Hr as (j & d & c1 & b1 & -> & Hrc & Hb1 & Hl & Hc).
    right. exists j, d, c1, b1, b1.
    split; [done|]. split; [done|]. split.
    + change (cache (state_of (Stop (Sleep (Buf j)) s'))) with (cache s').
      rewrite Hc. symmetry. by apply upd_id.
    + right. by repeat split.
Qed.

Lemma admission_outcome s ls pid dv bn r :
  inv (cache s) ls ->
  admission s ls pid dv bn r ->
  ticks (state_of r) = ticks s /\ disk (state_of r) = disk s /\
  ((cache (state_of r) = cache s /\
    exists e, r = Stop e (state_of r) /\
              ((e = Fault /\ ~ (0 <= hash (to_int bn) < Z.of_nat NBUCKET)%Z) \/
               (e = Panic "bget: no buffers" /\ exhausted (cache s) ls))) \/
   exists j b b' h lh ls' l',
     hash (to_int bn) = Z.of_nat h /\ ls !! h = Some lh /\
     bufs (cache s) !! j = Some b /\ bufs (cache (state_of r)) !! j = Some b' /\
     (forall q, q <> Buf j ->
                payload <$> deref (cache (state_of r)) q = payload <$> deref (cache s) q) /\
     inv (cache (state_of r)) ls' /\ ls' !! h = Some l' /\
     first_match (cache (state_of r)) dv bn l' = Some j /\
     dev b' = dv /\ blockno b' = bn /\ data b' = data b /\ lastuse b' = lastuse b /\
     ((r = Ok (Buf j) (state_of r) /\ lock b = None /\ lock b' = Some pid) \/
      (r = Stop (Sleep (Buf j)) (state_of r) /\ lock b <> None /\ lock b' = lock b)) /\
     ((first_match (cache s) dv bn lh = Some j /\ valid b' = valid b /\
       refcnt b' = to_uint (refcnt b + 1) /\ ls' = ls) \/
      (first_match (cache s) dv bn lh = None /\ refcnt b = 0%Z /\
       valid b' = 0%Z /\ refcnt b' = 1%Z /\
       (ls' = ls \/
        exists d ld, d <> h /\ ls !! d = Some ld /\ j ∈ ld /\ ls' = move j d h ls)))).
Proof.
  intros Hinv Ha.
  destruct Ha as [Hr|h l j b Hh Hl Hm Hb|h l j b mt ch Hh Hl Hm Hf Hj Hb Hrf Hlt Hmin
                 |h l r Hh Hl Hm Hno Hev].
  - do 2 (split; [done|]). left. split; [done|]. exists Fault. split; [done|by left].
  - destruct (hand_over_outcome pid j (set_refcnt (to_uint (refcnt b + 1)) b)
                [EvAcquire h; EvRelease h; EvAcquireSleep (Buf j)] s)
      as (Ht & Hd & _ & b2 & Hc & Hsh).
    do 2 (split; [done|]). right. rewrite Hc.
    destruct (first_match_Some _ _ _ _ _ Hm) as (Hjl & b0 & Hb0 & Hdv & Hbn).
    assert (b0 = b) as -> by congruence.
    assert (payload b2 = payload (set_refcnt (to_uint (refcnt b + 1)) b)
            \/ (lock b = None /\ b2 = set_lock (Some pid) (set_refcnt (to_uint (refcnt b + 1)) b)))
      as Hb2 by (destruct Hsh as [(_ & ? & ->)|(_ & _ & ->)]; [by right|by left]).
    exists j, b, b2, h, l, ls, l.
    do 3 (split; [done|]).
    split; [rewrite bufs_upd by eauto; by rewrite decide_True|].
    split; [intros q Hq; by rewrite deref_upd_ne|].
    split.
    { apply (inv_upd_same _ _ _ b); try done;
        by destruct Hsh as [(_ & _ & ->)|(_ & _ & ->)]. }
    split; [done|]. split.
    { rewrite <- Hm. apply first_match_ext. intros x _.
      rewrite bufs_upd by eauto. case_decide as Hx; [|done]. subst x. rewrite Hb.
      by destruct Hsh as [(_ & _ & ->)|(_ & _ & ->)]. }
    do 4 (split; [by destruct Hsh as [(_ & _ & ->)|(_ & _ & ->)]|]).
    split.
    { destruct Hsh as [(Hr & Hlk & ->)|(Hr & Hlk & ->)]; [left|right]; by repeat split. }
    left. split; [done|]. by destruct Hsh as [(_ & _ & ->)|(_ & _ & ->)].
  - destruct (hand_over_outcome pid j
                (set_refcnt 1 (set_valid 0 (set_blockno bn (set_dev dv b))))
                [EvAcquire h; EvRelease h; EvAcquireSleep (Buf j)] s)
      as (Ht & Hd & _ & b2 & Hc & Hsh).
    do 2 (split; [done|]). right. rewrite Hc.
    exists j, b, b2, h, l, ls, l.
    do 3 (split; [done|]).
    split; [rewrite bufs_upd by eauto; by rewrite decide_True|].
    split; [intros q Hq; by rewrite deref_upd_ne|].
    split.
    { apply (inv_upd _ _ _ b); try done;
        try by destruct Hsh as [(_ & _ & ->)|(_ & _ & ->)].
      intros j' i l' [= <-] Hi Hj'.
      assert (blockno b2 = bn) as -> by (by destruct Hsh as [(_ & _ & ->)|(_ & _ & ->)]).
      rewrite Hh. f_equal. by eapply (inv_one_list _ _ Hinv h i l l' j). }
    split; [done|]. split.
    { apply (first_match_bind _ _ _ _ _ b); try done;
        by destruct Hsh as [(_ & _ & ->)|(_ & _ & ->)]. }
    do 4 (split; [by destruct Hsh as [(_ & _ & ->)|(_ & _ & ->)]|]).
    split.
    { destruct Hsh as [(Hr & Hlk & ->)|(Hr & Hlk & ->)]; [left|right]; by repeat split. }
    right. split; [done|]. split; [done|].
    split; [by destruct Hsh as [(_ & _ & ->)|(_ & _ & ->)]|].
    split; [by destruct Hsh as [(_ & _ & ->)|(_ & _ & ->)]|]. by left.
  - destruct (after_eviction_outcome _ _ _ _ _ _ _ Hev)
      as (Ht & Hd & [(Hc & Hex & Hr)|(j & d & c1 & b1 & b2 & Hrc & Hb1 & Hc & Hsh)]).
    { do 2 (split; [done|]). left. split; [done|]. eexists. split; [exact Hr|by right]. }
    do 2 (split; [done|]). right. rewrite Hc.
    pose proof Hrc as (Hne & (ld & Hld & Hjd) & (b0 & Hb0 & Hrf & _) &
                       (Hpay & (b0' & b1' & Hb0' & Hb1' & Hp1) & _) & Hi1).
    assert (b1' = b1) by congruence. subst b1'.
    assert (b0' = b0) by congruence. subst b0'.
    unfold payload in Hp1. injection Hp1 as Hv Hdv Hbn Hlk Hr1 Hlu Hdt.
    assert (bufs (upd c1 (Buf j) b2) !! j = Some b2) as Hb2
      by (rewrite bufs_upd by eauto; by rewrite decide_True).
    exists j, b0, b2, h, l, (move j d h ls), (j :: l).
    do 3 (split; [done|]). split; [done|].
    split; [intros q Hq; rewrite deref_upd_ne by done; by apply Hpay|].
    split.
    { apply (inv_upd_same _ _ _ b1); try done;
        by destruct Hsh as [(_ & _ & ->)|(_ & _ & ->)]. }
    split; [rewrite move_lookup by done; rewrite decide_True by done; by rewrite Hl|].
    split.
    { apply (first_match_head _ _ _ _ _ b2); [done| |];
        destruct Hsh as [(_ & _ & ->)|(_ & _ & ->)]; simpl; congruence. }
    do 4 (split; [destruct Hsh as [(_ & _ & ->)|(_ & _ & ->)]; simpl; congruence|]).
    split.
    { destruct Hsh as [(Hr & Hlk' & ->)|(Hr & Hlk' & ->)]; [left|right].
      - split; [done|]. split; [congruence|done].
      - split; [done|]. split; congruence. }
    right. split; [done|]. split; [done|].
    split; [destruct Hsh as [(_ & _ & ->)|(_ & _ & ->)]; simpl; congruence|].
    split; [destruct Hsh as [(_ & _ & ->)|(_ & _ & ->)]; simpl; congruence|].
    right. by exists d, ld.
Qed.

Lemma bget_outcome s ls pid dv bn :
  inv (cache s) ls ->
  ticks (state_of (bget pid dv bn s)) = ticks s /\
  disk (state_of (bget pid dv bn s)) = disk s /\
  ((cache (state_of (bget pid dv bn s)) = cache s /\
    exists e, bget pid dv bn s = Stop e (state_of (bget pid dv bn s)) /\
              ((e = Fault /\ ~ (0 <= hash (to_int bn) < Z.of_nat NBUCKET)%Z) \/
               (e = Panic "bget: no buffers" /\ exhausted (cache s) ls))) \/
   exists j b b' h lh ls' l',
     hash (to_int bn) = Z.of_nat h /\ ls !! h = Some lh /\
     bufs (cache s) !! j = Some b /\
     bufs (cache (state_of (bget pid dv bn s))) !! j = Some b' /\
     (forall q, q <> Buf j ->
                payload <$> deref (cache (state_of (bget pid dv bn s))) q =
                payload <$> deref (cache s) q) /\
     inv (cache (state_of (bget pid dv bn s))) ls' /\ ls' !! h = Some l' /\
     first_match (cache (state_of (bget pid dv bn s))) dv bn l' = Some j /\
     dev b' = dv /\ blockno b' = bn /\ data b' = data b /\ lastuse b' = lastuse b /\
     ((bget pid dv bn s = Ok (Buf j) (state_of (bget pid dv bn s)) /\
       lock b = None /\ lock b' = Some pid) \/
      (bget pid dv bn s = Stop (Sleep (Buf j)) (state_of (bget pid dv bn s)) /\
       lock b <> None /\ lock b' = lock b)) /\
     ((first_match (cache s) dv bn lh = Some j /\ valid b' = valid b /\
       refcnt b' = to_uint (refcnt b + 1) /\ ls' = ls) \/
      (first_match (cache s) dv bn lh = None /\ refcnt b = 0%Z /\
       valid b' = 0%Z /\ refcnt b' = 1%Z /\
       (ls' = ls \/
        exists d ld, d <> h /\ ls !! d = Some ld /\ j ∈ ld /\ ls' = move j d h ls)))).
Proof. intros Hinv. apply admission_outcome; [done|]. by apply bget_admission. Qed.

(** ** No bad access, no endless walk *)

(** X1. On a cache that is lists of buckets, no call of the interface on a
    block number below [2^31] or on a slot of [bcache.buf] reads or writes
    outside the two arrays or through a null pointer, and no list walk goes
    on for ever: the call returns, or it is a [bget] (alone or in [bread])
    that waits for a sleep-lock or panics with "bget: no buffers", or a
    [bwrite] or [brelse] that panics with its own name.  [bpin] and
    [bunpin] always return. *)
Theorem run_safe s ls k :
  0 < NBUCKET ->
  inv (cache s) ls ->
  match k with
  | Bget _ _ bn | Bread _ _ bn => (0 <= bn < 2 ^ 31)%Z
  | Bwrite _ j | Brelse _ j | Bpin j | Bunpin j => j < NBUF
  end ->
  match run k s with
  | Ok _ _ => True
  | Stop (Sleep _) _ => exists pid dv bn, k = Bget pid dv bn \/ k = Bread pid dv bn
  | Stop (Panic msg) _ =>
      (exists pid dv bn, (k = Bget pid dv bn \/ k = Bread pid dv bn) /\
                         msg = "bget: no buffers"%string) \/
      (exists pid j, k = Bwrite pid j /\ msg = "bwrite"%string) \/
      (exists pid j, k = Brelse pid j /\ msg = "brelse"%string)
  | Stop Fault _ | Stop Diverge _ => False
  end.
Proof.
  intros Hn Hinv Hk.
  assert (forall j, j < NBUF -> is_Some (bufs (cache s) !! j)) as Hslot.
  { intros j Hj. apply lookup_lt_is_Some. by rewrite (inv_bufs _ _ Hinv). }
  destruct k as [pid dv bn|pid dv bn|pid j|pid j|j|j]; unfold run.
  - pose proof (hash_small bn Hn Hk) as Hh.
    destruct (bget_outcome s ls pid dv bn Hinv)
      as (_ & _ & [(_ & e & Hr & He)|(j & b & b' & h & lh & ls' & l' & _ & _ & _ & _ & _ & _
                                      & _ & _ & _ & _ & _ & _ & Hsh & _)]).
    + unfold bind. rewrite Hr. destruct He as [[-> He]|[-> _]]; [done|].
      left. exists pid, dv, bn. split; [by left|done].
    + unfold bind. destruct Hsh as [(-> & _)|(-> & _)]; [done|].
      exists pid, dv, bn. by left.
  - pose proof (hash_small bn Hn Hk) as Hh.
    destruct (bget_outcome s ls pid dv bn Hinv)
      as (_ & _ & [(_ & e & Hr & He)|(j & b & b' & h & lh & ls' & l' & _ & _ & _ & Hb' & _ & _
                                      & _ & _ & _ & _ & _ & _ & Hsh & _)]).
    + unfold bind at 1. rewrite (bread_stop _ _ _ _ _ _ Hr).
      destruct He as [[-> He]|[-> _]]; [done|].
      left. exists pid, dv, bn. split; [by right|done].
    + destruct Hsh as [(Hr & _)|(Hr & _)].
      * unfold bind at 1. by rewrite (bread_ok _ _ _ _ b' _ _ Hr Hb').
      * unfold bind at 1. rewrite (bread_stop _ _ _ _ _ _ Hr).
        exists pid, dv, bn. by right.
  - destruct (Hslot j Hk) as [b Hb].
    destruct (decide (lock b = Some pid)) as [Hl|Hl].
    + by rewrite (bwrite_ok pid (Buf j) b s Hb Hl).
    + rewrite (bwrite_panic pid (Buf j) b s Hb Hl). right. left. by exists pid, j.
  - destruct (Hslot j Hk) as [b Hb].
    destruct (inv_owner_hash _ _ _ _ Hinv Hb) as (i & l & Hi & Hj & Hlt & Hh).
    destruct (decide (lock b = Some pid)) as [Hl|Hl].
    + by rewrite (brelse_ok pid (Buf j) b i s Hb Hl Hh Hlt).
    + rewrite (brelse_panic pid (Buf j) b s Hb Hl). right. right. by exists pid, j.
  - destruct (Hslot j Hk) as [b Hb].
    destruct (inv_owner_hash _ _ _ _ Hinv Hb) as (i & l & Hi & Hj & Hlt & Hh).
    by rewrite (bpin_ok (Buf j) b i s Hb Hh Hlt).
  - destruct (Hslot j Hk) as [b Hb].
    destruct (inv_owner_hash _ _ _ _ Hinv Hb) as (i & l & Hi & Hj & Hlt & Hh).
    by rewrite (bunpin_ok (Buf j) b i s Hb Hh Hlt).
Qed.

(** ** What [bread] returns *)

(** A [bread] that returns is a [bget] that returned, then the transfer if
    the slot was not valid. *)
Lemma bread_ok_state s ls pid dv bn p s' :
  inv (cache s) ls ->
  bread pid dv bn s = Ok p s' ->
  exists j b b1 h lh ls' l' s1,
    p = Buf j /\ bget pid dv bn s = Ok (Buf j) s1 /\
    ticks s1 = ticks s /\ disk s1 = disk s /\
    hash (to_int bn) = Z.of_nat h /\ ls !! h = Some lh /\
    bufs (cache s) !! j = Some b /\ bufs (cache s1) !! j = Some b1 /\
    (forall q, q <> Buf j -> payload <$> deref (cache s1) q = payload <$> deref (cache s) q) /\
    inv (cache s1) ls' /\ ls' !! h = Some l' /\
    first_match (cache s1) dv bn l' = Some j /\
    dev b1 = dv /\ blockno b1 = bn /\ data b1 = data b /\ lastuse b1 = lastuse b /\
    lock b = None /\ lock b1 = Some pid /\
    ((first_match (cache s) dv bn lh = Some j /\ valid b1 = valid b /\
      refcnt b1 = to_uint (refcnt b + 1) /\ ls' = ls) \/
     (first_match (cache s) dv bn lh = None /\ refcnt b = 0%Z /\
      valid b1 = 0%Z /\ refcnt b1 = 1%Z /\
      (ls' = ls \/
       exists d ld, d <> h /\ ls !! d = Some ld /\ j ∈ ld /\ ls' = move j d h ls))) /\
    s' = if decide (valid b1 = 0%Z)
         then mkstate
                (upd (cache s1) (Buf j)
                   (set_valid 1 (set_data (default (replicate BSIZE 0%Z)
                                             (disk s !! (dv, bn))) b1)))
                (ticks s) (disk s) (trace s1 ++ [EvDiskRW (Buf j) false])
         else s1.
Proof.
  intros Hinv Hrd.
  destruct (bget_outcome s ls pid dv bn Hinv)
    as (Ht & Hd & [(_ & e & Hr & _)|(j & b & b1 & h & lh & ls' & l' & Hh & Hlh & Hb & Hb1 & Hpay
                                     & Hinv1 & Hl' & Hfm & Hdv & Hbn & Hdt & Hlu & Hsh & Hcase)]).
  { rewrite (bread_stop _ _ _ _ _ _ Hr) in Hrd. discriminate. }
  destruct Hsh as [(Hr & Hlk & Hlk1)|(Hr & _)].
  2:{ rewrite (bread_stop _ _ _ _ _ _ Hr) in Hrd. discriminate. }
  rewrite (bread_ok _ _ _ _ b1 _ _ Hr Hb1) in Hrd. injection Hrd as <- <-.
  exists j, b, b1, h, lh, ls', l', (state_of (bget pid dv bn s)).
  do 18 (split; [done|]). split; [done|].
  rewrite Hdv, Hbn, Ht, Hd. done.
Qed.

(** The second half of [bread], on the slot [bget] has returned. *)
Lemma bread_fill s1 ls' l' j b1 dv bn dt t :
  inv (cache s1) ls' ->
  bufs (cache s1) !! j = Some b1 ->
  first_match (cache s1) dv bn l' = Some j ->
  exists b',
    bufs (cache (if decide (valid b1 = 0%Z)
                 then mkstate (upd (cache s1) (Buf j) (set_valid 1 (set_data dt b1)))
                        (ticks s1) (disk s1) t
                 else s1)) !! j = Some b' /\
    inv (cache (if decide (valid b1 = 0%Z)
                then mkstate (upd (cache s1) (Buf j) (set_valid 1 (set_data dt b1)))
                       (ticks s1) (disk s1) t
                else s1)) ls' /\
    first_match (cache (if decide (valid b1 = 0%Z)
                        then mkstate (upd (cache s1) (Buf j) (set_valid 1 (set_data dt b1)))
                               (ticks s1) (disk s1) t
                        else s1)) dv bn l' = Some j /\
    valid b' <> 0%Z /\
    (valid b1 <> 0%Z -> b' = b1) /\
    (valid b1 = 0%Z -> b' = set_valid 1 (set_data dt b1)).
Proof.
  intros Hinv Hb1 Hfm. case_decide as Hv; norm.
  - exists (set_valid 1 (set_data dt b1)).
    split; [rewrite bufs_upd by eauto; by rewrite decide_True|].
    split; [by apply (inv_upd_same _ _ _ b1)|].
    split.
    { rewrite <- Hfm. apply first_match_ext. intros x _.
      rewrite bufs_upd by eauto. case_decide as Hx; [|done]. subst x. by rewrite Hb1. }
    by repeat split.
  - exists b1. do 3 (split; [done|]). by repeat split.
Qed.

(** X2. When [bread] returns, what it returns is a slot of [bcache.buf]
    that is on the list of the block's bucket and is the first slot there
    bound to the block; the caller holds its sleep-lock, which was free, and
    its [valid] flag is set.  The cache is again lists of buckets, and the
    clock and the disk are as they were. *)
Theorem bread_returns s ls pid dv bn p s' :
  inv (cache s) ls ->
  bread pid dv bn s = Ok p s' ->
  exists j b b' h ls' l',
    p = Buf j /\ inv (cache s') ls' /\
    hash (to_int bn) = Z.of_nat h /\ ls' !! h = Some l' /\ j ∈ l' /\
    first_match (cache s') dv bn l' = Some j /\
    bufs (cache s) !! j = Some b /\ lock b = None /\
    bufs (cache s') !! j = Some b' /\
    dev b' = dv /\ blockno b' = bn /\ lock b' = Some pid /\ valid b' <> 0%Z /\
    ticks s' = ticks s /\ disk s' = disk s.
Proof.
  intros Hinv Hrd.
  destruct (bread_ok_state s ls pid dv bn p s' Hinv Hrd)
    as (j & b & b1 & h & lh & ls' & l' & s1 & -> & Hg & Ht & Hd & Hh & Hlh & Hb & Hb1 & Hpay
        & Hinv1 & Hl' & Hfm & Hdv & Hbn & Hdt & Hlu & Hlk & Hlk1 & Hcase & ->).
  destruct (first_match_Some _ _ _ _ _ Hfm) as (Hjl & _).
  destruct (bread_fill s1 ls' l' j b1 dv bn
              (default (replicate BSIZE 0%Z) (disk s !! (dv, bn)))
              (trace s1 ++ [EvDiskRW (Buf j) false]) Hinv1 Hb1 Hfm)
    as (b' & Hb' & Hinv' & Hfm' & Hv' & Hsame & Hfill).
  rewrite <- Ht, <- Hd in *.
  exists j, b, b', h, ls', l'.
  do 8 (split; [done|]). split; [done|].
  assert (dev b' = dv /\ blockno b' = bn /\ lock b' = Some pid) as (? & ? & ?).
  { destruct (decide (valid b1 = 0%Z)) as [Hv|Hv].
    - by rewrite (Hfill Hv).
    - by rewrite (Hsame Hv). }
  do 4 (split; [done|]). by case_decide.
Qed.

Lemma to_uint_decr_incr r : (0 <= r < 2 ^ 32)%Z -> to_uint (to_uint (r - 1) + 1) = r.
Proof.
  intros Hr. unfold to_uint. rewrite Z.add_mod_idemp_l by lia.
  replace (r - 1 + 1)%Z with r by lia. apply Z.mod_small. lia.
Qed.

Lemma to_uint_incr_decr r : (0 <= r < 2 ^ 32)%Z -> to_uint (to_uint (r + 1) - 1) = r.
Proof.
  intros Hr. unfold to_uint.
  replace ((r + 1) mod 2 ^ 32 - 1)%Z with ((r + 1) mod 2 ^ 32 + (-1))%Z by lia.
  rewrite Z.add_mod_idemp_l by lia.
  replace (r + 1 + -1)%Z with r by lia. apply Z.mod_small. lia.
Qed.

(** ** A block read, released and read again *)


(** ** Pins *)

(** X4. [bpin] followed by [bunpin] on a slot, and [bunpin] followed by
    [bpin], leave the whole cache as it was, whatever the count of the slot
    (the 32-bit count wraps one way and back): all that is left of the two
    calls is that each took and released the spinlock of the bucket that
    owns the slot. *)
Theorem bpin_bunpin s ls j b :
  inv (cache s) ls ->
  bufs (cache s) !! j = Some b ->
  (0 <= refcnt b < 2 ^ 32)%Z ->
  exists i l,
    ls !! i = Some l /\ j ∈ l /\
    (bpin (Buf j) ;; bunpin (Buf j)) s =
    Ok tt (mkstate (cache s) (ticks s) (disk s)
             (trace s ++ [EvAcquire i; EvRelease i; EvAcquire i; EvRelease i])) /\
    (bunpin (Buf j) ;; bpin (Buf j)) s =
    Ok tt (mkstate (cache s) (ticks s) (disk s)
             (trace s ++ [EvAcquire i; EvRelease i; EvAcquire i; EvRelease i])).
Proof.
  intros Hinv Hb Hr.
  destruct (inv_owner_hash _ _ _ _ Hinv Hb) as (i & l & Hi & Hj & Hlt & Hh).
  exists i, l. split; [done|]. split; [done|]. split.
  - erewrite bind_ok; [|by apply (bpin_ok (Buf j) b i)].
    erewrite bunpin_ok; [|norm; apply (deref_upd_eq _ (Buf j)); simpl; eauto|done|done].
    norm. rewrite upd_upd, to_uint_incr_decr by done.
    assert (set_refcnt (refcnt b) (set_refcnt (to_uint (refcnt b + 1)) b) = b) as ->
      by (by destruct b).
    rewrite (upd_id _ (Buf j) b) by done. by rewrite <- app_assoc.
  - erewrite bind_ok; [|by apply (bunpin_ok (Buf j) b i)].
    erewrite bpin_ok; [|norm; apply (deref_upd_eq _ (Buf j)); simpl; eauto|done|done].
    norm. rewrite upd_upd, to_uint_decr_incr by done.
    assert (set_refcnt (refcnt b) (set_refcnt (to_uint (refcnt b - 1)) b) = b) as ->
      by (by destruct b).
    rewrite (upd_id _ (Buf j) b) by done. by rewrite <- app_assoc.
Qed.

(** X5. Nothing stops a reference being dropped from a slot that has
    none: [bunpin], and [brelse] by the holder of the sleep-lock, take a
    count of 0 to 4294967295.  The slot is then not unreferenced, and its
    last-use tick is not written. *)
Theorem refcnt_underflow s ls pid j b :
  inv (cache s) ls ->
  bufs (cache s) !! j = Some b ->
  refcnt b = 0%Z ->
  (exists s' b',
     bunpin (Buf j) s = Ok tt s' /\ bufs (cache s') !! j = Some b' /\
     refcnt b' = 4294967295%Z /\ lastuse b' = lastuse b /\ ~ free (cache s') j) /\
  (lock b = Some pid ->
   exists s' b',
     brelse pid (Buf j) s = Ok tt s' /\ bufs (cache s') !! j = Some b' /\
     refcnt b' = 4294967295%Z /\ lastuse b' = lastuse b /\ ~ free (cache s') j).
Proof.
  intros Hinv Hb Hr.
  destruct (inv_owner_hash _ _ _ _ Hinv Hb) as (i & l & Hi & Hj & Hlt & Hh).
  assert (to_uint (refcnt b - 1) = 4294967295%Z) as Hw by (by rewrite Hr).
  split.
  - eexists _, (set_refcnt (to_uint (refcnt b - 1)) b).
    split; [by apply (bunpin_ok (Buf j) b i)|]. norm.
    assert (bufs (upd (cache s) (Buf j) (set_refcnt (to_uint (refcnt b - 1)) b)) !! j
            = Some (set_refcnt (to_uint (refcnt b - 1)) b)) as Hb'
      by (rewrite bufs_upd by eauto; by rewrite decide_True).
    split; [done|]. split; [done|]. split; [done|].
    intros (b' & Hb'' & Hz). rewrite Hb' in Hb''. injection Hb'' as <-.
    norm in Hz. rewrite Hw in Hz. discriminate.
  - intros Hl.
    pose proof (brelse_ok pid (Buf j) b i s Hb Hl Hh Hlt) as Hrel. cbv zeta in Hrel.
    norm in Hrel. rewrite decide_False in Hrel by (rewrite Hw; discriminate).
    eexists _, (set_refcnt (to_uint (refcnt b - 1)) (set_lock None b)).
    split; [exact Hrel|]. norm.
    assert (bufs (upd (cache s) (Buf j)
                    (set_refcnt (to_uint (refcnt b - 1)) (set_lock None b))) !! j
            = Some (set_refcnt (to_uint (refcnt b - 1)) (set_lock None b))) as Hb'
      by (rewrite bufs_upd by eauto; by rewrite decide_True).
    split; [done|]. split; [done|]. split; [done|].
    intros (b' & Hb'' & Hz). rewrite Hb' in Hb''. injection Hb'' as <-.
    norm in Hz. rewrite Hw in Hz. discriminate.
Qed.

(** ** A slot in use stays what it is *)

Lemma move_elem (ls : list (list nat)) j0 d h i l j :
  d <> h -> is_Some (ls !! h) -> ls !! i = Some l -> j ∈ l -> j <> j0 ->
  exists l', move j0 d h ls !! i = Some l' /\ j ∈ l'.
Proof.
  intros Hne [lh Hlh] Hi Hj Hjj. rewrite move_lookup by done.
  destruct (decide (i = h)) as [->|Hih].
  - rewrite Hlh. exists (j0 :: lh). split; [done|].
    assert (lh = l) as -> by congruence. by right.
  - destruct (decide (i = d)) as [->|Hid].
    + rewrite Hi. exists (filter (fun x => x <> j0) l). split; [done|].
      by apply list_elem_of_filter.
    + by exists l.
Qed.

(** What [bget] does to a slot that has a reference. *)
Lemma bget_kept s ls pid dv bn j b :
  inv (cache s) ls ->
  bufs (cache s) !! j = Some b ->
  refcnt b <> 0%Z ->
  exists b',
    bufs (cache (state_of (bget pid dv bn s))) !! j = Some b' /\
    key b' = key b /\ valid b' = valid b /\ data b' = data b /\
    forall i l, ls !! i = Some l -> j ∈ l ->
                exists ls' l', inv (cache (state_of (bget pid dv bn s))) ls' /\
                               ls' !! i = Some l' /\ j ∈ l'.
Proof.
  intros Hinv Hb Hr.
  destruct (bget_outcome s ls pid dv bn Hinv)
    as (_ & _ & [(Hc & _)|(j0 & b0 & b0' & h & lh & ls' & l' & Hh & Hlh & Hb0 & Hb0'
                           & Hpay & Hinv' & Hl' & Hfm & Hdv & Hbn & Hdt & Hlu & Hsh & Hcase)]).
  { rewrite Hc. exists b. do 4 (split; [done|]). intros i l Hi Hj. by exists ls, l. }
  destruct (decide (j = j0)) as [->|Hne].
  - assert (b0 = b) as -> by congruence.
    destruct Hcase as [(Hm & Hv & _ & ->)|(_ & Hz & _)]; [|done].
    destruct (first_match_Some _ _ _ _ _ Hm) as (_ & b1 & Hb1 & Hd1 & Hn1).
    assert (b1 = b) as -> by congruence.
    exists b0'. split; [done|]. split; [unfold key; congruence|].
    do 2 (split; [done|]). intros i l Hi Hj. by exists ls, l.
  - assert (Buf j <> Buf j0) as Hq by congruence.
    specialize (Hpay (Buf j) Hq).
    change (payload <$> bufs (cache (state_of (bget pid dv bn s))) !! j
            = payload <$> bufs (cache s) !! j) in Hpay.
    rewrite Hb in Hpay.
    destruct (bufs (cache (state_of (bget pid dv bn s))) !! j) as [b'|]; [|done].
    assert (payload b' = payload b) as Hpp by (simpl in Hpay; congruence).
    unfold payload in Hpp. injection Hpp as Hv Hd Hn _ _ _ Hdt'.
    exists b'. split; [done|]. split; [unfold key; congruence|].
    do 2 (split; [done|]). intros i l Hi Hj.
    assert (ls' = ls \/ exists d ld, d <> h /\ ls !! d = Some ld /\ j0 ∈ ld /\
                                     ls' = move j0 d h ls) as [->|(d & ld & Hdh & Hld & _ & ->)].
    { destruct Hcase as [(_ & _ & _ & ->)|(_ & _ & _ & _ & Hls)]; [by left|done]. }
    + by exists ls, l.
    + destruct (move_elem ls j0 d h i l j Hdh (ex_intro _ lh Hlh) Hi Hj Hne) as (l2 & Hl2 & Hj2).
      by exists (move j0 d h ls), l2.
Qed.

(** X6. A slot that has a reference is left bound to its block by every
    call of the interface, whoever makes it and for whatever block or slot:
    the slot keeps its device and block number and stays on the list of its
    bucket, and if it is valid it stays valid with the same bytes. *)
Theorem referenced_kept s ls k j b :
  inv (cache s) ls ->
  bufs (cache s) !! j = Some b ->
  refcnt b <> 0%Z ->
  exists b',
    bufs (cache (state_of (run k s))) !! j = Some b' /\
    key b' = key b /\
    (valid b <> 0%Z -> valid b' = valid b /\ data b' = data b) /\
    forall i l, ls !! i = Some l -> j ∈ l ->
                exists ls' l', inv (cache (state_of (run k s))) ls' /\
                               ls' !! i = Some l' /\ j ∈ l'.
Proof.
  intros Hinv Hb Hr.
  assert (forall j0 b0 bx,
            bufs (cache s) !! j0 = Some b0 ->
            key bx = key b0 -> valid bx = valid b0 -> data bx = data b0 ->
            next bx = next b0 -> prev bx = prev b0 ->
            exists b',
              bufs (upd (cache s) (Buf j0) bx) !! j = Some b' /\
              key b' = key b /\
              (valid b <> 0%Z -> valid b' = valid b /\ data b' = data b) /\
              forall i l, ls !! i = Some l -> j ∈ l ->
                          exists ls' l', inv (upd (cache s) (Buf j0) bx) ls' /\
                                         ls' !! i = Some l' /\ j ∈ l') as Hupd.
  { intros j0 b0 bx Hb0 Hk Hv Hd Hn Hp.
    assert (inv (upd (cache s) (Buf j0) bx) ls) as Hinv'.
    { apply (inv_upd_same _ _ _ b0); try done. by injection Hk. }
    rewrite bufs_upd by eauto. destruct (decide (j = j0)) as [->|Hne].
    - assert (b0 = b) as -> by congruence. exists bx.
      do 3 (split; [done|]). intros i l Hi Hj. by exists ls, l.
    - exists b. do 3 (split; [done|]). intros i l Hi Hj. by exists ls, l. }
  assert (exists b',
            bufs (cache s) !! j = Some b' /\ key b' = key b /\
            (valid b <> 0%Z -> valid b' = valid b /\ data b' = data b) /\
            forall i l, ls !! i = Some l -> j ∈ l ->
                        exists ls' l', inv (cache s) ls' /\ ls' !! i = Some l' /\ j ∈ l')
    as Hsame.
  { exists b. do 3 (split; [done|]). intros i l Hi Hj. by exists ls, l. }
  destruct k as [pid dv bn|pid dv bn|pid j0|pid j0|j0|j0]; unfold run;
    rewrite ?state_of_bind_ret.
  - destruct (bget_kept s ls pid dv bn j b Hinv Hb Hr) as (b' & Hb' & Hk & Hv & Hd & Hl).
    exists b'. by repeat split.
  - destruct (bget_kept s ls pid dv bn j b Hinv Hb Hr) as (b1 & Hb1 & Hk & Hv & Hd & Hl).
    destruct (bread_cases pid dv bn s) as [->|(p & s1 & bp & Hg & Hp & Hvp & ->)].
    { exists b1. by repeat split. }
    rewrite Hg in Hb1, Hl. norm. cbn [state_of cache] in *.
    change (bufs (upd (cache s1) p (set_valid 1 (set_data
              (default (replicate BSIZE 0%Z) (disk s1 !! (dev bp, blockno bp))) bp))) !! j)
      with (deref (upd (cache s1) p (set_valid 1 (set_data
              (default (replicate BSIZE 0%Z) (disk s1 !! (dev bp, blockno bp))) bp))) (Buf j)).
    rewrite deref_upd by eauto.
    assert (forall i l, ls !! i = Some l -> j ∈ l ->
              exists ls' l',
                inv (upd (cache s1) p (set_valid 1 (set_data
                       (default (replicate BSIZE 0%Z) (disk s1 !! (dev bp, blockno bp))) bp))) ls'
                /\ ls' !! i = Some l' /\ j ∈ l') as Hl2.
    { intros i l Hi Hj. destruct (Hl i l Hi Hj) as (ls' & l' & Hinv' & Hi' & Hj').
      exists ls', l'. split; [|done]. by apply (inv_upd_same _ _ _ bp). }
    destruct (decide (Buf j = p)) as [<-|Hne].
    + assert (bp = b1) as -> by (simpl in Hp; congruence).
      eexists. split; [done|]. split; [done|]. split; [|done].
      intros Hvb. rewrite Hv in Hvp. done.
    + exists b1. split; [done|]. by repeat split.
  - rewrite bwrite_cache. exact Hsame.
  - rewrite (brelse_cache s ls pid j0 Hinv).
    destruct (bufs (cache s) !! j0) as [b0|] eqn:Hb0; [|exact Hsame].
    case_decide; [|exact Hsame].
    apply (Hupd j0 b0); try done; cbv zeta; by case_decide.
  - rewrite (bpin_cache s ls j0 Hinv).
    destruct (bufs (cache s) !! j0) as [b0|] eqn:Hb0; [|exact Hsame].
    by apply (Hupd j0 b0).
  - rewrite (bunpin_cache s ls j0 Hinv).
    destruct (bufs (cache s) !! j0) as [b0|] eqn:Hb0; [|exact Hsame].
    by apply (Hupd j0 b0).
Qed.

(** ** One slot for one block *)

(** When the walk of the home list finds no match, no slot of the cache
    is bound to the block: a slot is on the list its block number hashes
    to. *)
Lemma miss_unbound c ls dv bn h lh x b :
  inv c ls ->
  hash (to_int bn) = Z.of_nat h -> ls !! h = Some lh ->
  first_match c dv bn lh = None ->
  bufs c !! x = Some b -> key b <> (dv, bn).
Proof.
  intros Hinv Hh Hlh Hm Hb [= Hd Hn].
  destruct (inv_owner_hash _ _ _ _ Hinv Hb) as (i & l & Hi & Hx & _ & Hhi).
  rewrite Hn, Hh in Hhi. assert (i = h) as -> by lia.
  assert (l = lh) as -> by congruence.
  by apply (first_match_None _ _ _ _ _ _ Hm Hx Hb).
Qed.

Lemma upd_keys c j b b' x :
  bufs c !! j = Some b -> key b' = key b ->
  key <$> bufs (upd c (Buf j) b') !! x = key <$> bufs c !! x.
Proof.
  intros Hb Hk. rewrite bufs_upd by eauto. case_decide as Hx; [|done].
  subst x. rewrite Hb. simpl. by f_equal.
Qed.

Lemma unused_payload b b' : payload b' = payload b -> unused b -> unused b'.
Proof.
  unfold payload, unused. intros [= Hv _ _ Hl Hr _ _]. by rewrite Hv, Hl, Hr.
Qed.

Lemma settled_check_sound c ls : settled_check c ls = true -> settled c ls.
Proof.
  intros Hc i l x b Hi Hx Hb. unfold settled_check in Hc.
  rewrite forallb_forall in Hc.
  assert (In l ls) as Hl by (apply list_elem_of_In; by eapply list_elem_of_lookup_2).
  specialize (Hc l Hl). rewrite forallb_forall in Hc.
  specialize (Hc x (proj1 (list_elem_of_In _ _) Hx)). rewrite Hb in Hc.
  apply orb_true_iff in Hc as [Hc|Hc].
  - left. by apply bool_decide_eq_true in Hc.
  - right. by apply bool_decide_eq_true in Hc.
Qed.

(** A slot bound to another block can be skipped by the walk. *)
Lemma first_match_skip c dv bn l j :
  (forall bj, bufs c !! j = Some bj -> ~ (dev bj = dv /\ blockno bj = bn)) ->
  first_match c dv bn (filter (fun x => x <> j) l) = first_match c dv bn l.
Proof.
  intros Hj. induction l as [|x l IH]; [done|].
  rewrite filter_cons. destruct (decide (x <> j)) as [Hx|Hx].
  - cbn [first_match]. by rewrite IH.
  - assert (x = j) as -> by (destruct (decide (x = j)); [done|by destruct Hx]).
    cbn [first_match]. destruct (bufs c !! j) as [bj|] eqn:Hb; [|done].
    rewrite decide_False by (by apply Hj). done.
Qed.

Lemma first_match_filter c dv bn l j x :
  first_match c dv bn l = Some x -> x <> j ->
  first_match c dv bn (filter (fun y => y <> j) l) = Some x.
Proof.
  intros Hm Hx. induction l as [|y l IH]; [done|].
  rewrite filter_cons. cbn [first_match] in Hm.
  destruct (decide (y <> j)) as [Hy|Hy].
  - cbn [first_match]. destruct (bufs c !! y) as [b|]; [|by apply IH].
    destruct (decide (dev b = dv /\ blockno b = bn)); [done|by apply IH].
  - assert (y = j) as -> by (destruct (decide (y = j)); [done|by destruct Hy]).
    destruct (bufs c !! j) as [b|]; [|by apply IH].
    destruct (decide (dev b = dv /\ blockno b = bn)); [congruence|by apply IH].
Qed.

(** The first match for a block stays the first match when slot [j] is
    bound to another block and is put on the list or taken off it. *)
Lemma first_match_keep c c' dv bn l l' x j :
  (forall y, y <> j -> key <$> bufs c' !! y = key <$> bufs c !! y) ->
  (forall bj, bufs c' !! j = Some bj -> ~ (dev bj = dv /\ blockno bj = bn)) ->
  filter (fun y => y <> j) l' = filter (fun y => y <> j) l ->
  first_match c dv bn l = Some x -> x <> j ->
  first_match c' dv bn l' = Some x.
Proof.
  intros Hk Hj Hf Hm Hx.
  rewrite <- (first_match_skip c' dv bn l' j Hj), Hf.
  rewrite (first_match_ext c c').
  - by apply first_match_filter.
  - intros y Hy. apply list_elem_of_filter in Hy as [Hy _]. by apply Hk.
Qed.

Lemma settled_upd c ls j b b2 :
  settled c ls -> bufs c !! j = Some b -> key b2 = key b -> ~ unused b ->
  settled (upd c (Buf j) b2) ls.
Proof.
  intros Hs Hb Hk Hu i l x bx Hi Hx Hbx.
  assert (forall dv bn l0,
            first_match (upd c (Buf j) b2) dv bn l0 = first_match c dv bn l0) as Hfm.
  { intros. apply first_match_ext. intros y _. by apply (upd_keys _ _ b). }
  rewrite Hfm. rewrite bufs_upd in Hbx by eauto.
  destruct (decide (x = j)) as [->|Hne].
  - injection Hbx as <-. left. injection Hk as -> ->.
    by destruct (Hs i l j b Hi Hx Hb).
  - by apply (Hs i l x bx).
Qed.

(** Two slots in use are bound to different blocks. *)
Lemma settled_unique c ls x y bx by_ :
  inv c ls -> settled c ls ->
  bufs c !! x = Some bx -> bufs c !! y = Some by_ ->
  ~ unused bx -> ~ unused by_ -> key bx = key by_ -> x = y.
Proof.
  intros Hinv Hs Hx Hy Hux Huy [= Hd Hn].
  destruct (inv_owner_hash _ _ _ _ Hinv Hx) as (i & l & Hi & Hxl & _ & Hhx).
  destruct (inv_owner_hash _ _ _ _ Hinv Hy) as (i' & l' & Hi' & Hyl & _ & Hhy).
  rewrite Hn in Hhx. assert (i' = i) as -> by lia.
  assert (l' = l) as -> by congruence.
  destruct (Hs i l x bx Hi Hxl Hx) as [Hfx|?]; [|done].
  destruct (Hs i l y by_ Hi Hyl Hy) as [Hfy|?]; [|done].
  rewrite Hd, Hn in Hfx. congruence.
Qed.

Lemma move_same_filter (ls : list (list nat)) j d h i l' :
  d <> h -> move j d h ls !! i = Some l' ->
  exists l, ls !! i = Some l /\
            filter (fun y => y <> j) l' = filter (fun y => y <> j) l.
Proof.
  intros Hne. rewrite move_lookup by done.
  destruct (decide (i = h)) as [->|Hih].
  - destruct (ls !! h) as [lh|]; [|done]. intros [= <-]. exists lh. split; [done|].
    rewrite filter_cons. by rewrite decide_False by (intros H; by apply H).
  - destruct (decide (i = d)) as [->|Hid].
    + destruct (ls !! d) as [ld|]; [|done]. intros [= <-]. exists ld. split; [done|].
      by apply list_filter_filter_l.
    + intros Hi. by exists l'.
Qed.

Lemma settled_bget s ls pid dv bn :
  inv (cache s) ls -> settled (cache s) ls ->
  exists ls',
    inv (cache (state_of (bget pid dv bn s))) ls' /\
    settled (cache (state_of (bget pid dv bn s))) ls' /\
    forall p s1, bget pid dv bn s = Ok p s1 ->
                 exists j b1, p = Buf j /\ bufs (cache s1) !! j = Some b1 /\ ~ unused b1.
Proof.
  intros Hinv Hs.
  destruct (bget_outcome s ls pid dv bn Hinv)
    as (_ & _ & [(Hc & e & He & _)|(j & b & b' & h & lh & ls' & l' & Hh & Hlh & Hb & Hb'
                                   & Hpay & Hinv' & Hl' & Hfm' & Hdv & Hbn & _ & _ & Hend
                                   & Hcase)]).
  { exists ls. rewrite Hc. split; [done|]. split; [done|].
    intros p s1 Hok. rewrite Hok in He. discriminate. }
  exists ls'. split; [done|]. split.
  - intros i l x bx Hi Hx Hbx.
    destruct (decide (x = j)) as [->|Hne].
    + left. assert (bx = b') as -> by congruence.
      destruct (first_match_Some _ _ _ _ _ Hfm') as (Hjl' & _).
      assert (i = h) as -> by (by eapply (inv_one_list _ _ Hinv' i h l l' j)).
      assert (l = l') as -> by congruence. by rewrite Hdv, Hbn.
    + assert (forall y, y <> j ->
                key <$> bufs (cache (state_of (bget pid dv bn s))) !! y
                = key <$> bufs (cache s) !! y) as Hkeys.
      { intros y Hy. assert (Buf y <> Buf j) as Hq by congruence.
        specialize (Hpay (Buf y) Hq).
        change (payload <$> bufs (cache (state_of (bget pid dv bn s))) !! y
                = payload <$> bufs (cache s) !! y) in Hpay.
        destruct (bufs (cache (state_of (bget pid dv bn s))) !! y) as [b1|],
                 (bufs (cache s) !! y) as [b2|]; try done.
        simpl in *. injection Hpay as _ Hd Hn _. unfold key. by rewrite Hd, Hn. }
      assert (exists b0, bufs (cache s) !! x = Some b0 /\ payload bx = payload b0)
        as (b0 & Hb0 & Hp0).
      { assert (Buf x <> Buf j) as Hq by congruence.
        specialize (Hpay (Buf x) Hq).
        change (payload <$> bufs (cache (state_of (bget pid dv bn s))) !! x
                = payload <$> bufs (cache s) !! x) in Hpay.
        rewrite Hbx in Hpay. destruct (bufs (cache s) !! x) as [b0|]; [|done].
        exists b0. split; [done|]. simpl in Hpay. congruence. }
      assert (exists l0, ls !! i = Some l0 /\
                         filter (fun y => y <> j) l = filter (fun y => y <> j) l0)
        as (l0 & Hi0 & Hfl).
      { destruct Hcase as [(_ & _ & _ & ->)|(_ & _ & _ & _ & [->|(d & ld & Hne' & _ & _ & ->)])];
          [by exists l|by exists l|].
        by apply (move_same_filter ls j d h). }
      assert (x ∈ l0) as Hx0.
      { assert (x ∈ filter (fun y => y <> j) l) as Hin by (by apply list_elem_of_filter).
        rewrite Hfl in Hin. by apply list_elem_of_filter in Hin as [_ ?]. }
      destruct (Hs i l0 x b0 Hi0 Hx0 Hb0) as [Hfm0|Hun]; [left|right].
      * unfold payload in Hp0. injection Hp0 as _ Hd0 Hn0 _ _ _ _. rewrite Hd0, Hn0.
        apply (first_match_keep (cache s) _ _ _ l0 l x j); try done.
        intros bj Hbj [Hdj Hnj]. assert (bj = b') as -> by congruence.
        assert (blockno b0 = bn) as Hbn0 by congruence.
        assert (dev b0 = dv) as Hdv0 by congruence.
        pose proof (inv_hash _ _ Hinv i l0 x b0 Hi0 Hx0 Hb0) as Hhx.
        rewrite Hbn0, Hh in Hhx. assert (i = h) as -> by lia.
        assert (l0 = lh) as -> by congruence.
        rewrite Hdv0, Hbn0 in Hfm0.
        destruct Hcase as [(Hm & _)|(Hm & _)]; congruence.
      * by apply (unused_payload b0).
  - intros p s1 Hok.
    destruct Hend as [(Hr & _ & Hlk)|(Hr & _)]; [|congruence].
    rewrite Hok in Hr. injection Hr as ->.
    exists j, b'. split; [done|]. rewrite Hok in Hb'. split; [done|].
    intros (_ & Hl & _). congruence.
Qed.

Lemma settled_run s ls k :
  inv (cache s) ls ->
  settled (cache s) ls ->
  (forall j b, k = Bpin j \/ k = Bunpin j -> bufs (cache s) !! j = Some b -> ~ unused b) ->
  exists ls',
    inv (cache (state_of (run k s))) ls' /\ settled (cache (state_of (run k s))) ls'.
Proof.
  intros Hinv Hs Hpin.
  destruct k as [pid dv bn|pid dv bn|pid j|pid j|j|j]; unfold run;
    rewrite ?state_of_bind_ret.
  - destruct (settled_bget s ls pid dv bn Hinv Hs) as (ls' & Hinv' & Hs' & _). by exists ls'.
  - destruct (settled_bget s ls pid dv bn Hinv Hs) as (ls' & Hinv' & Hs' & Hok).
    exists ls'.
    destruct (bread_cases pid dv bn s) as [->|(p & s1 & b1 & Hg & Hp & Hv & ->)]; [done|].
    destruct (Hok p s1 Hg) as (j & b1' & -> & Hb1 & Hun).
    rewrite Hg in Hinv', Hs'. cbn [state_of cache] in *.
    assert (b1' = b1) as -> by (simpl in Hp; congruence).
    split; [by apply (inv_upd_same _ _ _ b1)|by apply (settled_upd _ _ _ b1)].
  - exists ls. by rewrite bwrite_cache.
  - exists ls. rewrite (brelse_cache s ls pid j Hinv).
    destruct (bufs (cache s) !! j) as [b|] eqn:Hb; [|done].
    case_decide as Hl; [|done]. cbv zeta.
    split; [apply (inv_upd_same _ _ _ b); try done; by case_decide|].
    apply (settled_upd _ _ _ b); try done; [by case_decide|].
    intros (_ & Hn & _). congruence.
  - exists ls. rewrite (bpin_cache s ls j Hinv).
    destruct (bufs (cache s) !! j) as [b|] eqn:Hb; [|done].
    split; [by apply (inv_upd_same _ _ _ b)|].
    apply (settled_upd _ _ _ b); try done. apply (Hpin j); auto.
  - exists ls. rewrite (bunpin_cache s ls j Hinv).
    destruct (bufs (cache s) !! j) as [b|] eqn:Hb; [|done].
    split; [by apply (inv_upd_same _ _ _ b)|].
    apply (settled_upd _ _ _ b); try done. apply (Hpin j); auto.
Qed.

(** X7. One slot for one block.  Call a slot unused when it has no
    reference, no holder and is not valid, as every slot is when [binit]
    returns.  On the lists [binit] makes, and after every call made on
    lists of which this is true, each slot that is not unused is the slot
    the walk of its bucket finds for its block; so no two slots that are
    referenced, locked or valid are bound to the same block.  ([bpin] and
    [bunpin] are to be called on a slot that is not unused, as their
    callers do.) *)
Theorem settled_kept s ls k :
  (0 < NBUCKET ->
   exists s0, binit boot = Ok tt s0 /\
              settled (cache s0) (rev (seq 0 NBUF) :: replicate (NBUCKET - 1) [])) /\
  (inv (cache s) ls ->
   settled (cache s) ls ->
   (forall j b, k = Bpin j \/ k = Bunpin j -> bufs (cache s) !! j = Some b -> ~ unused b) ->
   exists ls',
     inv (cache (state_of (run k s))) ls' /\
     settled (cache (state_of (run k s))) ls' /\
     forall x y bx by_,
       bufs (cache (state_of (run k s))) !! x = Some bx ->
       bufs (cache (state_of (run k s))) !! y = Some by_ ->
       ~ unused bx -> ~ unused by_ -> key bx = key by_ -> x = y).
Proof.
  split.
  - intros Hn. pose proof (binit_spec Hn) as Hw. unfold wp in Hw.
    destruct (binit boot) as [[] s0|e s0]; [|done].
    destruct Hw as (Hinv & Hpay & _). exists s0. split; [done|].
    intros i l x b Hi Hx Hb. right.
    specialize (Hpay (Buf x)).
    change (payload <$> bufs (cache s0) !! x = payload <$> (replicate NBUF buf0 !! x)) in Hpay.
    rewrite Hb in Hpay.
    destruct (replicate NBUF buf0 !! x) as [b0|] eqn:Hb0; [|done].
    apply lookup_replicate in Hb0 as [-> _].
    apply (unused_payload buf0); [simpl in Hpay; congruence|done].
  - intros Hinv Hs Hpin.
    destruct (settled_run s ls k Hinv Hs Hpin) as (ls' & Hinv' & Hs').
    exists ls'. split; [done|]. split; [done|].
    intros x y bx by_. by apply (settled_unique _ ls').
Qed.

(** ** The disk and the clock *)

(** Calls other than [bwrite] leave the disk alone; no call sets the
    clock. *)
Lemma run_rest s ls k :
  inv (cache s) ls ->
  (forall pid j, k <> Bwrite pid j) ->
  ticks (state_of (run k s)) = ticks s /\ disk (state_of (run k s)) = disk s.
Proof.
  intros Hinv Hk.
  destruct k as [pid dv bn|pid dv bn|pid j|pid j|j|j]; unfold run;
    rewrite ?state_of_bind_ret.
  - by destruct (bget_outcome s ls pid dv bn Hinv) as (Ht & Hd & _).
  - destruct (bget_outcome s ls pid dv bn Hinv) as (Ht & Hd & _).
    destruct (bread_cases pid dv bn s) as [->|(p & s1 & b1 & Hg & Hp & Hv & ->)]; [done|].
    rewrite Hg in Ht, Hd. done.
  - by destruct (Hk pid j).
  - destruct (bufs (cache s) !! j) as [b|] eqn:Hb.
    + destruct (inv_owner_hash _ _ _ _ Hinv Hb) as (i & l & Hi & Hj & Hlt & Hh).
      destruct (decide (lock b = Some pid)) as [Hl|Hl].
      * by rewrite (brelse_ok pid (Buf j) b i s).
      * by rewrite (brelse_panic pid (Buf j) b s).
    + unfold brelse, holdingsleep.
      erewrite bind_stop; [done|]. erewrite bind_stop; [done|].
      unfold load. simpl. by rewrite Hb.
  - destruct (bufs (cache s) !! j) as [b|] eqn:Hb.
    + destruct (inv_owner_hash _ _ _ _ Hinv Hb) as (i & l & Hi & Hj & Hlt & Hh).
      by rewrite (bpin_ok (Buf j) b i s).
    + unfold bpin. erewrite bind_stop; [done|]. unfold load. simpl. by rewrite Hb.
  - destruct (bufs (cache s) !! j) as [b|] eqn:Hb.
    + destruct (inv_owner_hash _ _ _ _ Hinv Hb) as (i & l & Hi & Hj & Hlt & Hh).
      by rewrite (bunpin_ok (Buf j) b i s).
    + unfold bunpin. erewrite bind_stop; [done|]. unfold load. simpl. by rewrite Hb.
Qed.

(** X8. No call of the interface sets the clock, and the only call that
    writes the disk is a [bwrite] by the holder of the slot's sleep-lock,
    which writes the slot's bytes at the block the slot is bound to and
    nothing else. *)
Theorem disk_and_clock s ls k :
  inv (cache s) ls ->
  ticks (state_of (run k s)) = ticks s /\
  (disk (state_of (run k s)) = disk s \/
   exists pid j b,
     k = Bwrite pid j /\ bufs (cache s) !! j = Some b /\ lock b = Some pid /\
     disk (state_of (run k s)) = <[(dev b, blockno b) := data b]> (disk s)).
Proof.
  intros Hinv.
  assert ((exists pid j, k = Bwrite pid j) \/ forall pid j, k <> Bwrite pid j)
    as [(pid & j & ->)|Hk] by (destruct k; eauto).
  - unfold run. destruct (bufs (cache s) !! j) as [b|] eqn:Hb.
    + destruct (decide (lock b = Some pid)) as [Hl|Hl].
      * rewrite (bwrite_ok pid (Buf j) b s Hb Hl). split; [done|].
        right. by exists pid, j, b.
      * rewrite (bwrite_panic pid (Buf j) b s Hb Hl). split; [done|by left].
    + unfold bwrite, holdingsleep.
      erewrite bind_stop; [split; [done|by left]|]. erewrite bind_stop; [done|].
      unfold load. simpl. by rewrite Hb.
  - destruct (run_rest s ls k Hinv Hk) as [Ht Hd]. split; [done|by left].
Qed.

(** ** The transfer of [bread] *)

(** The lock calls of a [bget] that returns. *)
Lemma bget_ok_trace pid dv bn s p s1 :
  bget pid dv bn s = Ok p s1 ->
  exists t, trace s1 = trace s ++ t /\ calm t /\ held t = [].
Proof.
  intros Hg. pose proof (bget_calm pid dv bn s s (since_refl s)) as Hwp.
  unfold wp in Hwp. rewrite Hg in Hwp. exact Hwp.
Qed.




(** ** A block that is not cached *)

(** X10. A [bread] of a block that is not cached, when it returns, has
    rebound a slot that had no reference and whose sleep-lock was free: the
    slot is now the only slot of the cache bound to the block, it has one
    reference, the caller holds its sleep-lock, it is valid and its bytes
    are the block's bytes on the disk (zeroes for a block never written);
    the transfer is the last thing [bread] has done. *)
Theorem bread_miss s ls pid dv bn h lh p s' :
  inv (cache s) ls ->
  hash (to_int bn) = Z.of_nat h -> ls !! h = Some lh ->
  first_match (cache s) dv bn lh = None ->
  bread pid dv bn s = Ok p s' ->
  exists j b b' t,
    p = Buf j /\
    bufs (cache s) !! j = Some b /\ refcnt b = 0%Z /\ lock b = None /\
    bufs (cache s') !! j = Some b' /\
    (valid b', dev b', blockno b', refcnt b', lock b') = (1%Z, dv, bn, 1%Z, Some pid) /\
    data b' = default (replicate BSIZE 0%Z) (disk s !! (dv, bn)) /\
    (forall x bx, bufs (cache s') !! x = Some bx -> key bx = (dv, bn) -> x = j) /\
    trace s' = trace s ++ t ++ [EvDiskRW (Buf j) false] /\ calm t /\ held t = [].
Proof.
  intros Hinv Hh Hlh Hm Hrd.
  destruct (bread_ok_state s ls pid dv bn p s' Hinv Hrd)
    as (j & b & b1 & h' & lh' & ls' & l' & s1 & -> & Hg & Ht & Hd & Hh' & Hlh' & Hb & Hb1
        & Hpay & Hinv1 & Hl' & Hfm & Hdv & Hbn & Hdt & Hlu & Hlk & Hlk1 & Hcase & ->).
  assert (h' = h) as -> by lia. assert (lh' = lh) as -> by congruence.
  destruct Hcase as [(Hm' & _)|(_ & Hrf & Hv & Hr1 & _)]; [congruence|].
  destruct (bget_ok_trace pid dv bn s (Buf j) s1 Hg) as (t & Htr & Hc & Hhd).
  rewrite decide_True by done. norm.
  exists j, b, (set_valid 1 (set_data (default (replicate BSIZE 0%Z) (disk s !! (dv, bn))) b1)), t.
  do 4 (split; [done|]).
  split; [rewrite bufs_upd by eauto; by rewrite decide_True|].
  split; [norm; by rewrite Hdv, Hbn, Hr1, Hlk1|]. split; [done|].
  split; [|by rewrite Htr, <- app_assoc].
  intros x bx Hx Hk. destruct (decide (x = j)) as [|Hne]; [done|exfalso].
  rewrite bufs_upd, decide_False in Hx by eauto.
  assert (Buf x <> Buf j) as Hq by congruence.
  specialize (Hpay (Buf x) Hq).
  change (payload <$> bufs (cache s1) !! x = payload <$> bufs (cache s) !! x) in Hpay.
  rewrite Hx in Hpay. destruct (bufs (cache s) !! x) as [b0|] eqn:Hb0; [|done].
  apply (miss_unbound _ _ _ _ _ _ _ _ Hinv Hh Hlh Hm Hb0).
  simpl in Hpay. injection Hpay as _ Hd' Hn' _. unfold key in *. congruence.
Qed.

(** ** The slot the home scan takes *)

(** The scan keeps the first slot it passes among those with the least
    tick: the slots passed before it have a greater tick. *)
Lemma lru_fold_first c l mt cz ch mt' cz' ch' :
  lru_fold c l mt cz ch = (mt', cz', ch') ->
  (mt' = mt /\ cz' = cz /\ ch' = ch) \/
  exists l1 j l2 b,
    l = l1 ++ j :: l2 /\ cz' = Buf j /\ bufs c !! j = Some b /\
    refcnt b = 0%Z /\ lastuse b = mt' /\ (mt' < mt)%Z /\
    (forall y by_, y ∈ l1 -> bufs c !! y = Some by_ -> refcnt by_ = 0%Z ->
                   (mt' < lastuse by_)%Z) /\
    (forall y by_, y ∈ l2 -> bufs c !! y = Some by_ -> refcnt by_ = 0%Z ->
                   (mt' <= lastuse by_)%Z).
Proof.
  revert mt cz ch. induction l as [|a l IH]; intros mt cz ch Hf.
  - left. by injection Hf as <- <- <-.
  - cbn [lru_fold] in Hf. destruct (bufs c !! a) as [ba|] eqn:Ha.
    + destruct (decide (refcnt ba = 0 /\ lastuse ba < mt)%Z) as [[Hz Hlt]|Hno].
      * destruct (IH _ _ _ Hf) as [(-> & -> & ->)|(l1 & j & l2 & b & -> & -> & Hb & Hrf & Hlu
                                                   & Hlt' & H1 & H2)].
        -- right. exists [], a, l, ba. do 6 (split; [done|]). split.
           ++ intros y by_ Hy. by apply elem_of_nil in Hy.
           ++ destruct (lru_fold_spec _ _ _ _ _ _ _ _ Hf) as (_ & Hmin & _).
              intros y by_ Hy Hby Hzy. by apply (Hmin y).
        -- right. exists (a :: l1), j, l2, b. do 5 (split; [done|]).
           split; [lia|]. split; [|done].
           intros y by_ [->|Hy]%elem_of_cons Hby Hzy.
           ++ assert (by_ = ba) as -> by congruence. lia.
           ++ by apply (H1 y).
      * destruct (IH _ _ _ Hf) as [?|(l1 & j & l2 & b & -> & -> & Hb & Hrf & Hlu
                                       & Hlt' & H1 & H2)]; [by left|].
        right. exists (a :: l1), j, l2, b. do 6 (split; [done|]). split; [|done].
        intros y by_ [->|Hy]%elem_of_cons Hby Hzy.
        -- assert (by_ = ba) as -> by congruence.
           destruct (decide (lastuse ba < mt)%Z); [by destruct Hno|lia].
        -- by apply (H1 y).
    + destruct (IH _ _ _ Hf) as [?|(l1 & j & l2 & b & -> & -> & Hb & Hrf & Hlu
                                     & Hlt' & H1 & H2)]; [by left|].
      right. exists (a :: l1), j, l2, b. do 6 (split; [done|]). split; [|done].
      intros y by_ [->|Hy]%elem_of_cons Hby Hzy; [congruence|]. by apply (H1 y).
Qed.

Lemma admission_home s ls pid dv bn r h l x bx :
  inv (cache s) ls ->
  admission s ls pid dv bn r ->
  hash (to_int bn) = Z.of_nat h -> ls !! h = Some l ->
  first_match (cache s) dv bn l = None ->
  x ∈ l -> bufs (cache s) !! x = Some bx -> refcnt bx = 0%Z -> (lastuse bx < maxtick0)%Z ->
  exists j b mt ch,
    lru_fold (cache s) (rev l) maxtick0 Null false = (mt, Buf j, ch) /\
    bufs (cache s) !! j = Some b /\
    r = hand_over pid j (set_refcnt 1 (set_valid 0 (set_blockno bn (set_dev dv b))))
          [EvAcquire h; EvRelease h; EvAcquireSleep (Buf j)] s.
Proof.
  intros Hinv Ha Hh0 Hl0 Hm0 Hx Hbx Hz Hlt0.
  destruct Ha as [Hr|h' l' j b Hh Hl Hm Hb|h' l' j b mt ch Hh Hl Hm Hf Hj Hb Hrf Hlt Hmin
                 |h' l' r Hh Hl Hm Hno Hev].
  - destruct Hr. apply lookup_lt_Some in Hl0. rewrite (inv_len _ _ Hinv) in Hl0. lia.
  - assert (h' = h) as -> by lia. congruence.
  - assert (h' = h) as -> by lia. assert (l' = l) as -> by congruence.
    by exists j, b, mt, ch.
  - assert (h' = h) as -> by lia. assert (l' = l) as -> by congruence.
    specialize (Hno x bx Hx Hbx Hz). lia.
Qed.

(** X11. When the home bucket of a block that is not cached has a slot
    with no reference and a last-use tick below [maxtick0], [bget] serves
    the miss at home: it takes the lock of the home bucket and no other,
    moves nothing, and rebinds the unreferenced slot of the home list with
    the least last-use tick; among slots with that tick it takes the one
    nearest the tail of the list, where the scan starts. *)
Theorem bget_home_reuse s ls pid dv bn h l x bx :
  inv (cache s) ls ->
  hash (to_int bn) = Z.of_nat h -> ls !! h = Some l ->
  first_match (cache s) dv bn l = None ->
  x ∈ l -> bufs (cache s) !! x = Some bx -> refcnt bx = 0%Z -> (lastuse bx < maxtick0)%Z ->
  exists j b l1 l2,
    l = l1 ++ j :: l2 /\ bufs (cache s) !! j = Some b /\ refcnt b = 0%Z /\
    (forall y by_, y ∈ l1 -> bufs (cache s) !! y = Some by_ -> refcnt by_ = 0%Z ->
                   (lastuse b <= lastuse by_)%Z) /\
    (forall y by_, y ∈ l2 -> bufs (cache s) !! y = Some by_ -> refcnt by_ = 0%Z ->
                   (lastuse b < lastuse by_)%Z) /\
    bget pid dv bn s =
    hand_over pid j (set_refcnt 1 (set_valid 0 (set_blockno bn (set_dev dv b))))
      [EvAcquire h; EvRelease h; EvAcquireSleep (Buf j)] s.
Proof.
  intros Hinv Hh Hl Hm Hx Hbx Hz Hlt.
  destruct (admission_home s ls pid dv bn _ h l x bx Hinv (bget_admission s ls pid dv bn Hinv)
              Hh Hl Hm Hx Hbx Hz Hlt) as (j & b & mt & ch & Hf & Hb & Hr).
  destruct (lru_fold_first _ _ _ _ _ _ _ _ Hf)
    as [(_ & [=] & _)|(a1 & j' & a2 & b' & Hrev & [= <-] & Hb' & Hrf & Hlu & _ & H1 & H2)].
  assert (b' = b) as -> by congruence.
  exists j, b, (rev a2), (rev a1).
  split.
  { rewrite <- (rev_involutive l), Hrev, rev_app_distr. simpl. by rewrite <- app_assoc. }
  do 2 (split; [done|]). split; [|split; [|done]].
  - intros y by_ Hy Hby Hzy. rewrite elem_of_rev in Hy. rewrite Hlu. by apply (H2 y).
  - intros y by_ Hy Hby Hzy. rewrite elem_of_rev in Hy. rewrite Hlu. by apply (H1 y).
Qed.

(** ** The cache and the disk *)

(** A valid slot after a call other than [bwrite] was valid before, with
    the same block and bytes, or has just been filled from the disk. *)
Lemma run_content s ls k y b' :
  inv (cache s) ls ->
  (forall pid j, k <> Bwrite pid j) ->
  bufs (cache (state_of (run k s))) !! y = Some b' ->
  valid b' <> 0%Z ->
  (exists b, bufs (cache s) !! y = Some b /\ key b = key b' /\ valid b <> 0%Z /\
             data b = data b') \/
  data b' = stored (state_of (run k s)) (dev b') (blockno b').
Proof.
  intros Hinv Hk Hy Hv.
  assert (forall pid dv bn b1,
            bufs (cache (state_of (bget pid dv bn s))) !! y = Some b1 -> valid b1 <> 0%Z ->
            exists b, bufs (cache s) !! y = Some b /\ key b = key b1 /\ valid b <> 0%Z /\
                      data b = data b1) as Hget.
  { intros pid dv bn b1 Hy1 Hv1.
    destruct (bget_outcome s ls pid dv bn Hinv)
      as (_ & _ & [(Hc & _)|(j & b & bj & h & lh & ls' & l' & Hh & Hlh & Hb & Hbj
                             & Hpay & _ & _ & _ & Hdv & Hbn & Hdt & _ & _ & Hcase)]).
    { rewrite Hc in Hy1. by exists b1. }
    destruct (decide (y = j)) as [->|Hne].
    - assert (bj = b1) as -> by congruence.
      destruct Hcase as [(Hm & Hvv & _)|(_ & _ & Hv0 & _)]; [|done].
      destruct (first_match_Some _ _ _ _ _ Hm) as (_ & b0 & Hb0 & Hd0 & Hn0).
      assert (b0 = b) as -> by congruence.
      exists b. split; [done|]. split; [unfold key; congruence|]. split; [congruence|done].
    - assert (Buf y <> Buf j) as Hq by congruence.
      specialize (Hpay (Buf y) Hq).
      change (payload <$> bufs (cache (state_of (bget pid dv bn s))) !! y
              = payload <$> bufs (cache s) !! y) in Hpay.
      rewrite Hy1 in Hpay. destruct (bufs (cache s) !! y) as [b0|]; [|done].
      simpl in Hpay. injection Hpay as Hvv Hd Hn _ _ _ Hdd.
      exists b0. split; [done|]. split; [unfold key; congruence|]. split; [congruence|done]. }
  assert (forall j0 b0 bx,
            bufs (cache s) !! j0 = Some b0 ->
            key bx = key b0 -> valid bx = valid b0 -> data bx = data b0 ->
            bufs (upd (cache s) (Buf j0) bx) !! y = Some b' ->
            exists b, bufs (cache s) !! y = Some b /\ key b = key b' /\ valid b <> 0%Z /\
                      data b = data b') as Hupd.
  { intros j0 b0 bx Hb0 Hkx Hvx Hdx Hyx. rewrite bufs_upd in Hyx by eauto.
    destruct (decide (y = j0)) as [->|Hne].
    - injection Hyx as <-. exists b0. split; [done|]. split; [done|]. split; [congruence|done].
    - by exists b'. }
  destruct k as [pid dv bn|pid dv bn|pid j|pid j|j|j]; unfold run in *;
    rewrite ?state_of_bind_ret in *.
  - left. by apply (Hget pid dv bn).
  - destruct (bread_cases pid dv bn s) as [Heq|(p & s1 & b1 & Hg & Hp & Hv1 & Heq)].
    { rewrite Heq in Hy. left. by apply (Hget pid dv bn). }
    rewrite Heq in Hy |- *. specialize (Hget pid dv bn). rewrite Hg in Hget.
    cbn [state_of cache] in *.
    change (deref (upd (cache s1) p
                     (set_valid 1 (set_data (default (replicate BSIZE 0%Z)
                                               (disk s1 !! (dev b1, blockno b1))) b1)))
              (Buf y) = Some b') in Hy.
    rewrite deref_upd in Hy by eauto.
    destruct (decide (Buf y = p)) as [<-|Hne].
    + right. injection Hy as <-. done.
    + left. by apply Hget.
  - by destruct (Hk pid j).
  - left. rewrite (brelse_cache s ls pid j Hinv) in Hy.
    destruct (bufs (cache s) !! j) as [b0|] eqn:Hb0; [|by exists b'].
    destruct (decide (lock b0 = Some pid)); [|by exists b'].
    apply (Hupd j b0 _ Hb0) in Hy; try done; cbv zeta; by case_decide.
  - left. rewrite (bpin_cache s ls j Hinv) in Hy.
    destruct (bufs (cache s) !! j) as [b0|] eqn:Hb0; [|by exists b'].
    by apply (Hupd j b0 _ Hb0) in Hy.
  - left. rewrite (bunpin_cache s ls j Hinv) in Hy.
    destruct (bufs (cache s) !! j) as [b0|] eqn:Hb0; [|by exists b'].
    by apply (Hupd j b0 _ Hb0) in Hy.
Qed.

(** X12. The functions of the file keep the cache and the disk in step.
    On lists where every slot in use is the one the walk finds for its
    block, if every valid slot holds the bytes its block has on the disk,
    then every valid slot still holds the bytes of its block on the disk
    after any call.  [bread] fills a slot with the bytes on the disk,
    [bwrite] makes the disk hold the bytes of the slot, and nothing else
    writes either. *)
Theorem coherent_kept s ls k :
  inv (cache s) ls ->
  settled (cache s) ls ->
  coherent s ->
  coherent (state_of (run k s)).
Proof.
  intros Hinv Hset Hco y b' Hy Hv.
  assert ((exists pid j, k = Bwrite pid j) \/ forall pid j, k <> Bwrite pid j)
    as [(pid & j & ->)|Hk] by (destruct k; eauto).
  - unfold run in *. destruct (bufs (cache s) !! j) as [b|] eqn:Hb.
    + destruct (decide (lock b = Some pid)) as [Hl|Hl].
      * rewrite (bwrite_ok pid (Buf j) b s Hb Hl) in Hy |- *.
        cbn [state_of cache] in Hy. unfold stored. cbn [state_of disk].
        destruct (decide ((dev b, blockno b) = (dev b', blockno b'))) as [Hkk|Hkk].
        -- rewrite Hkk, lookup_insert_eq. simpl.
           assert (y = j) as ->.
           { apply (settled_unique (cache s) ls y j b' b); try done.
             - intros (_ & _ & Hv0). done.
             - intros (_ & Hl0 & _). congruence. }
           congruence.
        -- rewrite lookup_insert_ne by done. by apply (Hco y).
      * rewrite (bwrite_panic pid (Buf j) b s Hb Hl) in Hy |- *. by apply (Hco y).
    + assert (bwrite pid (Buf j) s = Stop Fault s) as Hf.
      { unfold bwrite, holdingsleep.
        erewrite bind_stop; [done|]. erewrite bind_stop; [done|].
        unfold load. simpl. by rewrite Hb. }
      rewrite Hf in Hy |- *. by apply (Hco y).
  - destruct (run_content s ls k y b' Hinv Hk Hy Hv) as [(b & Hb & Hkb & Hvb & Hdb)|Hfill];
      [|done].
    destruct (run_rest s ls k Hinv Hk) as [_ Hd].
    unfold stored. rewrite Hd, <- Hdb. injection Hkb as <- <-. by apply (Hco y).
Qed.

(** ** The cache at boot *)

(** X13. [binit] returns without a call on a lock, with every slot
    unbound: no reference, not valid, sleep-lock free, last-use tick 0.  The
    first [bread] after it, of any block with a number below [2^31], returns
    at once with a slot that has one reference, is locked by the caller, is
    valid and holds what the fresh disk holds for the block: zeroes. *)
Theorem binit_fresh pid dv bn :
  0 < NBUCKET -> 0 < NBUF -> (0 <= bn < 2 ^ 31)%Z ->
  exists s0,
    binit boot = Ok tt s0 /\ trace s0 = [] /\
    (forall j, j < NBUF ->
               exists b, bufs (cache s0) !! j = Some b /\ payload b = payload buf0) /\
    exists j s1 b1,
      bread pid dv bn s0 = Ok (Buf j) s1 /\ bufs (cache s1) !! j = Some b1 /\
      (valid b1, dev b1, blockno b1, refcnt b1, lock b1) = (1%Z, dv, bn, 1%Z, Some pid) /\
      data b1 = replicate BSIZE 0%Z.
Proof.
  intros Hn Hnb Hbn. pose proof (binit_spec Hn) as Hw. unfold wp in Hw.
  destruct (binit boot) as [[] s0|e s0]; [|done].
  destruct Hw as (Hinv & Hpay & Ht & Hd & Htr).
  assert (forall j, j < NBUF ->
            exists b, bufs (cache s0) !! j = Some b /\ payload b = payload buf0) as Hslots.
  { intros j Hj. specialize (Hpay (Buf j)).
    change (payload <$> bufs (cache s0) !! j
            = payload <$> (replicate NBUF buf0 !! j)) in Hpay.
    rewrite lookup_replicate_2 in Hpay by done.
    destruct (bufs (cache s0) !! j) as [b|]; [|done]. exists b. split; [done|].
    simpl in Hpay. congruence. }
  exists s0. do 3 (split; [done|]).
  pose proof (hash_small bn Hn Hbn) as Hh.
  destruct (bget_outcome s0 _ pid dv bn Hinv)
    as (_ & Hd1 & [(_ & e & Hr & He)|(j & b & b' & h & lh & ls' & l' & _ & _ & Hb & Hb'
                                       & _ & _ & _ & _ & Hdv & Hb'n & Hdt & _ & Hsh & Hcase)]).
  - exfalso. destruct He as [[_ He]|[_ Hex]]; [done|].
    destruct (Hslots 0 Hnb) as (b & Hb & Hp).
    destruct (inv_owner_hash _ _ _ _ Hinv Hb) as (i & l & Hi & Hj & _).
    unfold payload in Hp. injection Hp as _ _ _ _ Hrf Hlu _.
    specialize (Hex i l 0 b Hi Hj Hb Hrf). rewrite Hlu in Hex. by vm_compute in Hex.
  - assert (j < NBUF) as Hj.
    { apply lookup_lt_Some in Hb. by rewrite (inv_bufs _ _ Hinv) in Hb. }
    destruct (Hslots j Hj) as (b0 & Hb0 & Hp).
    assert (b0 = b) as -> by congruence.
    unfold payload in Hp. injection Hp as Hv _ _ Hlk Hrf _ Hdata.
    destruct Hsh as [(Hr & _ & Hlk')|(_ & Hl & _)]; [|done].
    assert (valid b' = 0%Z /\ refcnt b' = 1%Z) as [Hv' Hr'].
    { destruct Hcase as [(_ & -> & -> & _)|(_ & _ & ? & ? & _)]; [|done].
      by rewrite Hv, Hrf. }
    eexists j, _, _. split.
    { rewrite (bread_ok _ _ _ _ b' _ _ Hr Hb'). rewrite decide_True by done. reflexivity. }
    norm. split; [apply (deref_upd_eq _ (Buf j)); simpl; eauto|].
    norm. rewrite Hdv, Hb'n, Hr', Hlk'. split; [done|].
    rewrite Hd1, Hd. by rewrite lookup_empty.
Qed.

End Proofs.

(** * The theorems at the scenarios *)

Lemma bread_cached_witness :
  let b := default (@buf0 small) (bufs (cache cached5) !! 0) in
  let b1 := set_refcnt (to_uint (refcnt b + 1)) b in
  let t := [EvAcquire 2; EvRelease 2; EvAcquireSleep (Buf 0)] in
  @bget small 7 0 5 cached5 = hand_over 7 0 b1 t cached5 /\
  ((0 <= refcnt b < 2 ^ 32 - 1)%Z -> refcnt b1 = (refcnt b + 1)%Z) /\
  (lock b <> None \/ valid b <> 0%Z ->
   @bread small 7 0 5 cached5 = hand_over 7 0 b1 t cached5) /\
  (lock b = None -> valid b = 0%Z ->
   @bread small 7 0 5 cached5 =
   Ok (Buf 0)
     (mkstate
        (upd (cache cached5) (Buf 0)
           (set_valid 1
              (set_data (default (replicate (@BSIZE small) 0%Z) (disk cached5 !! (0%Z, 5%Z)))
                 (set_lock (Some 7%Z) b1))))
        (ticks cached5) (disk cached5)
        (trace cached5 ++ t ++ [EvDiskRW (Buf 0) false]))).
Proof.
  apply (@bread_cached small cached5 [[3; 2; 1]; []; [0]] 7 0 5 2 [0] 0).
  - apply inv_check_sound. vm_compute. reflexivity.
  - reflexivity.
  - reflexivity.
  - vm_compute. reflexivity.
  - vm_compute. reflexivity.
Defined.

Lemma brelse_spec_witness :
  let s := tick 5 held5 in
  let b := default (@buf0 small) (bufs (cache s) !! 0) in
  ((exists msg s', @brelse small 7 (Buf 0) s = Stop (Panic msg) s') <-> lock b <> Some 7%Z) /\
  lock b = Some 7%Z /\
  exists b' s',
    @brelse small 7 (Buf 0) s = Ok tt s' /\
    refcnt b = 1%Z /\ refcnt b' = 0%Z /\ lastuse b' = 5%Z /\
    fst (@Generic.brelse small L logging 7 (Buf 0) s) =
    [Rd (Buf 0); Wr (Buf 0) (set_lock None b); Ev (EvReleaseSleep (Buf 0));
     Rd (Buf 0); Ev (EvAcquire 2);
     Wr (Buf 0) (set_refcnt 0 (set_lock None b)); Rd (Buf 0);
     Tk; Wr (Buf 0) b'; Ev (EvRelease 2)].
Proof.
  intros s b.
  assert (Hinv : @inv small (cache s) [[3; 2; 1]; []; [0]]).
  { apply inv_check_sound. vm_compute. reflexivity. }
  assert (Hb : bufs (cache s) !! 0 = Some b) by (vm_compute; reflexivity).
  assert (Hl : lock b = Some 7%Z) by (vm_compute; reflexivity).
  assert (Hr1 : refcnt b = 1%Z) by (vm_compute; reflexivity).
  destruct (@brelse_spec small s [[3; 2; 1]; []; [0]] 7 0 b Hinv Hb) as (Hiff & Hok & _).
  split; [exact Hiff|]. split; [exact Hl|].
  destruct (Hok Hl) as (i & l & b' & _ & _ & Heq & _ & Hr & _ & Hst & _ & _ & _ & _ & Hlog).
  assert (Hr0 : refcnt b' = 0%Z) by (rewrite Hr, Hr1; reflexivity).
  assert (Hi : i = 2).
  { pose proof (f_equal (fun r => trace (state_of r)) Heq) as Ht.
    vm_compute in Ht. congruence. }
  exists b'. eexists. split; [exact Heq|]. split; [exact Hr1|]. split; [exact Hr0|].
  split; [exact (Hst Hr0)|].
  rewrite Hlog, Hi, Hr1. destruct (decide (refcnt b' = 0%Z)) as [_|Hne]; [reflexivity|].
  destruct (Hne Hr0).
Defined.

Lemma bwrite_spec_witness :
  let b := default (@buf0 small) (bufs (cache held5) !! 0) in
  ((exists msg s', @bwrite small 7 (Buf 0) held5 = Stop (Panic msg) s') <->
   lock b <> Some 7%Z) /\
  (lock b = Some 7%Z ->
   @bwrite small 7 (Buf 0) held5 =
   Ok tt (mkstate (cache held5) (ticks held5)
            (<[(dev b, blockno b) := data b]> (disk held5))
            (trace held5 ++ [EvDiskRW (Buf 0) true]))).
Proof.
  apply (@bwrite_spec small held5 7 0). vm_compute. reflexivity.
Defined.

(** [pinned5] is a state the kernel reaches. *)
Lemma pinned5_reachable : @reachable small pinned5.
Proof.
  assert (pinned5 =
          tick 9 (fold_left (fun s k => state_of (@run small k s))
                    [Bpin 0; Brelse 7 0]
                    (tick 5 (state_of (@run small (Bread 7 0 5) started))))) as ->
    by (vm_compute; reflexivity).
  cbn [fold_left]. apply reach_tick. do 2 apply reach_call. apply reach_tick.
  apply reach_call. apply reach_boot. vm_compute. reflexivity.
Qed.

(** C3 as it stands does not hold at [pinned5]: slot 0 has one reference,
    the pin, and last-use tick 0; at tick 9 [bunpin] takes the count to 0
    and the last-use tick is still 0. *)
Lemma bunpin_stale_lastuse :
  let b := default (@buf0 small) (bufs (cache pinned5) !! 0) in
  let s' := state_of (@bunpin small (Buf 0) pinned5) in
  let b' := default (@buf0 small) (bufs (cache s') !! 0) in
  bufs (cache pinned5) !! 0 = Some b /\ refcnt b = 1%Z /\
  @bunpin small (Buf 0) pinned5 = Ok tt s' /\
  bufs (cache s') !! 0 = Some b' /\ refcnt b' = 0%Z /\
  ticks pinned5 = 9%Z /\ lastuse b' = 0%Z /\ lastuse b' <> ticks pinned5.
Proof. vm_compute. repeat split. discriminate. Qed.

Lemma lastuse_stamp_witness :
  let b := default (@buf0 small) (bufs (cache pinned5) !! 0) in
  let b' := default (@buf0 small)
              (bufs (cache (state_of (@run small (Bunpin 0) pinned5))) !! 0) in
  refcnt b' = to_uint (refcnt b - 1) /\ lastuse b' = lastuse b.
Proof.
  intros b b'.
  refine (proj1 (proj2 (@lastuse_stamp small pinned5 [[3; 2; 1]; []; [0]] (Bunpin 0) 0 b b'
                          _ _ _)) eq_refl).
  - apply inv_check_sound. vm_compute. reflexivity.
  - vm_compute. reflexivity.
  - vm_compute. reflexivity.
Defined.

Lemma one_list_always_witness :
  0 < @NBUCKET small /\ @reachable small started /\
  exists ls',
    @inv small (cache (state_of (@run small (Bget 7 0 5) started))) ls' /\
    @relocated small started [[3; 2; 1; 0]; []; []] (Bget 7 0 5) ls' /\
    ls' <> [[3; 2; 1; 0]; []; []] /\
    ls' = [[3; 2; 1]; []; [0]].
Proof.
  assert (Hn : 0 < @NBUCKET small) by (vm_compute; lia).
  assert (Hr : @reachable small started).
  { apply reach_boot. vm_compute. reflexivity. }
  split; [exact Hn|]. split; [exact Hr|].
  destruct (@one_list_always small started (Bget 7 0 5) Hn Hr)
    as (_ & ls & Hinv & Huniq & _ & ls' & Hinv' & _ & _ & Hcross & _).
  assert (Hls : [[3; 2; 1; 0]; []; []] = ls).
  { apply Huniq. apply inv_check_sound. vm_compute. reflexivity. }
  destruct Hls.
  assert (Hc : @crosses small started [[3; 2; 1; 0]; []; []] (Bget 7 0 5)).
  { exists 2, []. split; [vm_compute; reflexivity|]. split; [reflexivity|].
    split; [reflexivity|]. split.
    - intros x bx Hx. destruct (proj1 (elem_of_nil x) Hx).
    - intros Hex.
      assert (Hb : bufs (cache started) !! 0
                   = Some (default (@buf0 small) (bufs (cache started) !! 0)))
        by (vm_compute; reflexivity).
      assert (H0 : 0 ∈ [3; 2; 1; 0]) by (repeat constructor).
      assert (Hrf : refcnt (default (@buf0 small) (bufs (cache started) !! 0)) = 0%Z)
        by (vm_compute; reflexivity).
      pose proof (Hex 0 [3; 2; 1; 0] 0 _ eq_refl H0 Hb Hrf) as Hle.
      vm_compute in Hle. by apply Hle. }
  destruct (Hcross Hc) as [Hrel Hne].
  exists ls'. split; [exact Hinv'|]. split; [exact Hrel|]. split; [exact Hne|].
  apply (@inv_unique small (cache (state_of (@run small (Bget 7 0 5) started)))).
  - exact Hinv'.
  - apply inv_check_sound. vm_compute. reflexivity.
Defined.

Lemma call_frame_witness :
  let c := cache cached5 in
  let c' := cache (state_of (@run small (Bget 7 0 5) cached5)) in
  (forall q, identity <$> deref c' q = identity <$> deref c q) /\
  (forall q, q <> Buf 0 -> deref c' q = deref c q).
Proof.
  refine (proj1 (@call_frame small cached5 [[3; 2; 1]; []; [0]] (Bget 7 0 5) _)
            7%Z 0%Z 5%Z 2 [0] 0 _).
  - apply inv_check_sound. vm_compute. reflexivity.
  - right. right. right. split; [reflexivity|]. split; [reflexivity|].
    split; [reflexivity|]. vm_compute. reflexivity.
Defined.

(** [late] is a state the kernel reaches. *)
Lemma late_reachable : @reachable small late.
Proof.
  assert (late =
          fold_left (fun s k => state_of (@run small k s))
            [Bread 7 0 1; Brelse 7 0; Bread 7 0 2; Brelse 7 1;
             Bread 7 0 3; Brelse 7 2; Bread 7 0 4; Brelse 7 3]
            (tick 16843009 started)) as ->
    by (vm_compute; reflexivity).
  cbn [fold_left]. do 8 apply reach_call. apply reach_tick.
  apply reach_boot. vm_compute. reflexivity.
Qed.

(** At [late] the buckets are [[2]], [[3; 0]] and [[1]]; the four slots are
    unreferenced, and none has a last-use tick below [maxtick0]. *)
Lemma late_inv : @inv small (cache late) [[2]; [3; 0]; [1]].
Proof. apply inv_check_sound. vm_compute. reflexivity. Qed.

Lemma late_slots j b :
  bufs (cache late) !! j = Some b -> refcnt b = 0%Z /\ lastuse b = 16843009%Z.
Proof.
  intros Hb.
  assert (Forall (fun b => refcnt b = 0%Z /\ lastuse b = 16843009%Z) (bufs (cache late)))
    as Hall by (vm_compute; repeat constructor).
  by apply (Forall_lookup_1 _ _ _ _ Hall Hb).
Qed.

Lemma late_free j : j < 4 -> free (cache late) j.
Proof.
  intros Hj. destruct (lookup_lt_is_Some_2 (bufs (cache late)) j) as [b Hb].
  { vm_compute. vm_compute in Hj. exact Hj. }
  exists b. split; [done|]. by destruct (late_slots j b Hb).
Qed.

Lemma late_exhausted : exhausted (cache late) [[2]; [3; 0]; [1]].
Proof.
  intros i l x b _ _ Hb _. destruct (late_slots x b Hb) as [_ ->]. vm_compute. discriminate.
Qed.

(** The run of [bget] at [late], for block 9 of device 0. *)
Lemma late_bget :
  @bget small 7 0 9 late = Stop (Panic "bget: no buffers") (state_of (@bget small 7 0 9 late)).
Proof. vm_compute. reflexivity. Qed.

Lemma bget_candidate_witness :
  (forall j, j < 4 -> free (cache late) j) /\
  exists s', @bget small 7 0 9 late = Stop (Panic "bget: no buffers") s' /\
             cache s' = cache late.
Proof.
  split; [exact late_free|].
  refine (proj2 (@bget_candidate small late [[2]; [3; 0]; [1]] 7 0 9 0 [2] late_inv _ _ _)
            late_exhausted).
  - reflexivity.
  - reflexivity.
  - vm_compute. reflexivity.
Defined.

Lemma bget_panic_iff_witness :
  free (cache late) 0 /\
  exists msg s', @bget small 7 0 9 late = Stop (Panic msg) s'.
Proof.
  split; [apply late_free; lia|].
  apply (proj1 (@bget_panic_iff small late [[2]; [3; 0]; [1]] 7 0 9 late_inv)).
  exists 0, [2]. split; [reflexivity|]. split; [reflexivity|].
  split; [vm_compute; reflexivity|exact late_exhausted].
Defined.

Lemma hash_of_uint_witness :
  @hash small (to_int 4294967295) = (-1)%Z /\
  forall pid dv s, @bget small pid dv 4294967295 s = Stop Fault s.
Proof.
  assert (Hn : 0 < @NBUCKET small) by (vm_compute; lia).
  assert (Hbn : (0 <= 4294967295 < 2 ^ 32)%Z) by lia.
  destruct (@hash_of_uint small 4294967295 Hn Hbn) as (_ & _ & Hf).
  split; [vm_compute; reflexivity|]. apply Hf. vm_compute. reflexivity.
Defined.

(** * The further properties at the scenarios *)

Lemma cached5_inv : @inv small (cache cached5) [[3; 2; 1]; []; [0]].
Proof. apply inv_check_sound. vm_compute. reflexivity. Qed.

Lemma held5_inv : @inv small (cache held5) [[3; 2; 1]; []; [0]].
Proof. apply inv_check_sound. vm_compute. reflexivity. Qed.


Lemma run_safe_witness :
  match @run small (Bread 7 0 9) cached5 with
  | Ok _ _ => True
  | Stop (Sleep _) _ => exists pid dv bn, Bread 7 0 9 = Bget pid dv bn \/ Bread 7 0 9 = Bread pid dv bn
  | Stop (Panic msg) _ =>
      (exists pid dv bn, (Bread 7 0 9 = Bget pid dv bn \/ Bread 7 0 9 = Bread pid dv bn) /\
                         msg = "bget: no buffers"%string) \/
      (exists pid j, Bread 7 0 9 = Bwrite pid j /\ msg = "bwrite"%string) \/
      (exists pid j, Bread 7 0 9 = Brelse pid j /\ msg = "brelse"%string)
  | Stop Fault _ | Stop Diverge _ => False
  end.
Proof.
  assert (Hn : 0 < @NBUCKET small) by (vm_compute; lia).
  assert (Hbn : (0 <= 9 < 2 ^ 31)%Z) by lia.
  exact (@run_safe small cached5 [[3; 2; 1]; []; [0]] (Bread 7 0 9) Hn cached5_inv Hbn).
Defined.

Lemma bread_returns_witness :
  exists j b b' h ls' l',
    Buf 0 = Buf j /\ @inv small (cache (state_of (@bread small 7 0 5 cached5))) ls' /\
    @hash small (to_int 5) = Z.of_nat h /\ ls' !! h = Some l' /\ j ∈ l' /\
    first_match (cache (state_of (@bread small 7 0 5 cached5))) 0 5 l' = Some j /\
    bufs (cache cached5) !! j = Some b /\ lock b = None /\
    bufs (cache (state_of (@bread small 7 0 5 cached5))) !! j = Some b' /\
    dev b' = 0%Z /\ blockno b' = 5%Z /\ lock b' = Some 7%Z /\ valid b' <> 0%Z /\
    ticks (state_of (@bread small 7 0 5 cached5)) = ticks cached5 /\
    disk (state_of (@bread small 7 0 5 cached5)) = disk cached5.
Proof.
  apply (@bread_returns small cached5 [[3; 2; 1]; []; [0]] 7 0 5 (Buf 0) _ cached5_inv).
  vm_compute. reflexivity.
Defined.


Lemma bpin_bunpin_witness :
  exists i l,
    [[3; 2; 1]; []; [0]] !! i = Some l /\ 0 ∈ l /\
    (@bpin small (Buf 0) ;; @bunpin small (Buf 0)) held5 =
    Ok tt (mkstate (cache held5) (ticks held5) (disk held5)
             (trace held5 ++ [EvAcquire i; EvRelease i; EvAcquire i; EvRelease i])) /\
    (@bunpin small (Buf 0) ;; @bpin small (Buf 0)) held5 =
    Ok tt (mkstate (cache held5) (ticks held5) (disk held5)
             (trace held5 ++ [EvAcquire i; EvRelease i; EvAcquire i; EvRelease i])).
Proof.
  apply (@bpin_bunpin small held5 [[3; 2; 1]; []; [0]] 0
           (default (@buf0 small) (bufs (cache held5) !! 0)) held5_inv).
  - vm_compute. reflexivity.
  - vm_compute. split; [discriminate|reflexivity].
Defined.

Lemma refcnt_underflow_witness :
  exists s' b',
    @bunpin small (Buf 0) cached5 = Ok tt s' /\ bufs (cache s') !! 0 = Some b' /\
    refcnt b' = 4294967295%Z /\
    lastuse b' = lastuse (default (@buf0 small) (bufs (cache cached5) !! 0)) /\
    ~ free (cache s') 0.
Proof.
  apply (@refcnt_underflow small cached5 [[3; 2; 1]; []; [0]] 7 0
           (default (@buf0 small) (bufs (cache cached5) !! 0)) cached5_inv).
  - vm_compute. reflexivity.
  - vm_compute. reflexivity.
Defined.

Lemma referenced_kept_witness :
  exists b',
    bufs (cache (state_of (@run small (Bget 8 0 9) held5))) !! 0 = Some b' /\
    key b' = key (default (@buf0 small) (bufs (cache held5) !! 0)).
Proof.
  destruct (@referenced_kept small held5 [[3; 2; 1]; []; [0]] (Bget 8 0 9) 0
              (default (@buf0 small) (bufs (cache held5) !! 0)) held5_inv)
    as (b' & Hb' & Hk & _).
  - vm_compute. reflexivity.
  - vm_compute. discriminate.
  - exists b'. split; [exact Hb'|exact Hk].
Defined.

(** At [cached5] every slot in use is the one the walk finds. *)
Lemma cached5_settled : settled (cache cached5) [[3; 2; 1]; []; [0]].
Proof. apply settled_check_sound. vm_compute. reflexivity. Qed.

Lemma settled_kept_witness :
  let s' := state_of (@run small (Bread 7 0 9) cached5) in
  (0 < @NBUCKET small /\
   exists s0, @binit small (@boot small) = Ok tt s0 /\
              settled (cache s0) [[3; 2; 1; 0]; []; []]) /\
  key <$> bufs (cache cached5) !! 1 = Some (0%Z, 0%Z) /\
  key <$> bufs (cache s') !! 1 = Some (0%Z, 9%Z) /\
  exists ls',
    @inv small (cache s') ls' /\
    settled (cache s') ls' /\
    forall x y bx by_,
      bufs (cache s') !! x = Some bx -> bufs (cache s') !! y = Some by_ ->
      ~ unused bx -> ~ unused by_ -> key bx = key by_ -> x = y.
Proof.
  intros s'.
  destruct (@settled_kept small cached5 [[3; 2; 1]; []; [0]] (Bread 7 0 9)) as [Hboot Hkept].
  assert (Hn : 0 < @NBUCKET small) by (vm_compute; lia).
  split; [split; [exact Hn|exact (Hboot Hn)]|].
  split; [vm_compute; reflexivity|]. split; [vm_compute; reflexivity|].
  apply (Hkept cached5_inv cached5_settled).
  intros j b [Hk|Hk]; discriminate Hk.
Defined.

Lemma disk_and_clock_witness :
  ticks (state_of (@run small (Bwrite 7 0) held5)) = ticks held5 /\
  (disk (state_of (@run small (Bwrite 7 0) held5)) = disk held5 \/
   exists pid j b,
     Bwrite 7 0 = Bwrite pid j /\ bufs (cache held5) !! j = Some b /\ lock b = Some pid /\
     disk (state_of (@run small (Bwrite 7 0) held5)) =
     <[(dev b, blockno b) := data b]> (disk held5)).
Proof.
  exact (@disk_and_clock small held5 [[3; 2; 1]; []; [0]] (Bwrite 7 0) held5_inv).
Defined.


Lemma bread_miss_witness :
  exists j b b' t,
    Buf 1 = Buf j /\
    bufs (cache cached5) !! j = Some b /\ refcnt b = 0%Z /\ lock b = None /\
    bufs (cache (state_of (@bread small 7 0 9 cached5))) !! j = Some b' /\
    (valid b', dev b', blockno b', refcnt b', lock b') = (1%Z, 0%Z, 9%Z, 1%Z, Some 7%Z) /\
    data b' = default (replicate (@BSIZE small) 0%Z) (disk cached5 !! (0%Z, 9%Z)) /\
    (forall x bx, bufs (cache (state_of (@bread small 7 0 9 cached5))) !! x = Some bx ->
                  key bx = (0%Z, 9%Z) -> x = j) /\
    trace (state_of (@bread small 7 0 9 cached5)) =
    trace cached5 ++ t ++ [EvDiskRW (Buf j) false] /\ calm t /\ held t = [].
Proof.
  apply (@bread_miss small cached5 [[3; 2; 1]; []; [0]] 7 0 9 0 [3; 2; 1] (Buf 1) _ cached5_inv).
  - reflexivity.
  - reflexivity.
  - vm_compute. reflexivity.
  - vm_compute. reflexivity.
Defined.

Lemma bget_home_reuse_witness :
  exists j b l1 l2,
    [3; 2; 1] = l1 ++ j :: l2 /\ bufs (cache cached5) !! j = Some b /\ refcnt b = 0%Z /\
    (forall y by_, y ∈ l1 -> bufs (cache cached5) !! y = Some by_ -> refcnt by_ = 0%Z ->
                   (lastuse b <= lastuse by_)%Z) /\
    (forall y by_, y ∈ l2 -> bufs (cache cached5) !! y = Some by_ -> refcnt by_ = 0%Z ->
                   (lastuse b < lastuse by_)%Z) /\
    @bget small 7 0 9 cached5 =
    hand_over 7 j (set_refcnt 1 (set_valid 0 (set_blockno 9 (set_dev 0 b))))
      [EvAcquire 0; EvRelease 0; EvAcquireSleep (Buf j)] cached5.
Proof.
  apply (@bget_home_reuse small cached5 [[3; 2; 1]; []; [0]] 7 0 9 0 [3; 2; 1] 2
           (default (@buf0 small) (bufs (cache cached5) !! 2)) cached5_inv).
  - reflexivity.
  - reflexivity.
  - vm_compute. reflexivity.
  - apply (bool_decide_unpack _). vm_compute. exact I.
  - vm_compute. reflexivity.
  - vm_compute. reflexivity.
  - vm_compute. reflexivity.
Defined.

(** [cached5] with bytes on the disk for block 9 of device 0. *)
Lemma coherent_kept_witness :
  let s := set_disk {[ (0%Z, 9%Z) := [4%Z; 2%Z] ]} cached5 in
  let s' := state_of (@run small (Bread 7 0 9) s) in
  (valid <$> bufs (cache s) !! 1, data <$> bufs (cache s) !! 1)
  = (Some 0%Z, Some [0%Z; 0%Z]) /\
  (valid <$> bufs (cache s') !! 1, data <$> bufs (cache s') !! 1)
  = (Some 1%Z, Some [4%Z; 2%Z]) /\
  @coherent small s'.
Proof.
  intros s s'.
  split; [vm_compute; reflexivity|]. split; [vm_compute; reflexivity|].
  apply (@coherent_kept small s [[3; 2; 1]; []; [0]] (Bread 7 0 9)).
  - apply inv_check_sound. vm_compute. reflexivity.
  - apply settled_check_sound. vm_compute. reflexivity.
  - intros y b Hb _.
    assert (Forall (fun b => data b = @stored small s (dev b) (blockno b))
              (bufs (cache s))) as Hall by (vm_compute; repeat constructor).
    by apply (Forall_lookup_1 _ _ _ _ Hall Hb).
Defined.

Lemma binit_fresh_witness :
  exists s0,
    @binit small (@boot small) = Ok tt s0 /\ trace s0 = [] /\
    (forall j, j < @NBUF small ->
               exists b, bufs (cache s0) !! j = Some b /\ payload b = payload (@buf0 small)) /\
    exists j s1 b1,
      @bread small 7 0 5 s0 = Ok (Buf j) s1 /\ bufs (cache s1) !! j = Some b1 /\
      (valid b1, dev b1, blockno b1, refcnt b1, lock b1) = (1%Z, 0%Z, 5%Z, 1%Z, Some 7%Z) /\
      data b1 = replicate (@BSIZE small) 0%Z.
Proof.
  apply (@binit_fresh small 7 0 5).
  - vm_compute. lia.
  - vm_compute. lia.
  - lia.
Defined.
